(** * Monte Carlo forecast pipeline ([Monte Carlo/mc_pipeline.py])

    A shallow embedding of the simulation core of [mc_pipeline.py]: the
    correlation engine ([cholesky], [build_correlation]), the shock sampler
    ([sample_correlated_z], [sample_rate]), the trajectory projector
    ([apply_decline], [infer_true_from_observed], [apply_measurement_noise],
    [simulate_client]) and the row builder ([build_sheet_rows]); then the
    text helpers of the workbook ([xml_escape], [sanitize_sheet_name],
    [col_name], [col_letter]), the labelled rows of [read_input_clients]
    and [run_decline_sanity_checks].  The embedding comes first, with the
    notions the statements use and the example inputs, then the proofs.

    Modelling conventions.
    - A Python [float] is a real number of [R]: rounding, overflow and the
      special values are not modelled.  Comparisons are decided with
      [Rle_dec], [Rlt_dec] and the like.  Sums and quotients are exact, so
      that the mean of several equal draws is the draw, where binary64 may
      be off by an ulp; and [1.0 + cv * cv] is [1] at [cv = 0] only.  A
      power of a negative base with an exponent that is not an integer, a
      complex number in Python, stops the model with [ComplexValue].
    - A Python exception is an [Err] outcome of the [result] type; code
      that raises stops there.  [try ... except Exception] turns every
      [Err] into the handler's branch.
    - The module-global generator of [random] is a value of type [rng]
      that is passed along explicitly: a source of standard normal variates
      and a source of uniform variates of [[0,1)], each with its position.
      [random.gauss(mu, sigma)] is [mu + z * sigma] and
      [random.uniform(a, b)] is [a + (b - a) * u], as in the library.
    - A [dict] keyed by test names is a [gmap string _]; [d[k]] raises
      [KeyError] on a missing key and [d.get(k)] gives [None].  The fixed
      keys of the configuration are record fields.
    - The loops are [for_each] over the list they iterate on, with the
      variables they assign as the state.
    - A Python [str] is a [string] of characters with code points below
      256; [isalpha], [isspace] and [lower] are the Unicode ones on that
      range. *)

From Stdlib Require Import Reals Lra Lia ZArith Ascii.
From Stdlib Require DecimalString DecimalNat.
From stdpp Require Import base gmap strings list fin_maps.

Local Open Scope string_scope.
Local Open Scope list_scope.

(** ** Outcomes *)

Inductive exn : Type :=
  | ValueError
  | IndexError
  | KeyError
  | TypeError
  | ZeroDivisionError
  | RuntimeError
  | ComplexValue.
(* [ComplexValue] is not a Python exception: a negative float raised to a
   fractional power is a [complex] in Python 3, which this embedding has
   no values for; the model stops there with that outcome. *)

Inductive result (A : Type) : Type :=
  | Ok (a : A)
  | Err (e : exn).
Arguments Ok {A} a.
Arguments Err {A} e.

#[global] Instance result_bind : MBind result := λ A B f m,
  match m with
  | Ok a => f a
  | Err e => Err e
  end.
#[global] Instance result_ret : MRet result := λ A a, Ok a.

(** A [for x in l: body] loop over a state of type [S]. *)
Fixpoint for_each {A S : Type} (l : list A) (body : A → S → result S) (s : S)
  : result S :=
  match l with
  | [] => Ok s
  | x :: l' => s' ← body x s ; for_each l' body s'
  end.

(** [range(n)] for a natural number [n]. *)
Definition range (n : nat) : list nat := seq 0 n.

(** ** Floating-point primitives, over the reals *)

Local Open Scope R_scope.

#[global] Instance R_eq_dec : EqDecision R := Req_dec_T.

(** [a / b] *)
Definition py_div (a b : R) : result R :=
  if Req_dec_T b 0 then Err ZeroDivisionError else Ok (a / b).

(** [math.log(x)] *)
Definition math_log (x : R) : result R :=
  if Rlt_dec 0 x then Ok (ln x) else Err ValueError.

(** [math.sqrt(x)] *)
Definition math_sqrt (x : R) : result R :=
  if Rle_dec 0 x then Ok (sqrt x) else Err ValueError.

(** [math.exp(x)] *)
Definition math_exp (x : R) : R := exp x.

(** Whether the real [y] is an integer. *)
Definition is_integer (y : R) : Prop := ∃ k : Z, y = IZR k.

Definition is_integer_dec (y : R) : {is_integer y} + {¬ is_integer y}.
Proof.
  destruct (Req_dec_T y (IZR (Int_part y))) as [E|N].
  - left. by exists (Int_part y).
  - right. intros [k ->]. apply N.
    replace (Int_part (IZR k)) with k; [done|].
    apply Int_part_spec. lra.
Defined.

(** [x ** y] on floats.  A zero base with a negative exponent raises; a
    negative base with an integer exponent is the real power, and with any
    other exponent the value is complex. *)
Definition py_pow (x y : R) : result R :=
  if Rlt_dec 0 x then Ok (Rpower x y)
  else if Req_dec_T x 0 then
    if Rlt_dec 0 y then Ok 0
    else if Req_dec_T y 0 then Ok 1
    else Err ZeroDivisionError
  else
    if is_integer_dec y then Ok (powerRZ x (Int_part y))
    else Err ComplexValue.

(** [lognormal_sigma_from_cv]: [math.sqrt(math.log(1.0 + cv * cv))]. *)
Definition lognormal_sigma_from_cv (cv : R) : result R :=
  l ← math_log (1 + cv * cv) ;
  math_sqrt l.

(** ** The generator *)

Record rng : Type := Rng {
  normal_src : nat → R;
  normal_pos : nat;
  uniform_src : nat → R;
  uniform_pos : nat
}.

(** The next standard normal variate. *)
Definition next_normal (g : rng) : R * rng :=
  (normal_src g (normal_pos g),
   Rng (normal_src g) (S (normal_pos g)) (uniform_src g) (uniform_pos g)).

(** [random.random()] *)
Definition next_random (g : rng) : R * rng :=
  (uniform_src g (uniform_pos g),
   Rng (normal_src g) (normal_pos g) (uniform_src g) (S (uniform_pos g))).

(** [random.gauss(mu, sigma)]: [mu + z * sigma] for the next variate [z]. *)
Definition gauss (mu sigma : R) (g : rng) : R * rng :=
  let '(z, g') := next_normal g in (mu + z * sigma, g').

(** [random.uniform(a, b)]: [a + (b - a) * random()]. *)
Definition uniform (a b : R) (g : rng) : R * rng :=
  let '(u, g') := next_random g in (a + (b - a) * u, g').

(** ** Matrices as lists of rows *)

Abbreviation matrix := (list (list R)).

(** [m[i][j]] *)
Definition mget (m : matrix) (i j : nat) : result R :=
  match m !! i with
  | Some row =>
      match row !! j with
      | Some x => Ok x
      | None => Err IndexError
      end
  | None => Err IndexError
  end.

(** [m[i][j] = x] *)
Definition mset (m : matrix) (i j : nat) (x : R) : result matrix :=
  match m !! i with
  | Some row =>
      if decide (j < length row)%nat then Ok (<[i := <[j := x]> row]> m)
      else Err IndexError
  | None => Err IndexError
  end.

(** [[[0.0] * n for _ in range(n)]] *)
Definition zeros (n : nat) : matrix := replicate n (replicate n 0).

(** ** Correlation engine *)

(** The body of the [k] loop of [cholesky]: [s += L[i][k] * L[j][k]]. *)
Definition dot_step (L : matrix) (i j : nat) (k : nat) (s : R) : result R :=
  lik ← mget L i k ;
  ljk ← mget L j k ;
  Ok (s + lik * ljk).

(** The body of the [j] loop of [cholesky]. *)
Definition cholesky_cell (m : matrix) (i j : nat) (L : matrix) : result matrix :=
  s ← for_each (range j) (dot_step L i j) 0 ;
  if decide (i = j) then
    mii ← mget m i i ;
    let val := mii - s in
    if Rle_dec val 0 then Err ValueError
    else
      r ← math_sqrt val ;
      mset L i j r
  else
    mij ← mget m i j ;
    ljj ← mget L j j ;
    q ← py_div (mij - s) ljj ;
    mset L i j q.

Definition cholesky_row (m : matrix) (i : nat) (L : matrix) : result matrix :=
  for_each (range (i + 1)) (cholesky_cell m i) L.

Definition cholesky (m : matrix) : result matrix :=
  let n := length m in
  for_each (range n) (cholesky_row m) (zeros n).

(** The configuration document ([mc_assumptions.json]), as far as the
    simulation reads it.  Numeric fields hold numbers; an optional key that
    the source reads with a default is a field holding that default. *)

Record correlations_cfg : Type := {
  corr_tests : list string;
  corr_pairs : list (string * string * R)
}.

(** [idx = {t: i for i, t in enumerate(tests)}]: a later occurrence of a
    name replaces an earlier one. *)
Definition index_map (tests : list string) : gmap string nat :=
  foldl (λ (m : gmap string nat) (p : nat * string), <[p.2 := p.1]> m) ∅
        (zip (seq 0 (length tests)) tests).

(** [d[k]] on a dict. *)
Definition dict_get {V : Type} (d : gmap string V) (k : string) : result V :=
  match d !! k with
  | Some v => Ok v
  | None => Err KeyError
  end.

(** [for i in range(n): corr[i][i] = 1.0] *)
Definition unit_diagonal (n : nat) (corr : matrix) : result matrix :=
  for_each (range n) (λ i c, mset c i i 1) corr.

(** The body of [for a, b, val in pairs]. *)
Definition set_pair (idx : gmap string nat) (p : string * string * R)
    (corr : matrix) : result matrix :=
  let '(a, b, val) := p in
  i ← dict_get idx a ;
  j ← dict_get idx b ;
  corr ← mset corr i j val ;
  mset corr j i val.

(** The symmetric matrix [corr] that [build_correlation] fills in. *)
Definition correlation_matrix (c : correlations_cfg) : result matrix :=
  let tests := corr_tests c in
  let idx := index_map tests in
  let n := length tests in
  corr ← unit_diagonal n (zeros n) ;
  for_each (corr_pairs c) (set_pair idx) corr.

(** A list comprehension whose element expression may raise. *)
Fixpoint comprehension {A B : Type} (f : A → result B) (l : list A)
  : result (list B) :=
  match l with
  | [] => Ok []
  | x :: l' => y ← f x ; ys ← comprehension f l' ; Ok (y :: ys)
  end.

(** [[[corr[i][j] + (eps if i == j else 0.0) for j in range(n)]
      for i in range(n)]] *)
Definition inflate (corr : matrix) (n : nat) (eps : R) : result matrix :=
  comprehension (λ i,
    comprehension (λ j,
      x ← mget corr i j ;
      Ok (x + (if decide (i = j) then eps else 0))) (range n)) (range n).

(** One pass of the body of [for eps in [...]]: the [try] block. *)
Definition try_cholesky (corr : matrix) (n : nat) (eps : R) : result matrix :=
  corr_eps ← (if Rlt_dec 0 eps then inflate corr n eps else Ok corr) ;
  cholesky corr_eps.

(** The [for eps in ...] loop with its [break]: the value of [L] after
    the loop, [None] when every pass raised. *)
Fixpoint first_factor (corr : matrix) (n : nat) (epsilons : list R)
  : option matrix :=
  match epsilons with
  | [] => None
  | eps :: rest =>
      match try_cholesky corr n eps with
      | Ok L => Some L
      | Err _ => first_factor corr n rest
      end
  end.

Definition epsilons : list R := [0; 1e-8; 1e-6; 1e-5; 1e-4; 1e-3; 1e-2].

Definition build_correlation (c : correlations_cfg)
  : result (list string * matrix) :=
  corr ← correlation_matrix c ;
  match first_factor corr (length (corr_tests c)) epsilons with
  | None => Err RuntimeError
  | Some L => Ok (corr_tests c, L)
  end.

(** ** Shock sampler *)

(** [l[i]] on a list. *)
Definition list_get {A : Type} (l : list A) (i : nat) : result A :=
  match l !! i with
  | Some x => Ok x
  | None => Err IndexError
  end.

(** [l[i] = x] on a list. *)
Definition list_set {A : Type} (l : list A) (i : nat) (x : A) : result (list A) :=
  if decide (i < length l)%nat then Ok (<[i := x]> l) else Err IndexError.

(** [[random.gauss(0.0, 1.0) for _ in range(n)]] *)
Fixpoint draw_normals (n : nat) (g : rng) : list R * rng :=
  match n with
  | O => ([], g)
  | S n' =>
      let '(z, g1) := gauss 0 1 g in
      let '(zs, g2) := draw_normals n' g1 in
      (z :: zs, g2)
  end.

Definition sample_correlated_z (L : matrix) (g : rng) : result (list R * rng) :=
  let n := length L in
  let '(z, g') := draw_normals n g in
  x ← for_each (range n) (λ i x,
         Li ← list_get L i ;
         s ← for_each (range (i + 1)) (λ k s,
                lik ← list_get Li k ;
                zk ← list_get z k ;
                Ok (s + lik * zk)) 0 ;
         list_set x i s) (replicate n 0) ;
  Ok (x, g').

(** The variate of [sample_rate]: the shock [z] handed in, or a fresh
    [random.gauss(0.0, 1.0)] when it is [None]. *)
Definition shock_or_draw (z : option R) (g : rng) : R * rng :=
  match z with
  | Some z => (z, g)
  | None => gauss 0 1 g
  end.

Definition sample_rate (test : string) (mu cv : R) (is_lognormal : bool)
    (z : option R) (g : rng) : result (R * rng) :=
  if is_lognormal then
    sigma ← lognormal_sigma_from_cv cv ;
    mu_log ← math_log mu ;
    let '(z, g') := shock_or_draw z g in
    let r := math_exp (mu_log + sigma * z) in
    Ok (r, g')
  else
    let sigma := Rabs mu * cv in
    let '(z, g') := shock_or_draw z g in
    let r := mu + sigma * z in
    let r := if Rlt_dec r 0 then 0 else r in
    Ok (r, g').

Record homa_cfg : Type := {
  q10 : R;
  q90 : R;
  median : R;
  homa_min : R;   (* [homa_cfg.get('min', 0.0)] *)
  homa_max : R    (* [homa_cfg.get('max', 1.0)] *)
}.

Definition z10 : R := -1.2815515655446004.
Definition z90 : R := 1.2815515655446004.

Definition sample_homa_reduction (h : homa_cfg) (g : rng) : result (R * rng) :=
  l90 ← math_log (q90 h) ;
  l10 ← math_log (q10 h) ;
  let sigma := (l90 - l10) / (z90 - z10) in
  mu ← math_log (median h) ;
  let '(z, g') := gauss 0 1 g in
  let r := math_exp (mu + sigma * z) in
  let r := Rmax (homa_min h) (Rmin (homa_max h) r) in
  Ok (r, g').

Record improvement_cfg : Type := {
  vo2_age_cutoff : R;
  vo2_under : R * R;
  vo2_over : R * R;
  homa_ir_reduction : homa_cfg;
  ranges : gmap string (R * R)
}.

Definition sample_improvement_fraction (test : string) (age : option R)
    (improve_cfg : improvement_cfg) (g : rng) : result (R * rng) :=
  if decide (test = "VO2 max") then
    let cutoff := vo2_age_cutoff improve_cfg in
    let under :=
      match age with
      | None => true
      | Some a => if Rlt_dec a cutoff then true else false
      end in
    let '(low, high) := if under then vo2_under improve_cfg
                        else vo2_over improve_cfg in
    Ok (uniform low high g)
  else if decide (test = "HOMA-IR") then
    sample_homa_reduction (homa_ir_reduction improve_cfg) g
  else
    match ranges improve_cfg !! test with
    | None => Ok (0, g)
    | Some rg => Ok (uniform rg.1 rg.2 g)
    end.

(** ** Trajectory projector *)

(** The local function [apply_segment] of [apply_decline]. *)
Definition apply_segment (higher_is_better use_absolute : bool)
    (val rate years_segment : R) : result R :=
  if Rle_dec years_segment 0 then Ok val
  else if use_absolute then
    let decline_amount := rate * (years_segment / 10) in
    if higher_is_better then Ok (val - decline_amount)
    else Ok (val + decline_amount)
  else
    let factor :=
      if higher_is_better then
        if Rle_dec 0 val then 1 - rate else 1 + rate
      else
        if Rle_dec 0 val then 1 + rate else 1 - rate in
    p ← py_pow factor (years_segment / 10) ;
    Ok (val * p).

(** [years1, years2] of [apply_decline]. *)
Definition split_years (age_start years : R) (accel_age : option R) : R * R :=
  match accel_age with
  | None => (years, 0)
  | Some a =>
      if Rlt_dec age_start a then
        let years1 := Rmin years (a - age_start) in
        (years1, years - years1)
      else (0, years)
  end.

Definition apply_decline (value age_start years rate_base : R)
    (rate_post accel_age : option R) (higher_is_better use_absolute : bool)
  : result R :=
  if Rle_dec years 0 then Ok value
  else
    let '(years1, years2) := split_years age_start years accel_age in
    val ← (if Rlt_dec 0 years1
           then apply_segment higher_is_better use_absolute value rate_base years1
           else Ok value) ;
    if Rlt_dec 0 years2 then
      let rate := match rate_post with Some r => r | None => rate_base end in
      apply_segment higher_is_better use_absolute val rate years2
    else Ok val.

(** A float is expected where the value may be [None]: arithmetic and
    comparisons on [None] raise [TypeError]. *)
Definition as_float (v : option R) : result R :=
  match v with
  | Some x => Ok x
  | None => Err TypeError
  end.

Definition apply_measurement_noise (test : string) (true_val : R)
    (measurement_cv : gmap string R) (measurement_lognormal : gset string)
    (allow_negative_tests : gset string) (g : rng) : result (R * rng) :=
  cv ← dict_get measurement_cv test ;
  if decide (test ∈ measurement_lognormal) then
    if Rle_dec true_val 0 then Ok (0, g)
    else
      sigma ← lognormal_sigma_from_cv cv ;
      let '(z, g') := gauss 0 1 g in
      let factor := math_exp (sigma * z) in
      Ok (true_val * factor, g')
  else
    let sigma := Rabs true_val * cv in
    let '(noise, g') := gauss 0 sigma g in
    let obs := true_val + noise in
    let obs := if decide (test ∉ allow_negative_tests)
               then (if Rlt_dec obs 0 then 0 else obs) else obs in
    Ok (obs, g').

Definition infer_true_from_observed (test : string) (obs_val : option R)
    (measurement_cv : gmap string R) (measurement_lognormal : gset string)
    (allow_negative_tests : gset string) (g : rng) : result (R * rng) :=
  cv ← dict_get measurement_cv test ;
  obs_val ← as_float obs_val ;
  if decide (test ∈ measurement_lognormal) then
    if Rle_dec obs_val 0 then Ok (0, g)
    else
      sigma ← lognormal_sigma_from_cv cv ;
      let '(z, g') := gauss 0 1 g in
      let factor := math_exp (sigma * z) in
      q ← py_div obs_val factor ;
      Ok (q, g')
  else
    let sigma := Rabs obs_val * cv in
    let '(noise, g') := gauss 0 sigma g in
    let true_val := obs_val - noise in
    let true_val := if decide (test ∉ allow_negative_tests)
                    then (if Rlt_dec true_val 0 then 0 else true_val)
                    else true_val in
    Ok (true_val, g').

(** ** The simulation of one client *)

Record decline_cfg : Type := {
  base_rate_per_decade : gmap string R;
  post_rate_per_decade : gmap string R;
  accelerate_from_age : gmap string R
}.

Record practice_cfg : Type := {
  practice_enabled : bool;          (* [practice_cfg.get('enabled')] *)
  practice_year : option R;         (* [practice_cfg.get('year')] *)
  practice_tests : list string;     (* [practice_cfg.get('tests', [])] *)
  practice_percent : R              (* [practice_cfg.get('percent', 0.0)] *)
}.

Record config : Type := {
  tests_order : list string;
  higher_is_better : list string;
  lower_is_better : list string;
  cognitive_tests : list string;
  absolute_decline_tests : option (list string);
  allow_negative_tests : option (list string);
  decline : decline_cfg;
  rate_uncertainty_cv : gmap string R;
  rate_lognormal : list string;
  measurement_cv : gmap string R;
  measurement_lognormal : list string;
  correlations : correlations_cfg;
  improvement : improvement_cfg;
  practice_effect : practice_cfg;
  n_sim : Z
}.

(** A client as [read_input_clients] builds it: [data] has an entry for
    each recognised label of the sheet, holding [to_float] of its cell,
    which is [None] when the cell is not a number. *)
Record client : Type := {
  sheet_name : string;
  name : string;
  age : option R;
  data : gmap string (option R)
}.

(** [set(cfg['...'])] *)
Definition set_of (l : list string) : gset string := list_to_set l.

(** [set(cfg.get('absolute_decline_tests', []))] *)
Definition absolute_decline_set (cfg : config) : gset string :=
  set_of (default [] (absolute_decline_tests cfg)).

(** [set(cfg.get('allow_negative_tests',
                 cfg['cognitive_tests'] + ['Sit and Reach']))] *)
Definition allow_negative_set (cfg : config) : gset string :=
  set_of (default (cognitive_tests cfg ++ ["Sit and Reach"])
                  (allow_negative_tests cfg)).

(** [{t: 0.0 for t in tests}] *)
Definition zero_sums (tests : list string) : gmap string R :=
  foldl (λ (m : gmap string R) t, <[t := 0]> m) ∅ tests.

(** [{corr_tests[i]: z_corr[i] for i in range(len(corr_tests))}] *)
Definition shock_map (corr_tests : list string) (z_corr : list R)
  : result (gmap string R) :=
  for_each (range (length corr_tests)) (λ i (m : gmap string R),
    t ← list_get corr_tests i ;
    z ← list_get z_corr i ;
    Ok (<[t := z]> m)) ∅.

(** [post_mu * (r / mu) if mu > 0 else post_mu] *)
Definition scaled_post_rate (post_mu r mu : R) : R :=
  if Rlt_dec 0 mu then post_mu * (r / mu) else post_mu.

(** The body of the first [for test in tests] loop of a draw: the sampled
    rates.  The state is [rate], [rate_post] and the generator. *)
Definition rate_step (cfg : config) (z_map : gmap string R) (test : string)
    (st : gmap string R * gmap string (option R) * rng)
  : result (gmap string R * gmap string (option R) * rng) :=
  let '(rate, rate_post, g) := st in
  mu ← dict_get (base_rate_per_decade (decline cfg)) test ;
  cv ← dict_get (rate_uncertainty_cv cfg) test ;
  '(r, g) ← sample_rate test mu cv
              (bool_decide (test ∈ set_of (rate_lognormal cfg)))
              (z_map !! test) g ;
  let rate := <[test := r]> rate in
  let rate_post :=
    match post_rate_per_decade (decline cfg) !! test with
    | None => <[test := None]> rate_post
    | Some post_mu => <[test := Some (scaled_post_rate post_mu r mu)]> rate_post
    end in
  Ok (rate, rate_post, g).

(** The body of the second loop: the de-noised baselines [true0]. *)
Definition true0_step (cfg : config) (c : client) (test : string)
    (st : gmap string R * rng) : result (gmap string R * rng) :=
  let '(true0, g) := st in
  let obs := default (Some 0) (data c !! test) in
  '(v, g) ← infer_true_from_observed test obs (measurement_cv cfg)
              (set_of (measurement_lognormal cfg)) (allow_negative_set cfg) g ;
  Ok (<[test := v]> true0, g).

(** [age or 0] *)
Definition age_or_0 (age : option R) : R := default 0 age.

(** The instantaneous improvement of the "improvement" scenario. *)
Definition improve (cfg : config) (test : string) (val imp : R) : R :=
  if decide (test ∈ absolute_decline_set cfg) then
    if decide (test ∈ set_of (lower_is_better cfg)) then val - imp
    else val + imp
  else
    if decide (test ∈ set_of (lower_is_better cfg)) then
      if Rle_dec 0 val then val * (1 - imp) else val * (1 + imp)
    else
      if Rle_dec 0 val then val * (1 + imp) else val * (1 - imp).

(** The scenario branch of the innermost loop: the value after the
    scenario's adjustment and the decline over the horizon. *)
Definition scenario_value (cfg : config) (c : client) (scenario : string)
    (years : R) (test : string) (val : R) (rate : gmap string R)
    (rate_post : gmap string (option R)) (g : rng) : result (R * rng) :=
  let accel := accelerate_from_age (decline cfg) !! test in
  let hib := bool_decide (test ∈ set_of (higher_is_better cfg)) in
  let absd := bool_decide (test ∈ absolute_decline_set cfg) in
  if decide (scenario = "improvement") then
    '(imp, g) ← sample_improvement_fraction test (age c) (improvement cfg) g ;
    let val := improve cfg test val imp in
    r ← dict_get rate test ;
    rp ← dict_get rate_post test ;
    val ← apply_decline val (age_or_0 (age c) + 1) (years - 1)
            r rp accel hib absd ;
    Ok (val, g)
  else
    r ← dict_get rate test ;
    rp ← dict_get rate_post test ;
    val ← apply_decline val (age_or_0 (age c)) years
            r rp accel hib absd ;
    Ok (val, g).

(** Whether the practice effect applies to [test] at horizon [years]. *)
Definition practice_applies (cfg : config) (years : R) (test : string) : bool :=
  let p := practice_effect cfg in
  practice_enabled p
  && bool_decide (practice_year p = Some years)
  && bool_decide (test ∈ practice_tests p).

Definition practice (cfg : config) (years : R) (test : string) (val : R) : R :=
  if practice_applies cfg years test then
    let practice_amount := practice_percent (practice_effect cfg) in
    if decide (test ∈ absolute_decline_set cfg) then val + practice_amount
    else if Rle_dec 0 val then val * (1 + practice_amount)
    else val * (1 - practice_amount)
  else val.

(** The body of [for test in tests] inside [for years, sums in ...]. *)
Definition horizon_step (cfg : config) (c : client) (scenario : string)
    (rate : gmap string R) (rate_post : gmap string (option R))
    (true0 : gmap string R) (years : R) (test : string)
    (st : gmap string R * rng) : result (gmap string R * rng) :=
  let '(sums, g) := st in
  val ← dict_get true0 test ;
  '(val, g) ← scenario_value cfg c scenario years test val rate rate_post g ;
  let val := practice cfg years test val in
  '(obs, g) ← apply_measurement_noise test val (measurement_cv cfg)
                (set_of (measurement_lognormal cfg)) (allow_negative_set cfg) g ;
  s ← dict_get sums test ;
  Ok (<[test := s + obs]> sums, g).

(** One pass of [for _ in range(n_sim)]. *)
Definition simulate_draw (cfg : config) (c : client) (corr_tests : list string)
    (corr_L : matrix) (scenario : string)
    (st : gmap string R * gmap string R * rng)
  : result (gmap string R * gmap string R * rng) :=
  let '(sums5, sums10, g) := st in
  let tests := tests_order cfg in
  '(z_corr, g) ← sample_correlated_z corr_L g ;
  z_map ← shock_map corr_tests z_corr ;
  '(rate, rate_post, g) ← for_each tests (rate_step cfg z_map) (∅, ∅, g) ;
  '(true0, g) ← for_each tests (true0_step cfg c) (∅, g) ;
  '(sums5, g) ← for_each tests
                  (horizon_step cfg c scenario rate rate_post true0 5) (sums5, g) ;
  '(sums10, g) ← for_each tests
                  (horizon_step cfg c scenario rate rate_post true0 10) (sums10, g) ;
  Ok (sums5, sums10, g).

(** [{t: sums[t] / n_sim for t in tests}] *)
Definition means (tests : list string) (sums : gmap string R) (n_sim : Z)
  : result (gmap string R) :=
  for_each tests (λ t (m : gmap string R),
    s ← dict_get sums t ;
    q ← py_div s (IZR n_sim) ;
    Ok (<[t := q]> m)) ∅.

Definition simulate_client (c : client) (cfg : config) (corr_tests : list string)
    (corr_L : matrix) (scenario : string) (g : rng)
  : result (gmap string R * gmap string R * rng) :=
  let tests := tests_order cfg in
  '(sums5, sums10, g) ←
     for_each (range (Z.to_nat (n_sim cfg)))
       (λ _, simulate_draw cfg c corr_tests corr_L scenario)
       (zero_sums tests, zero_sums tests, g) ;
  mean5 ← means tests sums5 (n_sim cfg) ;
  mean10 ← means tests sums10 (n_sim cfg) ;
  Ok (mean5, mean10, g).

(** ** Result rows *)

Inductive cell : Type :=
  | CText (s : string)
  | CNumber (x : R)
  | CNone.

(** [d.get(t, '')] on a dict of floats. *)
Definition get_or_blank (d : gmap string R) (t : string) : cell :=
  match d !! t with
  | Some x => CNumber x
  | None => CText ""
  end.

(** [data.get(t, '')] on the client's data. *)
Definition baseline_cell (d : gmap string (option R)) (t : string) : cell :=
  match d !! t with
  | Some (Some x) => CNumber x
  | Some None => CNone
  | None => CText ""
  end.

Definition build_sheet_rows (c : client) (mean5 mean10 : gmap string R)
    (tests : list string) : list (list cell) :=
  [CText "Test"; CText "Baseline"; CText "Year 5 Mean"; CText "Year 10 Mean"]
  :: map (λ t, [CText t; baseline_cell (data c) t;
                get_or_blank mean5 t; get_or_blank mean10 t]) tests.


(** * Notions used by the statements *)

(** What both noise steps leave of a value when [cv = 0]: the value, or
    [0.0] where the step clamps it. *)
Definition clamped (test : string) (mln allow : gset string) (x : R) : R :=
  if decide (test ∈ mln) then (if Rle_dec x 0 then 0 else x)
  else if decide (test ∉ allow) then (if Rlt_dec x 0 then 0 else x)
  else x.

(** The entry [(i, j)] of a matrix, [0] outside of it. *)
Definition entry (m : matrix) (i j : nat) : R :=
  match m !! i with
  | Some row => default 0 (row !! j)
  | None => 0
  end.

(** An [n] by [n] matrix. *)
Definition square (n : nat) (m : matrix) : Prop :=
  length m = n ∧ ∀ i row, m !! i = Some row → length row = n.

(** [f 0 + ... + f (k - 1)], summed from the left as the loops do. *)
Fixpoint dotsum (f : nat → R) (k : nat) : R :=
  match k with
  | O => 0
  | S k' => dotsum f k' + f k'
  end.

(** The entry [(a, b)] of [L · Lᵗ] for an [n] by [n] matrix. *)
Definition mul_transpose (n : nat) (L : matrix) (a b : nat) : R :=
  dotsum (λ k, entry L a k * entry L b k) n.

Definition symmetric (m : matrix) : Prop :=
  ∀ a b, entry m a b = entry m b a.

Definition lower_triangular (L : matrix) : Prop :=
  ∀ a b, (a < b)%nat → entry L a b = 0.

(** The cells that [cholesky] has filled in when it reaches cell [(i, j)]. *)
Definition computed (i j a b : nat) : Prop :=
  (a < i ∧ b ≤ a)%nat ∨ (a = i ∧ b < j)%nat.

(** The invariant of the two outer loops of [cholesky]. *)
Definition chol_inv (m : matrix) (n i j : nat) (L : matrix) : Prop :=
  square n L ∧
  (∀ a b, ¬ computed i j a b → entry L a b = 0) ∧
  (∀ a b, computed i j a b →
     dotsum (λ k, entry L a k * entry L b k) (S b) = entry m a b) ∧
  (∀ b, computed i j b b → 0 < entry L b b).

(** Whether the pair [p] names the entries [(a, b)] and [(b, a)]. *)
Definition pair_names (idx : gmap string nat) (p : string * string * R)
    (a b : nat) : Prop :=
  (idx !! p.1.1 = Some a ∧ idx !! p.1.2 = Some b) ∨
  (idx !! p.1.1 = Some b ∧ idx !! p.1.2 = Some a).

(** The matrix of the specification: [1] on the diagonal, [0] elsewhere,
    and each pair's correlation at the two mirrored entries it names, a
    later pair replacing an earlier one on the same entry. *)
Definition requested_correlation (c : correlations_cfg) (a b : nat) : R :=
  foldl (λ acc p,
           if decide (pair_names (index_map (corr_tests c)) p a b)
           then p.2 else acc)
        (if decide (a = b) then 1 else 0) (corr_pairs c).

(** The observed baseline that the simulation starts from:
    [data.get(test, 0.0)] when it is a number. *)
Definition baseline_or_0 (c : client) (t : string) : R :=
  match data c !! t with
  | Some (Some b) => b
  | _ => 0
  end.

(** The improvement fraction of every test is the same at every draw. *)
Definition fixed_improvement (cfg : config) (c : client) (imp : string → R)
  : Prop :=
  ∀ t g, t ∈ tests_order cfg →
    ∃ g', sample_improvement_fraction t (age c) (improvement cfg) g
          = Ok (imp t, g').

(** A test without randomness: its rate and its measurements carry no
    uncertainty, and the inputs the simulation reads for it are there. *)
Definition quiet (cfg : config) (c : client) (t : string) : Prop :=
  (∃ mu, base_rate_per_decade (decline cfg) !! t = Some mu ∧
         (t ∈ rate_lognormal cfg → 0 < mu)) ∧
  rate_uncertainty_cv cfg !! t = Some 0 ∧
  measurement_cv cfg !! t = Some 0 ∧
  data c !! t ≠ Some None.

(** The value that one draw produces for a quiet test at a horizon. *)
Definition quiet_value (cfg : config) (c : client) (scenario : string)
    (imp : string → R) (years : R) (t : string) : result R :=
  mu ← dict_get (base_rate_per_decade (decline cfg)) t ;
  let rate := Rmax 0 mu in
  let rate_post := post_rate_per_decade (decline cfg) !! t in
  let accel := accelerate_from_age (decline cfg) !! t in
  let hib := bool_decide (t ∈ set_of (higher_is_better cfg)) in
  let absd := bool_decide (t ∈ absolute_decline_set cfg) in
  let mln := set_of (measurement_lognormal cfg) in
  let allow := allow_negative_set cfg in
  let v0 := clamped t mln allow (baseline_or_0 c t) in
  v ← (if decide (scenario = "improvement") then
         apply_decline (improve cfg t v0 (imp t)) (age_or_0 (age c) + 1)
           (years - 1) rate rate_post accel hib absd
       else
         apply_decline v0 (age_or_0 (age c)) years rate rate_post accel hib absd) ;
  Ok (clamped t mln allow (practice cfg years t v)).

(** [quiet_value] as a number, [0] where it is undefined. *)
Definition quiet_value_or_0 (cfg : config) (c : client) (scenario : string)
    (imp : string → R) (years : R) (t : string) : R :=
  match quiet_value cfg c scenario imp years t with
  | Ok v => v
  | Err _ => 0
  end.

(** The value of [apply_segment] where it is defined. *)
Definition seg_value (hib absd : bool) (val rate y : R) : R :=
  if Rle_dec y 0 then val
  else if absd then
    if hib then val - rate * (y / 10) else val + rate * (y / 10)
  else
    let factor :=
      if hib then (if Rle_dec 0 val then 1 - rate else 1 + rate)
      else (if Rle_dec 0 val then 1 + rate else 1 - rate) in
    val * (if Rlt_dec 0 factor then Rpower factor (y / 10) else 0).

(** The value of [apply_decline] where it is defined. *)
Definition decline_value (value age_start years rate_base : R)
    (rate_post accel_age : option R) (hib absd : bool) : R :=
  if Rle_dec years 0 then value
  else
    seg_value hib absd
      (seg_value hib absd value rate_base
         (split_years age_start years accel_age).1)
      (default rate_base rate_post)
      (split_years age_start years accel_age).2.

(** The rates of a test keep every power real: the decline is absolute, or
    the base rate is at most 1 and the post rate lies in [[-1, 1]]. *)
Definition bounded_rates (cfg : config) (t : string) : Prop :=
  t ∈ absolute_decline_set cfg ∨
  ((∀ mu, base_rate_per_decade (decline cfg) !! t = Some mu → mu <= 1) ∧
   (∀ p, post_rate_per_decade (decline cfg) !! t = Some p → -1 <= p <= 1)).

(** The client [c] with the baseline [x] recorded for the test [t]. *)
Definition with_baseline (c : client) (t : string) (x : R) : client :=
  {| sheet_name := sheet_name c; name := name c; age := age c;
     data := <[t := Some x]> (data c) |}.

(** De-noising an observed baseline, declining over a horizon of zero
    years and re-noising, one after the other. *)
Definition zero_horizon_round_trip (test : string) (obs : R)
    (measurement_cv : gmap string R) (measurement_lognormal : gset string)
    (allow_negative_tests : gset string) (age_start rate : R)
    (rate_post accel_age : option R) (higher_is_better use_absolute : bool)
    (g : rng) : result (R * rng) :=
  '(true0, g) ← infer_true_from_observed test (Some obs) measurement_cv
                  measurement_lognormal allow_negative_tests g ;
  val ← apply_decline true0 age_start 0 rate rate_post accel_age
          higher_is_better use_absolute ;
  apply_measurement_noise test val measurement_cv measurement_lognormal
    allow_negative_tests g.

(** * Example inputs *)

Definition example_rng : rng :=
  {| normal_src := λ n, INR n - 1; normal_pos := 0;
     uniform_src := λ n, / (INR n + 2); uniform_pos := 0 |}.

Definition example_improvement : improvement_cfg :=
  {| vo2_age_cutoff := 50;
     vo2_under := (0.1, 0.1);
     vo2_over := (0.05, 0.05);
     homa_ir_reduction :=
       {| q10 := 0.1; q90 := 0.4; median := 0.2; homa_min := 0; homa_max := 1 |};
     ranges := ∅ |}.

Definition no_practice : practice_cfg :=
  {| practice_enabled := false; practice_year := None;
     practice_tests := []; practice_percent := 0 |}.

(** One test, VO2 max, declining by 5% per decade, without noise. *)
Definition vo2_cfg : config :=
  {| tests_order := ["VO2 max"];
     higher_is_better := ["VO2 max"];
     lower_is_better := [];
     cognitive_tests := [];
     absolute_decline_tests := None;
     allow_negative_tests := None;
     decline :=
       {| base_rate_per_decade := {["VO2 max" := 0.05]};
          post_rate_per_decade := ∅;
          accelerate_from_age := ∅ |};
     rate_uncertainty_cv := {["VO2 max" := 0]};
     rate_lognormal := ["VO2 max"];
     measurement_cv := {["VO2 max" := 0]};
     measurement_lognormal := [];
     correlations := {| corr_tests := []; corr_pairs := [] |};
     improvement := example_improvement;
     practice_effect := no_practice;
     n_sim := 1 |}.

Definition vo2_client : client :=
  {| sheet_name := "Client 1"; name := "Client 1"; age := Some 45;
     data := {["VO2 max" := Some 40]} |}.

(** One cognitive test, scored in standard deviations, declining by 0.1 per
    decade, without noise. *)
Definition cognitive_cfg : config :=
  {| tests_order := ["Processing Speed"];
     higher_is_better := ["Processing Speed"];
     lower_is_better := [];
     cognitive_tests := ["Processing Speed"];
     absolute_decline_tests := Some ["Processing Speed"];
     allow_negative_tests := None;
     decline :=
       {| base_rate_per_decade := {["Processing Speed" := 0.1]};
          post_rate_per_decade := ∅;
          accelerate_from_age := ∅ |};
     rate_uncertainty_cv := {["Processing Speed" := 0]};
     rate_lognormal := [];
     measurement_cv := {["Processing Speed" := 0]};
     measurement_lognormal := [];
     correlations := {| corr_tests := []; corr_pairs := [] |};
     improvement := example_improvement;
     practice_effect := no_practice;
     n_sim := 1 |}.

(** A client whose sheet has no result at all. *)
Definition no_data_client : client :=
  {| sheet_name := "Client 2"; name := "Client 2"; age := Some 60; data := ∅ |}.

(** VO2 max with both rates configured, acceleration from age 50, and an
    additive rate model with uncertainty. *)
Definition aging_cfg : config :=
  {| tests_order := ["VO2 max"];
     higher_is_better := ["VO2 max"];
     lower_is_better := [];
     cognitive_tests := [];
     absolute_decline_tests := None;
     allow_negative_tests := None;
     decline :=
       {| base_rate_per_decade := {["VO2 max" := 0.05]};
          post_rate_per_decade := {["VO2 max" := 0.1]};
          accelerate_from_age := {["VO2 max" := 50]} |};
     rate_uncertainty_cv := {["VO2 max" := 0.2]};
     rate_lognormal := [];
     measurement_cv := {["VO2 max" := 0]};
     measurement_lognormal := [];
     correlations := {| corr_tests := []; corr_pairs := [] |};
     improvement := example_improvement;
     practice_effect := no_practice;
     n_sim := 1 |}.

(** The same with a negative base rate: the value gets better until the
    acceleration age and declines after it. *)
Definition reversed_cfg : config :=
  {| tests_order := ["VO2 max"];
     higher_is_better := ["VO2 max"];
     lower_is_better := [];
     cognitive_tests := [];
     absolute_decline_tests := None;
     allow_negative_tests := None;
     decline :=
       {| base_rate_per_decade := {["VO2 max" := -0.1]};
          post_rate_per_decade := {["VO2 max" := 0.2]};
          accelerate_from_age := {["VO2 max" := 50]} |};
     rate_uncertainty_cv := {["VO2 max" := 0]};
     rate_lognormal := [];
     measurement_cv := {["VO2 max" := 0]};
     measurement_lognormal := [];
     correlations := {| corr_tests := []; corr_pairs := [] |};
     improvement := example_improvement;
     practice_effect := no_practice;
     n_sim := 1 |}.

(** Two correlated tests. *)
Definition two_tests : correlations_cfg :=
  {| corr_tests := ["VO2 max"; "Grip Strength"];
     corr_pairs := [("VO2 max", "Grip Strength", 0.6)] |}.

(** The VO2 max example with a practice effect of 10% at year 5. *)
Definition practised_cfg : config :=
  {| tests_order := ["VO2 max"];
     higher_is_better := ["VO2 max"];
     lower_is_better := [];
     cognitive_tests := [];
     absolute_decline_tests := None;
     allow_negative_tests := None;
     decline :=
       {| base_rate_per_decade := {["VO2 max" := 0.05]};
          post_rate_per_decade := ∅;
          accelerate_from_age := ∅ |};
     rate_uncertainty_cv := {["VO2 max" := 0]};
     rate_lognormal := ["VO2 max"];
     measurement_cv := {["VO2 max" := 0]};
     measurement_lognormal := [];
     correlations := {| corr_tests := []; corr_pairs := [] |};
     improvement := example_improvement;
     practice_effect :=
       {| practice_enabled := true; practice_year := Some 5;
          practice_tests := ["VO2 max"]; practice_percent := 0.1 |};
     n_sim := 1 |}.

(** * Text of the workbook

    A Python [str] is a [string]; a character is an [ascii], the code point
    of the character for the code points below 256. *)

(** [s.replace(old, new)] for a one-character [old]. *)
Fixpoint replace_char (old : ascii) (new : string) (s : string) : string :=
  match s with
  | EmptyString => EmptyString
  | String a s' =>
      if Ascii.eqb a old then new +:+ replace_char old new s'
      else String a (replace_char old new s')
  end.

Definition xml_escape (s : string) : string :=
  replace_char "'"%char "&apos;"
    (replace_char "034"%char "&quot;"
       (replace_char ">"%char "&gt;"
          (replace_char "<"%char "&lt;"
             (replace_char "&"%char "&amp;" s)))).

(** [''.join(f(c) for c in s)] for a character-valued [f]. *)
Fixpoint str_map (f : ascii → ascii) (s : string) : string :=
  match s with
  | EmptyString => EmptyString
  | String a s' => String (f a) (str_map f s')
  end.

(** [s[:n]] *)
Fixpoint str_take (n : nat) (s : string) : string :=
  match n, s with
  | S n', String a s' => String a (str_take n' s')
  | _, _ => EmptyString
  end.

(** [set('[]:*?/\\')] *)
Definition invalid_sheet_chars : list ascii :=
  ["["; "]"; ":"; "*"; "?"; "/"; "\"]%char.

Definition sanitize_sheet_name (name : string) : string :=
  let cleaned :=
    str_map (λ c, if bool_decide (c ∈ invalid_sheet_chars) then "_"%char else c)
            name in
  str_take 31 cleaned.

(** The [while n > 0] loop of [col_name]; [fuel] bounds the passes, and
    [n] passes are enough since each pass lowers [n]. *)
Fixpoint col_name_loop (fuel n : nat) (name : string) : string :=
  match fuel with
  | O => name
  | S fuel' =>
      if decide (0 < n)%nat then
        let q := ((n - 1) / 26)%nat in
        let r := ((n - 1) mod 26)%nat in
        col_name_loop fuel' q (String (ascii_of_nat (65 + r)) name)
      else name
  end.

Definition col_name (idx : nat) : string :=
  col_name_loop (idx + 1) (idx + 1) "".

(** [c.isalpha()] for a code point below 256: the letters of ASCII and of
    Latin-1. *)
Definition isalpha (c : ascii) : bool :=
  let n := nat_of_ascii c in
  (((65 <=? n) && (n <=? 90)) || ((97 <=? n) && (n <=? 122))
   || (n =? 170) || (n =? 181) || (n =? 186)
   || ((192 <=? n) && (n <=? 214)) || ((216 <=? n) && (n <=? 246))
   || ((248 <=? n) && (n <=? 255)))%nat.

(** [''.join(c for c in s if p(c))] *)
Fixpoint str_filter (p : ascii → bool) (s : string) : string :=
  match s with
  | EmptyString => EmptyString
  | String a s' => if p a then String a (str_filter p s') else str_filter p s'
  end.

Definition col_letter (cell_ref : string) : string := str_filter isalpha cell_ref.

(** [str(n)] for a natural number. *)
Definition str_of_nat (n : nat) : string :=
  DecimalString.NilEmpty.string_of_uint (Nat.to_uint n).

(** [f"{col_name(c_idx)}{r_idx}"], the reference of a cell in
    [write_sheet_xml]. *)
Definition cell_ref (c_idx r_idx : nat) : string :=
  col_name c_idx +:+ str_of_nat r_idx.

(** ** Notions used by the statements on text *)

Fixpoint chars (s : string) : list ascii :=
  match s with
  | EmptyString => []
  | String a s' => a :: chars s'
  end.

(** The entity that stands for one character in escaped text. *)
Definition escape_char (c : ascii) : string :=
  if Ascii.eqb c "&" then "&amp;"
  else if Ascii.eqb c "<" then "&lt;"
  else if Ascii.eqb c ">" then "&gt;"
  else if Ascii.eqb c "034" then "&quot;"
  else if Ascii.eqb c "'" then "&apos;"
  else String c "".

Fixpoint str_concat_map (f : ascii → string) (s : string) : string :=
  match s with
  | EmptyString => EmptyString
  | String a s' => f a +:+ str_concat_map f s'
  end.

Definition markup_chars : list ascii := ["<"; ">"; "034"; "'"]%char.

Definition is_upper (c : ascii) : Prop :=
  (65 <= nat_of_ascii c <= 90)%nat.

(** The number a column name stands for, [A] = 1, ..., [Z] = 26, [AA] = 27. *)
Fixpoint col_val (s : string) : nat :=
  match s with
  | EmptyString => 0
  | String c s' => (nat_of_ascii c - 64) * 26 ^ String.length s' + col_val s'
  end%nat.

(** * Reading a client sheet

    Of [read_input_clients] the part that turns the labelled rows of a
    sheet into the client's [data]; the rows are the items of
    [label_to_value], labels are text, and [to_float], which parses a cell,
    is left open. *)

(** [c.isspace()] for a code point below 256. *)
Definition isspace (c : ascii) : bool :=
  let n := nat_of_ascii c in
  (((9 <=? n) && (n <=? 13)) || ((28 <=? n) && (n <=? 32))
   || (n =? 133) || (n =? 160))%nat.

(** [c.lower()] for a code point below 256. *)
Definition lower_char (c : ascii) : ascii :=
  let n := nat_of_ascii c in
  if (((65 <=? n) && (n <=? 90))
      || ((192 <=? n) && (n <=? 222) && negb (n =? 215)))%nat
  then ascii_of_nat (n + 32)
  else c.

Definition str_lower (s : string) : string := str_map lower_char s.

Fixpoint str_lstrip (s : string) : string :=
  match s with
  | EmptyString => EmptyString
  | String a s' => if isspace a then str_lstrip s' else s
  end.

Fixpoint str_rstrip (s : string) : string :=
  match s with
  | EmptyString => EmptyString
  | String a s' =>
      match str_rstrip s' with
      | EmptyString => if isspace a then EmptyString else String a EmptyString
      | r => String a r
      end
  end.

(** [s.strip()] *)
Definition str_strip (s : string) : string := str_rstrip (str_lstrip s).

(** [s.startswith(p)] *)
Fixpoint startswith (s p : string) {struct p} : bool :=
  match p with
  | EmptyString => true
  | String b p' =>
      match s with
      | EmptyString => false
      | String a s' => Ascii.eqb a b && startswith s' p'
      end
  end.

(** The [if]/[elif] chain on the stripped, lowered label [l]. *)
Definition key_of_lowered (l : string) : option string :=
  if startswith l "vo2 max" then Some "VO2 max"
  else if startswith l "fev1" then Some "FEV1"
  else if startswith l "grip strength" then Some "Grip Strength"
  else if startswith l "sts power" then Some "STS Power"
  else if startswith l "vertical jump" then Some "Vertical Jump"
  else if startswith l "body fat" then Some "Body Fat %"
  else if startswith l "waist to height ratio" then Some "Waist to Height Ratio"
  else if startswith l "fasting glucose" then None
  else if startswith l "hba1c" then Some "HbA1c"
  else if startswith l "homa ir" || startswith l "homa-ir" then Some "HOMA-IR"
  else if startswith l "apob" then Some "ApoB"
  else if startswith l "hscrp" then Some "hsCRP"
  else if startswith l "gait speed" then Some "Gait Speed"
  else if startswith l "timed up and go" then Some "Timed Up and Go"
  else if startswith l "single leg stance" then Some "Single Leg Stance"
  else if startswith l "sit and reach" then Some "Sit and Reach"
  else if startswith l "processing speed" then Some "Processing Speed"
  else if startswith l "working memory" then Some "Working Memory"
  else None.

Definition label_key (label : string) : option string :=
  key_of_lowered (str_lower (str_strip label)).

(** One pass of the loop that fills [data]. *)
Definition store_row {V} (to_float : V → option R)
    (data : gmap string (option R)) (row : string * V) : gmap string (option R) :=
  match label_key row.1 with
  | Some key => <[key := to_float row.2]> data
  | None => data
  end.

(** The loop that fills [data]: a later row of the same test replaces an
    earlier one. *)
Definition read_data {V} (to_float : V → option R)
    (label_to_value : list (string * V)) : gmap string (option R) :=
  fold_left (store_row to_float) label_to_value ∅.

(** ** Notions used by the statements on labels *)

Definition test_names : list string :=
  ["VO2 max"; "FEV1"; "Grip Strength"; "STS Power"; "Vertical Jump";
   "Body Fat %"; "Waist to Height Ratio"; "HbA1c"; "HOMA-IR"; "ApoB"; "hsCRP";
   "Gait Speed"; "Timed Up and Go"; "Single Leg Stance"; "Sit and Reach";
   "Processing Speed"; "Working Memory"].

(** A text that is not empty and does not end in white space. *)
Fixpoint ends_nonspace (p : string) : bool :=
  match p with
  | EmptyString => false
  | String a EmptyString => negb (isspace a)
  | String a p' => ends_nonspace p'
  end.

(** ** Notions used by the statements on ranges *)

(** An ordered range of fractions between [0] and [hi]. *)
Definition fraction_range (hi : R) (p : R * R) : Prop :=
  0 <= p.1 ∧ p.1 <= p.2 ∧ p.2 <= hi.

(** Every range of the improvement configuration is one. *)
Definition fractions_within (hi : R) (i : improvement_cfg) : Prop :=
  fraction_range hi (vo2_under i) ∧
  fraction_range hi (vo2_over i) ∧
  (∀ t p, ranges i !! t = Some p → fraction_range hi p) ∧
  fraction_range hi (homa_min (homa_ir_reduction i), homa_max (homa_ir_reduction i)).

(** The next value of [random.random()] lies in the unit interval. *)
Definition unit_uniform (g : rng) : Prop :=
  0 <= uniform_src g (uniform_pos g) <= 1.

(** The entry of [t] in a dict of floats, if there is one, is not negative. *)
Definition nonneg_at (t : string) (m : gmap string R) : Prop :=
  ∀ v, m !! t = Some v → 0 <= v.

(** The configuration [cfg] with [n] as its number of draws. *)
Definition with_n_sim (cfg : config) (n : Z) : config :=
  {| tests_order := tests_order cfg;
     higher_is_better := higher_is_better cfg;
     lower_is_better := lower_is_better cfg;
     cognitive_tests := cognitive_tests cfg;
     absolute_decline_tests := absolute_decline_tests cfg;
     allow_negative_tests := allow_negative_tests cfg;
     decline := decline cfg;
     rate_uncertainty_cv := rate_uncertainty_cv cfg;
     rate_lognormal := rate_lognormal cfg;
     measurement_cv := measurement_cv cfg;
     measurement_lognormal := measurement_lognormal cfg;
     correlations := correlations cfg;
     improvement := improvement cfg;
     practice_effect := practice_effect cfg;
     n_sim := n |}.

(** ** Notions used by the statements on factors *)

(** The loops of [cholesky] at cell [(i, j)] have rebuilt the factor [L0] on
    the cells filled in so far. *)
Definition factor_inv (L0 : matrix) (n i j : nat) (L : matrix) : Prop :=
  square n L ∧
  (∀ a b, computed i j a b → entry L a b = entry L0 a b) ∧
  (∀ a b, ¬ computed i j a b → entry L a b = 0).

(** A lower-triangular [n] by [n] matrix with a positive diagonal. *)
Definition cholesky_factor_of (n : nat) (L0 m : matrix) : Prop :=
  square n L0 ∧ lower_triangular L0 ∧
  (∀ b, (b < n)%nat → 0 < entry L0 b b) ∧
  square n m ∧
  ∀ a b, (b ≤ a)%nat → (a < n)%nat → entry m a b = mul_transpose n L0 a b.

(** Both names of the pair [p] are among the tests. *)
Definition known_pair (tests : list string) (p : string * string * R) : Prop :=
  p.1.1 ∈ tests ∧ p.1.2 ∈ tests.

(** A correlation for a test that is not configured. *)
Definition stray_pair_cfg : correlations_cfg :=
  {| corr_tests := ["VO2 max"]; corr_pairs := [("VO2 max", "FEV1", 0.5)] |}.

(** The generator after [n] normal variates have been drawn. *)
Definition advance_normal (n : nat) (g : rng) : rng :=
  Rng (normal_src g) (normal_pos g + n) (uniform_src g) (uniform_pos g).

(** The [n] by [n] identity matrix. *)
Definition identity_matrix (n : nat) : matrix :=
  map (λ i, map (λ j, if decide (i = j) then 1 else 0) (seq 0 n)) (seq 0 n).

(** * Sanity checks of the decline run

    [cfg.get('sanity_check', {})], with the defaults that the source reads
    its keys with.  The check prints; the lines it prints are the result
    here, in order. *)

Record sanity_cfg : Type := {
  sanity_enabled : bool;   (* [sanity.get('enabled', False)] *)
  tolerance_abs : R;       (* [float(sanity.get('tolerance_abs', 0.0))] *)
  tolerance_rel : R        (* [float(sanity.get('tolerance_rel', 0.0))] *)
}.

(** A printed line: the horizon, the client's name, the test, the baseline
    and the mean. *)
Record warning : Type := Warning {
  warn_year : nat;
  warn_client : string;
  warn_test : string;
  warn_baseline : R;
  warn_mean : R
}.

(** The local function [is_bad]. *)
Definition is_bad (s : sanity_cfg) (delta baseline : R) (higher : bool) : bool :=
  let tol := Rmax (tolerance_abs s) (tolerance_rel s * Rabs baseline) in
  if higher then (if Rlt_dec tol delta then true else false)
  else (if Rlt_dec delta (- tol) then true else false).

(** One horizon of one test: [if d is not None: ... print(...)]. *)
Definition check_mean (s : sanity_cfg) (c : client) (year : nat) (test : string)
    (baseline : R) (higher : bool) (mean : gmap string R) (out : list warning)
  : list warning :=
  match mean !! test with
  | Some d =>
      if is_bad s (d - baseline) baseline higher
      then out ++ [Warning year (name c) test baseline d]
      else out
  | None => out
  end.

(** The body of [for test in tests]. *)
Definition sanity_step (s : sanity_cfg) (cfg : config) (c : client)
    (mean5 mean10 : gmap string R) (out : list warning) (test : string)
  : list warning :=
  match data c !! test with
  | Some (Some baseline) =>
      if decide (test ∈ set_of (higher_is_better cfg)) then
        check_mean s c 10 test baseline true mean10
          (check_mean s c 5 test baseline true mean5 out)
      else if decide (test ∈ set_of (lower_is_better cfg)) then
        check_mean s c 10 test baseline false mean10
          (check_mean s c 5 test baseline false mean5 out)
      else out
  | _ => out
  end.

Definition run_decline_sanity_checks (s : sanity_cfg) (c : client)
    (mean5 mean10 : gmap string R) (cfg : config) : list warning :=
  if sanity_enabled s then
    fold_left (sanity_step s cfg c mean5 mean10) (tests_order cfg) []
  else [].

(** The check as the source runs it when the configuration only enables
    it: both tolerances at their default. *)
Definition default_sanity : sanity_cfg :=
  {| sanity_enabled := true; tolerance_abs := 0; tolerance_rel := 0 |}.

(** The client [c] with the cell [v] recorded for the test [t]; [None] is a
    cell that [to_float] could not read. *)
Definition with_baseline_cell (c : client) (t : string) (v : option R) : client :=
  {| sheet_name := sheet_name c; name := name c; age := age c;
     data := <[t := v]> (data c) |}.

(** ** Notions used by the statements on the retry loop *)

(** The factorisation of [m] meets a diagonal pivot that is not positive:
    for some row [i], with the rows before [i] and the part of row [i]
    left of the diagonal factored as in [L], the pivot
    [m[i][i] - sum(L[i][k]^2 for k < i)] is at most zero. *)
Definition nonpositive_pivot (n : nat) (m : matrix) : Prop :=
  ∃ i L, (i < n)%nat ∧ chol_inv m n i i L ∧
         entry m i i - dotsum (λ k, entry L i k * entry L i k) i <= 0.

(** Two tests with the correlation [rho]. *)
Definition pair_cfg (rho : R) : correlations_cfg :=
  {| corr_tests := ["VO2 max"; "Grip Strength"];
     corr_pairs := [("VO2 max", "Grip Strength", rho)] |}.

(** The factor of the two-by-two matrix with [d] on the diagonal and [rho]
    off it. *)
Definition pair_factor (rho d : R) : matrix :=
  [[sqrt d; 0]; [rho / sqrt d; sqrt (d - rho * rho / d)]].

(** The rows that the factorisation of that matrix has filled in when it
    reaches its second pivot. *)
Definition pair_partial (rho d : R) : matrix :=
  [[sqrt d; 0]; [rho / sqrt d; 0]].

(** * The improvement scenario in the words of the specification

    The instantaneous jump of year 1, then age-segmented decline over the
    remaining years.  These are not taken from the code: the statements on
    the scenario compare the code with them. *)

(** The jump: the fraction [imp] moves the value towards better, by [imp]
    itself under the absolute model and by the fraction [imp] of the value
    under the relative one. *)
Definition jump (lower absolute : bool) (val imp : R) : R :=
  if absolute then (if lower then val - imp else val + imp)
  else if lower then
    (if Rle_dec 0 val then val * (1 - imp) else val * (1 + imp))
  else
    (if Rle_dec 0 val then val * (1 + imp) else val * (1 - imp)).

(** The years of a stretch from [age_start] that lie before the
    acceleration age. *)
Definition years_before (age_start years : R) (accel_age : option R) : R :=
  match accel_age with
  | None => years
  | Some a => if Rlt_dec age_start a then Rmin years (a - age_start) else 0
  end.

(** Age-segmented decline over [years] from [age_start]: at the base rate
    before the acceleration age and at the post rate, or the base rate when
    there is none, after it. *)
Definition aging (higher absolute : bool) (val age_start years rate_base : R)
    (rate_post accel_age : option R) : R :=
  if Rle_dec years 0 then val
  else
    let before := years_before age_start years accel_age in
    seg_value higher absolute
      (seg_value higher absolute val rate_base before)
      (default rate_base rate_post) (years - before).

(** VO2 max declining by 5% per decade up to age 50 and by 10% after it,
    without noise. *)
Definition accel_cfg : config :=
  {| tests_order := ["VO2 max"];
     higher_is_better := ["VO2 max"];
     lower_is_better := [];
     cognitive_tests := [];
     absolute_decline_tests := None;
     allow_negative_tests := None;
     decline :=
       {| base_rate_per_decade := {["VO2 max" := 0.05]};
          post_rate_per_decade := {["VO2 max" := 0.1]};
          accelerate_from_age := {["VO2 max" := 50]} |};
     rate_uncertainty_cv := {["VO2 max" := 0]};
     rate_lognormal := [];
     measurement_cv := {["VO2 max" := 0]};
     measurement_lognormal := [];
     correlations := {| corr_tests := []; corr_pairs := [] |};
     improvement := example_improvement;
     practice_effect := no_practice;
     n_sim := 1 |}.

(** The same with noise on the rates and on the measurements and with a
    range of improvement fractions. *)
Definition noisy_cfg : config :=
  {| tests_order := ["VO2 max"];
     higher_is_better := ["VO2 max"];
     lower_is_better := [];
     cognitive_tests := [];
     absolute_decline_tests := None;
     allow_negative_tests := None;
     decline :=
       {| base_rate_per_decade := {["VO2 max" := 0.05]};
          post_rate_per_decade := {["VO2 max" := 0.1]};
          accelerate_from_age := {["VO2 max" := 50]} |};
     rate_uncertainty_cv := {["VO2 max" := 0.2]};
     rate_lognormal := [];
     measurement_cv := {["VO2 max" := 0.1]};
     measurement_lognormal := [];
     correlations := {| corr_tests := []; corr_pairs := [] |};
     improvement :=
       {| vo2_age_cutoff := 50;
          vo2_under := (0.05, 0.15);
          vo2_over := (0.02, 0.08);
          homa_ir_reduction :=
            {| q10 := 0.1; q90 := 0.4; median := 0.2;
               homa_min := 0; homa_max := 1 |};
          ranges := ∅ |};
     practice_effect := no_practice;
     n_sim := 1000 |}.

(** * Verification *)

(** ** The outcome monad and the loops *)

Lemma bind_Ok {A B : Type} (a : A) (f : A → result B) : (Ok a ≫= f) = f a.
Proof. reflexivity. Qed.

Lemma bind_Err {A B : Type} (e : exn) (f : A → result B) : (Err e ≫= f) = Err e.
Proof. reflexivity. Qed.

Lemma bind_Ok_inv {A B : Type} (m : result A) (f : A → result B) (b : B) :
  (m ≫= f) = Ok b → ∃ a, m = Ok a ∧ f a = Ok b.
Proof. destruct m as [a|e]; [by exists a | discriminate]. Qed.

Lemma for_each_app {A S : Type} (l1 l2 : list A) (body : A → S → result S) s :
  for_each (l1 ++ l2) body s = (for_each l1 body s ≫= for_each l2 body).
Proof.
  revert s. induction l1 as [|x l1 IH]; intros s; [done|].
  simpl. destruct (body x s) as [s'|e]; [apply IH | done].
Qed.

(** The invariant rule of a loop: [I] is indexed by the elements already
    visited, and [E] holds of every exception the body may raise. *)
Lemma for_each_inv {A S : Type} (I : list A → S → Prop) (E : exn → Prop)
    (l : list A) (body : A → S → result S) (s0 : S) :
  I [] s0 →
  (∀ pre x post s, l = pre ++ x :: post → I pre s →
     match body x s with Ok s' => I (pre ++ [x]) s' | Err e => E e end) →
  match for_each l body s0 with Ok s' => I l s' | Err e => E e end.
Proof.
  intros H0 Hstep.
  cut (∀ post pre s, l = pre ++ post → I pre s →
         match for_each post body s with Ok s' => I l s' | Err e => E e end).
  { intros Hc. by apply (Hc l [] s0). }
  induction post as [|x post IH]; intros pre s Hl Hpre.
  - simpl. by rewrite Hl, app_nil_r.
  - simpl. specialize (Hstep pre x post s Hl Hpre).
    destruct (body x s) as [s'|e]; [|done].
    apply (IH (pre ++ [x])); [|done]. by rewrite <- app_assoc.
Qed.

(** The same rule for a loop over [range(n)]. *)
Lemma for_range_inv {S : Type} (I : nat → S → Prop) (E : exn → Prop)
    (n : nat) (body : nat → S → result S) (s0 : S) :
  I O s0 →
  (∀ k s, (k < n)%nat → I k s →
     match body k s with Ok s' => I (Datatypes.S k) s' | Err e => E e end) →
  match for_each (range n) body s0 with Ok s' => I n s' | Err e => E e end.
Proof.
  intros H0 Hstep.
  pose proof (for_each_inv (λ pre s, I (length pre) s) E (range n) body s0 H0) as H.
  unfold range in *. rewrite length_seq in H. apply H.
  intros pre x post s Hl Hpre.
  assert (x = length pre ∧ (x < n)%nat) as [-> Hlt].
  { assert (seq 0 n !! length pre = Some x) as Hx.
    { rewrite Hl. by rewrite list_lookup_middle. }
    apply lookup_seq in Hx. lia. }
  specialize (Hstep _ s Hlt Hpre).
  destruct (body (length pre) s); [|done].
  rewrite length_app. simpl. by rewrite Nat.add_1_r.
Qed.

(** ** Lognormal parameters *)

Lemma ln_one_plus_square_nonneg (cv : R) : 0 <= ln (1 + cv * cv).
Proof.
  assert (1 <= 1 + cv * cv) as [Hlt|Heq] by nra.
  - apply ln_increasing in Hlt; [|lra]. rewrite ln_1 in Hlt. lra.
  - rewrite <- Heq, ln_1. lra.
Qed.

Lemma lognormal_sigma_ok (cv : R) :
  lognormal_sigma_from_cv cv = Ok (sqrt (ln (1 + cv * cv))).
Proof.
  unfold lognormal_sigma_from_cv, math_log, math_sqrt.
  destruct (Rlt_dec 0 (1 + cv * cv)) as [_|N]; [|exfalso; nra].
  simpl. destruct (Rle_dec 0 (ln (1 + cv * cv))) as [_|N]; [done|].
  exfalso. apply N, ln_one_plus_square_nonneg.
Qed.

Lemma lognormal_sigma_zero : lognormal_sigma_from_cv 0 = Ok 0.
Proof.
  rewrite lognormal_sigma_ok. f_equal.
  replace (1 + 0 * 0) with 1 by lra. rewrite ln_1. apply sqrt_0.
Qed.

(** ** Measurement noise with a zero coefficient of variation *)


Lemma clamped_nonneg test mln allow x : 0 <= x → clamped test mln allow x = x.
Proof.
  intros Hx. unfold clamped.
  repeat (case_decide || destruct (Rle_dec _ _) || destruct (Rlt_dec _ _));
    lra.
Qed.

Lemma clamped_allowed test mln allow x :
  test ∉ mln → test ∈ allow → clamped test mln allow x = x.
Proof.
  intros H1 H2. unfold clamped.
  rewrite decide_False by done. rewrite decide_False; [done|]. by intros ?.
Qed.

Lemma clamped_negative test mln allow x :
  x < 0 → test ∈ mln ∨ test ∉ allow → clamped test mln allow x = 0.
Proof.
  intros Hx H. unfold clamped.
  repeat (case_decide || destruct (Rle_dec _ _) || destruct (Rlt_dec _ _));
    try lra; tauto.
Qed.

Lemma clamped_idemp test mln allow x :
  clamped test mln allow (clamped test mln allow x) = clamped test mln allow x.
Proof.
  unfold clamped.
  repeat (case_decide || destruct (Rle_dec _ _) || destruct (Rlt_dec _ _));
    lra.
Qed.

Lemma infer_true_cv0 test obs mcv mln allow g :
  mcv !! test = Some 0 →
  ∃ g', infer_true_from_observed test (Some obs) mcv mln allow g
        = Ok (clamped test mln allow obs, g').
Proof.
  intros Hcv. unfold infer_true_from_observed, clamped, dict_get.
  rewrite Hcv. simpl. case_decide.
  - destruct (Rle_dec obs 0); [by eexists|].
    rewrite lognormal_sigma_zero. simpl.
    unfold py_div, math_exp.
    destruct (Req_dec_T _ 0) as [E|_].
    { exfalso. pose proof (exp_pos (0 * (0 + normal_src g (normal_pos g) * 1))). lra. }
    simpl. eexists. do 2 f_equal.
    replace (0 * (0 + normal_src g (normal_pos g) * 1)) with 0 by lra.
    rewrite exp_0. lra.
  - simpl. eexists. do 2 f_equal.
    replace (obs - (0 + normal_src g (normal_pos g) * (Rabs obs * 0)))
      with obs by lra.
    done.
Qed.

Lemma apply_noise_cv0 test val mcv mln allow g :
  mcv !! test = Some 0 →
  ∃ g', apply_measurement_noise test val mcv mln allow g
        = Ok (clamped test mln allow val, g').
Proof.
  intros Hcv. unfold apply_measurement_noise, clamped, dict_get.
  rewrite Hcv. simpl. case_decide.
  - destruct (Rle_dec val 0); [by eexists|].
    rewrite lognormal_sigma_zero. simpl. unfold math_exp.
    eexists. do 2 f_equal.
    replace (0 * (0 + normal_src g (normal_pos g) * 1)) with 0 by lra.
    rewrite exp_0. lra.
  - simpl. eexists. do 2 f_equal.
    replace (val + (0 + normal_src g (normal_pos g) * (Rabs val * 0)))
      with val by lra.
    done.
Qed.

(** ** Rate sampling *)

Lemma sample_rate_lognormal_ok test mu cv z g :
  0 < mu →
  sample_rate test mu cv true z g
  = Ok (exp (ln mu + sqrt (ln (1 + cv * cv)) * (shock_or_draw z g).1),
        (shock_or_draw z g).2).
Proof.
  intros Hmu. unfold sample_rate. rewrite lognormal_sigma_ok. simpl.
  unfold math_log. destruct (Rlt_dec 0 mu); [|done]. simpl.
  by destruct (shock_or_draw z g).
Qed.

Lemma sample_rate_lognormal_err test mu cv z g :
  mu <= 0 → sample_rate test mu cv true z g = Err ValueError.
Proof.
  intros Hmu. unfold sample_rate. rewrite lognormal_sigma_ok. simpl.
  unfold math_log. destruct (Rlt_dec 0 mu); [lra|done].
Qed.

Lemma sample_rate_normal_ok test mu cv z g :
  sample_rate test mu cv false z g
  = Ok (Rmax 0 (mu + Rabs mu * cv * (shock_or_draw z g).1),
        (shock_or_draw z g).2).
Proof.
  unfold sample_rate. destruct (shock_or_draw z g) as [z' g']. simpl.
  do 2 f_equal. unfold Rmax.
  destruct (Rlt_dec _ 0), (Rle_dec 0 _); lra.
Qed.

(** With no rate uncertainty the sampled rate is the configured one
    (clamped at zero in the additive model). *)
Lemma sample_rate_cv0 test mu ln z g :
  (ln = true → 0 < mu) →
  ∃ g', sample_rate test mu 0 ln z g = Ok (Rmax 0 mu, g').
Proof.
  intros Hmu. destruct ln.
  - rewrite sample_rate_lognormal_ok by auto. eexists. do 2 f_equal.
    replace (1 + 0 * 0) with 1 by lra. rewrite ln_1, sqrt_0.
    rewrite Rmult_0_l, Rplus_0_r, exp_ln by auto.
    rewrite Rmax_right; [done|]. specialize (Hmu eq_refl). lra.
  - rewrite sample_rate_normal_ok. eexists. do 3 f_equal. lra.
Qed.

(** ** Matrices *)







Lemma dotsum_ext (f h : nat → R) (k : nat) :
  (∀ i, (i < k)%nat → f i = h i) → dotsum f k = dotsum h k.
Proof.
  induction k as [|k IH]; intros Hfh; [done|].
  simpl. rewrite IH, Hfh; auto with lia.
Qed.

Lemma dotsum_zero_tail (f : nat → R) (k n : nat) :
  (k ≤ n)%nat → (∀ i, (k ≤ i)%nat → f i = 0) → dotsum f n = dotsum f k.
Proof.
  intros Hkn Hf. induction Hkn as [|n Hkn IH]; [done|].
  simpl. rewrite IH, Hf by lia. lra.
Qed.

Lemma square_lookup n m i :
  square n m → (i < n)%nat → ∃ row, m !! i = Some row ∧ length row = n.
Proof.
  intros [Hlen Hrows] Hi.
  destruct (m !! i) as [row|] eqn:E.
  - exists row. eauto.
  - apply lookup_ge_None in E. lia.
Qed.

Lemma mget_square n m i j :
  square n m → (i < n)%nat → (j < n)%nat → mget m i j = Ok (entry m i j).
Proof.
  intros Hsq Hi Hj. destruct (square_lookup n m i Hsq Hi) as (row & E & Hlen).
  unfold mget, entry. rewrite E.
  destruct (row !! j) as [x|] eqn:Ej; [done|].
  apply lookup_ge_None in Ej. lia.
Qed.

Lemma mget_Ok_entry m i j x : mget m i j = Ok x → entry m i j = x.
Proof.
  unfold mget, entry. destruct (m !! i) as [row|]; [|done].
  destruct (row !! j); [|done]. by intros [= ->].
Qed.

Lemma entry_update (m : matrix) (row : list R) i j x a b :
  m !! i = Some row → (j < length row)%nat →
  entry (<[i := <[j := x]> row]> m) a b
  = if decide (a = i ∧ b = j) then x else entry m a b.
Proof.
  intros E Hj. unfold entry.
  assert (i < length m)%nat by (by eapply lookup_lt_Some).
  destruct (decide (a = i)) as [->|Ha].
  - rewrite list_lookup_insert_eq by done.
    destruct (decide (b = j)) as [->|Hb].
    + rewrite list_lookup_insert_eq by done. by rewrite decide_True.
    + rewrite list_lookup_insert_ne by done. rewrite E.
      rewrite decide_False; [done|]. by intros [_ ?].
  - rewrite list_lookup_insert_ne by done.
    rewrite decide_False; [done|]. by intros [? _].
Qed.

Lemma mset_square n m i j x :
  square n m → (i < n)%nat → (j < n)%nat →
  ∃ m', mset m i j x = Ok m' ∧ square n m' ∧
        ∀ a b, entry m' a b = if decide (a = i ∧ b = j) then x else entry m a b.
Proof.
  intros Hsq Hi Hj. destruct (square_lookup n m i Hsq Hi) as (row & E & Hlen).
  unfold mset. rewrite E. rewrite decide_True by lia.
  eexists. split; [done|]. split.
  - destruct Hsq as [Hl Hrows]. split; [by rewrite length_insert|].
    intros i' row' Hi'. destruct (decide (i' = i)) as [->|Hne].
    + rewrite list_lookup_insert_eq in Hi' by lia.
      injection Hi' as <-. by rewrite length_insert.
    + rewrite list_lookup_insert_ne in Hi' by done. eauto.
  - intros a b. apply entry_update; [done|lia].
Qed.

Lemma zeros_square n : square n (zeros n).
Proof.
  unfold zeros. split; [by rewrite length_replicate|].
  intros i row Hi. apply lookup_replicate in Hi as [-> _].
  by rewrite length_replicate.
Qed.

Lemma entry_zeros n a b : entry (zeros n) a b = 0.
Proof.
  unfold entry, zeros. destruct (replicate n (replicate n 0) !! a) as [row|] eqn:E; [|done].
  apply lookup_replicate in E as [-> _].
  destruct (replicate n 0 !! b) as [x|] eqn:E'; [|done].
  by apply lookup_replicate in E' as [-> _].
Qed.

Lemma entry_outside n m a b :
  square n m → (n ≤ a ∨ n ≤ b)%nat → entry m a b = 0.
Proof.
  intros [Hlen Hrows] Hab. unfold entry.
  destruct (m !! a) as [row|] eqn:E; [|done].
  destruct Hab as [Ha|Hb].
  - apply lookup_lt_Some in E. lia.
  - rewrite lookup_ge_None_2; [done|]. rewrite (Hrows _ _ E). lia.
Qed.

(** ** Cholesky factorisation *)

Lemma dot_loop_ok n L i j :
  square n L → (i < n)%nat → (j < n)%nat →
  for_each (range j) (dot_step L i j) 0
  = Ok (dotsum (λ k, entry L i k * entry L j k) j).
Proof.
  intros Hsq Hi Hj.
  pose proof (for_range_inv
    (λ k s, s = dotsum (λ k, entry L i k * entry L j k) k) (λ _, False)
    j (dot_step L i j) 0 eq_refl) as H.
  destruct (for_each (range j) (dot_step L i j) 0) as [s|e].
  - f_equal. apply H. intros k s' Hk ->. unfold dot_step.
    rewrite !(mget_square n) by (assumption || lia). done.
  - exfalso. apply H. intros k s' Hk ->. unfold dot_step.
    rewrite !(mget_square n) by (assumption || lia). done.
Qed.



Lemma cholesky_cell_inv m n i j L :
  square n m → (j ≤ i)%nat → (i < n)%nat → chol_inv m n i j L →
  match cholesky_cell m i j L with
  | Ok L' => chol_inv m n i (S j) L'
  | Err e => e = ValueError
  end.
Proof.
  intros Hm Hji Hin (HsqL & Hzero & Heq & Hpos).
  unfold cholesky_cell. rewrite (dot_loop_ok n) by (assumption || lia).
  rewrite bind_Ok.
  set (s := dotsum (λ k, entry L i k * entry L j k) j).
  destruct (decide (i = j)) as [->|Hne].
  - rewrite (mget_square n m) by (assumption || lia). rewrite bind_Ok.
    cbv zeta. destruct (Rle_dec (entry m j j - s) 0) as [|Hval]; [done|].
    unfold math_sqrt. destruct (Rle_dec 0 (entry m j j - s)); [|lra].
    rewrite bind_Ok.
    destruct (mset_square n L j j (sqrt (entry m j j - s)) HsqL Hin Hin)
      as (L' & -> & HsqL' & Hent).
    split; [done|]. split; [|split].
    + intros a b Hnc. rewrite Hent, decide_False.
      * apply Hzero. unfold computed in *. lia.
      * unfold computed in *. lia.
    + intros a b Hc. destruct (decide (a = j ∧ b = j)) as [[-> ->]|Hab].
      * simpl. rewrite Hent, decide_True by done.
        rewrite (dotsum_ext _ (λ k, entry L j k * entry L j k)).
        { fold s. rewrite sqrt_sqrt by lra. lra. }
        intros k Hk. rewrite !Hent, decide_False by lia. done.
      * rewrite <- (Heq a b) by (unfold computed in *; lia).
        apply dotsum_ext. intros k Hk. rewrite !Hent.
        rewrite !decide_False by (unfold computed in *; lia). done.
    + intros b Hc. rewrite Hent. case_decide.
      * apply sqrt_lt_R0. lra.
      * apply Hpos. unfold computed in *. lia.
  - rewrite (mget_square n m) by (assumption || lia). rewrite bind_Ok.
    rewrite (mget_square n L) by (assumption || lia). rewrite bind_Ok.
    assert (0 < entry L j j) as Hjj by (apply Hpos; unfold computed; lia).
    unfold py_div. destruct (Req_dec_T (entry L j j) 0); [lra|].
    rewrite bind_Ok.
    destruct (mset_square n L i j ((entry m i j - s) / entry L j j) HsqL)
      as (L' & -> & HsqL' & Hent); [lia..|].
    split; [done|]. split; [|split].
    + intros a b Hnc. rewrite Hent, decide_False.
      * apply Hzero. unfold computed in *. lia.
      * unfold computed in *. lia.
    + intros a b Hc. destruct (decide (a = i ∧ b = j)) as [[-> ->]|Hab].
      * simpl. rewrite !Hent, decide_True by done.
        rewrite decide_False by lia.
        rewrite (dotsum_ext _ (λ k, entry L i k * entry L j k)).
        { fold s. field. lra. }
        intros k Hk. rewrite !Hent, !decide_False by lia. done.
      * rewrite <- (Heq a b) by (unfold computed in *; lia).
        apply dotsum_ext. intros k Hk. rewrite !Hent.
        rewrite !decide_False by (unfold computed in *; lia). done.
    + intros b Hc. rewrite Hent, decide_False by lia.
      apply Hpos. unfold computed in *. lia.
Qed.

Lemma cholesky_row_inv m n i L :
  square n m → (i < n)%nat → chol_inv m n i 0 L →
  match cholesky_row m i L with
  | Ok L' => chol_inv m n (S i) 0 L'
  | Err e => e = ValueError
  end.
Proof.
  intros Hm Hin Hinv. unfold cholesky_row.
  pose proof (for_range_inv (λ j L, chol_inv m n i j L) (λ e, e = ValueError)
                (i + 1) (cholesky_cell m i) L Hinv) as H.
  destruct (for_each (range (i + 1)) (cholesky_cell m i) L) as [L'|e].
  - assert (chol_inv m n i (i + 1) L') as (Hsq & Hzero & Heq & Hpos).
    { apply H. intros j L0 Hj HL0. apply (cholesky_cell_inv m n); auto with lia. }
    split; [done|]. split; [|split].
    + intros a b Hnc. apply Hzero. unfold computed in *. lia.
    + intros a b Hc. apply Heq. unfold computed in *. lia.
    + intros b Hc. apply Hpos. unfold computed in *. lia.
  - apply H. intros j L0 Hj HL0. apply (cholesky_cell_inv m n); auto with lia.
Qed.

Lemma cholesky_inv m n :
  square n m →
  match cholesky m with
  | Ok L => chol_inv m n n 0 L
  | Err e => e = ValueError
  end.
Proof.
  intros Hm. unfold cholesky. pose proof Hm as [Hlen _]. rewrite Hlen.
  apply (for_range_inv (λ i L, chol_inv m n i 0 L) (λ e, e = ValueError)).
  - split; [apply zeros_square|]. split; [|split].
    + intros. apply entry_zeros.
    + unfold computed. lia.
    + unfold computed. lia.
  - intros i L Hi HL. by apply cholesky_row_inv.
Qed.

(** What a successful factorisation returns. *)
Lemma cholesky_factor m n L :
  square n m → symmetric m → cholesky m = Ok L →
  square n L ∧ lower_triangular L ∧
  (∀ b, (b < n)%nat → 0 < entry L b b) ∧
  ∀ a b, (a < n)%nat → (b < n)%nat → mul_transpose n L a b = entry m a b.
Proof.
  intros Hm Hsym HL. pose proof (cholesky_inv m n Hm) as H. rewrite HL in H.
  destruct H as (Hsq & Hzero & Heq & Hpos).
  assert (∀ a b, (b ≤ a)%nat → (a < n)%nat →
            mul_transpose n L a b = entry m a b) as Hlow.
  { intros a b Hba Ha. unfold mul_transpose.
    rewrite (dotsum_zero_tail _ (S b)); [|lia|].
    - apply Heq. unfold computed. lia.
    - intros k Hk. rewrite (Hzero b k); [lra|]. unfold computed. lia. }
  split; [done|]. split; [|split].
  - intros a b Hab. apply Hzero. unfold computed. lia.
  - intros b Hb. apply Hpos. unfold computed. lia.
  - intros a b Ha Hb. destruct (decide (b ≤ a)%nat) as [Hba|Hab].
    + by apply Hlow.
    + rewrite Hsym, <- Hlow by lia. unfold mul_transpose.
      apply dotsum_ext. intros. lra.
Qed.

(** ** The correlation matrix *)

Lemma mset_Ok_inv n (m m' : matrix) i j x :
  square n m → mset m i j x = Ok m' → (i < n)%nat ∧ (j < n)%nat.
Proof.
  intros [Hlen Hrows]. unfold mset.
  destruct (m !! i) as [row|] eqn:E; [|done].
  case_decide; [|done]. intros _.
  pose proof (Hrows _ _ E). apply lookup_lt_Some in E. lia.
Qed.

Lemma unit_diagonal_ok n :
  ∃ corr, unit_diagonal n (zeros n) = Ok corr ∧ square n corr ∧
          ∀ a b, entry corr a b
                 = if decide (a = b ∧ (a < n)%nat) then 1 else 0.
Proof.
  unfold unit_diagonal.
  pose proof (for_range_inv
    (λ k c, square n c ∧
            ∀ a b, entry c a b = if decide (a = b ∧ (a < k)%nat) then 1 else 0)
    (λ _, False) n (λ i c, mset c i i 1) (zeros n)) as H.
  destruct (for_each (range n) (λ i c, mset c i i 1) (zeros n)) as [corr|e].
  - exists corr. split; [done|]. apply H.
    + split; [apply zeros_square|]. intros a b. rewrite entry_zeros.
      rewrite decide_False; [done|lia].
    + intros k c Hk [Hsq Hent].
      destruct (mset_square n c k k 1 Hsq Hk Hk) as (c' & -> & Hsq' & Hent').
      split; [done|]. intros a b. rewrite Hent', Hent.
      repeat case_decide; try done; lia.
  - exfalso. apply H.
    + split; [apply zeros_square|]. intros a b. rewrite entry_zeros.
      rewrite decide_False; [done|lia].
    + intros k c Hk [Hsq Hent].
      destruct (mset_square n c k k 1 Hsq Hk Hk) as (c' & -> & Hsq' & Hent').
      split; [done|]. intros a b. rewrite Hent', Hent.
      repeat case_decide; try done; lia.
Qed.

Lemma index_map_lookup_Some tests x i :
  index_map tests !! x = Some i → tests !! i = Some x.
Proof.
  unfold index_map.
  assert (∀ p, p ∈ zip (seq 0 (length tests)) tests → tests !! p.1 = Some p.2)
    as Hzip.
  { intros [k y] Hp. apply list_elem_of_lookup in Hp as [pos Hp].
    apply lookup_zip_with_Some in Hp as (k' & y' & [= <- <-] & Hk & Hy).
    apply lookup_seq in Hk as [-> _]. done. }
  revert Hzip. generalize (zip (seq 0 (length tests)) tests).
  assert (∀ y k, (∅ : gmap string nat) !! y = Some k → tests !! k = Some y)
    as Hm by (intros ??; by rewrite lookup_empty).
  revert Hm. generalize (∅ : gmap string nat).
  intros m Hm l. revert m Hm. induction l as [|p l IH]; intros m Hm Hl; simpl.
  - apply Hm.
  - apply IH.
    + intros y k. rewrite lookup_insert. case_decide as Hd.
      * intros [= <-]. subst y. apply Hl. left.
      * apply Hm.
    + intros q Hq. apply Hl. by right.
Qed.

Lemma index_map_lookup_NoDup tests x i :
  NoDup tests → tests !! i = Some x → index_map tests !! x = Some i.
Proof.
  intros Hnd Hi. unfold index_map.
  assert (∃ pre post, zip (seq 0 (length tests)) tests = pre ++ (i, x) :: post
                      ∧ ∀ q, q ∈ post → q.2 ≠ x) as (pre & post & -> & Hpost).
  { assert (zip (seq 0 (length tests)) tests !! i = Some (i, x)) as Hz.
    { apply lookup_zip_with_Some. exists i, x. split; [done|]. split; [|done].
      apply lookup_seq. split; [done|]. by eapply lookup_lt_Some. }
    apply list_elem_of_split_length in Hz as (pre & post & Hz & Hlen).
    exists pre, post. split; [done|]. intros [k y] Hq Hy. simpl in Hy. subst y.
    apply list_elem_of_lookup in Hq as [pos Hq].
    assert (zip (seq 0 (length tests)) tests !! (S (i + pos)) = Some (k, x)) as Hk.
    { rewrite Hz. rewrite lookup_app_r by lia.
      replace (S (i + pos) - length pre)%nat with (S pos) by lia. done. }
    apply lookup_zip_with_Some in Hk as (k' & y' & [= <- <-] & Hk & Hy).
    pose proof (NoDup_lookup _ _ _ _ Hnd Hi Hy). lia. }
  rewrite foldl_app. simpl.
  generalize (foldl (λ (m : gmap string nat) (p : nat * string), <[p.2:=p.1]> m)
                ∅ pre).
  intros m. assert (<[x:=i]> m !! x = Some i) as Hm by apply lookup_insert_eq.
  revert Hm. generalize (<[x:=i]> m). clear m.
  induction post as [|q post IH]; intros m Hm; simpl; [done|].
  apply IH.
  - intros q' Hq'. apply Hpost. by right.
  - rewrite lookup_insert_ne; [done|]. apply Hpost. left.
Qed.



Lemma set_pair_Ok n idx x y v corr corr' :
  square n corr → set_pair idx (x, y, v) corr = Ok corr' →
  ∃ i j, idx !! x = Some i ∧ idx !! y = Some j ∧ (i < n)%nat ∧ (j < n)%nat ∧
         square n corr' ∧
         ∀ a b, entry corr' a b
                = if decide ((a = i ∧ b = j) ∨ (a = j ∧ b = i)) then v
                  else entry corr a b.
Proof.
  intros Hsq. unfold set_pair, dict_get.
  destruct (idx !! x) as [i|]; [|done]. destruct (idx !! y) as [j|]; [|done].
  rewrite !bind_Ok. destruct (mset corr i j v) as [c1|] eqn:E1; [|done].
  rewrite bind_Ok. intros E2.
  destruct (mset_Ok_inv n _ _ _ _ _ Hsq E1) as [Hi Hj].
  destruct (mset_square n corr i j v Hsq Hi Hj) as (c1' & E1' & Hsq1 & Hent1).
  rewrite E1 in E1'. injection E1' as <-.
  destruct (mset_square n c1 j i v Hsq1 Hj Hi) as (c2 & E2' & Hsq2 & Hent2).
  rewrite E2 in E2'. injection E2' as <-.
  exists i, j. split_and!; try done.
  intros a b. rewrite Hent2, Hent1. repeat case_decide; try done; lia.
Qed.

Lemma correlation_matrix_Ok c corr :
  correlation_matrix c = Ok corr →
  let n := length (corr_tests c) in
  square n corr ∧ symmetric corr ∧
  ∀ a b, (a < n)%nat → (b < n)%nat →
         entry corr a b = requested_correlation c a b.
Proof.
  unfold correlation_matrix. cbv zeta. intros H.
  set (n := length (corr_tests c)) in *.
  destruct (unit_diagonal_ok n) as (c0 & E0 & Hsq0 & Hent0).
  rewrite E0, bind_Ok in H.
  set (idx := index_map (corr_tests c)) in *.
  pose proof (for_each_inv
    (λ pre m, square n m ∧ symmetric m ∧
              ∀ a b, (a < n)%nat → (b < n)%nat →
                entry m a b
                = foldl (λ acc p, if decide (pair_names idx p a b)
                                  then p.2 else acc)
                        (if decide (a = b) then 1 else 0) pre)
    (λ _, True) (corr_pairs c) (set_pair idx) c0) as Hinv.
  rewrite H in Hinv. apply Hinv; clear Hinv H.
  - split; [done|]. split.
    + intros a b. rewrite !Hent0. repeat case_decide; try done; lia.
    + intros a b Ha Hb. simpl. rewrite Hent0. repeat case_decide; try done; lia.
  - intros pre [[x y] v] post m _ (Hsq & Hsym & Hent).
    destruct (set_pair idx (x, y, v) m) as [m'|] eqn:E; [|done].
    destruct (set_pair_Ok n idx x y v m m' Hsq E)
      as (i & j & Hx & Hy & Hi & Hj & Hsq' & Hent').
    split; [done|]. split.
    + intros a b. rewrite !Hent'. rewrite (Hsym a b).
      repeat case_decide; try done; exfalso; lia.
    + intros a b Ha Hb. rewrite foldl_app. simpl. rewrite Hent'.
      rewrite <- Hent by done.
      unfold pair_names. simpl. rewrite Hx, Hy.
      apply decide_ext. split.
      * intros [[-> ->]|[-> ->]]; auto.
      * intros [[[= ->] [= ->]]|[[= ->] [= ->]]]; auto.
Qed.

(** ** Diagonal inflation *)

Lemma comprehension_map {A B : Type} (f : A → result B) (h : A → B) l :
  (∀ x, x ∈ l → f x = Ok (h x)) → comprehension f l = Ok (map h l).
Proof.
  induction l as [|x l IH]; intros Hf; [done|].
  simpl. rewrite Hf by left. rewrite bind_Ok, IH; [done|].
  intros y Hy. apply Hf. by right.
Qed.

Lemma inflate_Ok n corr eps :
  square n corr →
  ∃ ce, inflate corr n eps = Ok ce ∧ square n ce ∧
        ∀ a b, (a < n)%nat → (b < n)%nat →
               entry ce a b = entry corr a b + (if decide (a = b) then eps else 0).
Proof.
  intros Hsq.
  set (h := λ i, map (λ j, entry corr i j + (if decide (i = j) then eps else 0))
                     (range n)).
  exists (map h (range n)). split; [|split].
  - unfold inflate. apply comprehension_map. intros i Hi.
    apply comprehension_map. intros j Hj.
    unfold range in *. apply elem_of_seq in Hi, Hj.
    rewrite (mget_square n) by (assumption || lia). done.
  - split.
    + unfold range. by rewrite length_map, length_seq.
    + intros i row Hi. rewrite list_lookup_fmap in Hi.
      destruct (range n !! i); [|done]. injection Hi as <-.
      unfold h, range. by rewrite length_map, length_seq.
  - intros a b Ha Hb. unfold entry at 1.
    rewrite list_lookup_fmap. unfold range.
    rewrite (lookup_seq_lt 0 n a) by done. simpl.
    unfold h. rewrite list_lookup_fmap. unfold range.
    rewrite (lookup_seq_lt 0 n b) by done. done.
Qed.

Lemma inflate_symmetric n corr ce eps :
  square n corr → symmetric corr → inflate corr n eps = Ok ce → symmetric ce.
Proof.
  intros Hsq Hsym Hce.
  destruct (inflate_Ok n corr eps Hsq) as (ce' & E & Hsq' & Hent).
  rewrite Hce in E. injection E as <-.
  intros a b.
  destruct (decide (a < n ∧ b < n)%nat) as [[Ha Hb]|Hout].
  - rewrite !Hent, (Hsym a b) by done. repeat case_decide; try done; lia.
  - rewrite !(entry_outside n ce) by (done || lia). done.
Qed.

(** ** The retry loop *)

(** The matrix that the pass for [eps] factorises. *)
Lemma try_cholesky_matrix n corr eps :
  square n corr → symmetric corr → 0 <= eps →
  ∃ ce, try_cholesky corr n eps = cholesky ce ∧ square n ce ∧ symmetric ce ∧
        ∀ a b, (a < n)%nat → (b < n)%nat →
               entry ce a b = entry corr a b + (if decide (a = b) then eps else 0).
Proof.
  intros Hsq Hsym Heps. unfold try_cholesky.
  destruct (Rlt_dec 0 eps) as [Hpos|Hzero].
  - destruct (inflate_Ok n corr eps Hsq) as (ce & E & Hsq' & Hent).
    exists ce. rewrite E, bind_Ok. split_and!; try done.
    by apply (inflate_symmetric n corr ce eps).
  - exists corr. rewrite bind_Ok. split_and!; try done.
    intros a b _ _. assert (eps = 0) as -> by lra. case_decide; lra.
Qed.

Lemma epsilons_nonneg eps : eps ∈ epsilons → 0 <= eps.
Proof.
  unfold epsilons. rewrite !elem_of_cons, elem_of_nil.
  intros H. repeat (destruct H as [->|H]; [lra|]). done.
Qed.

Lemma try_cholesky_error n corr eps e :
  square n corr → symmetric corr → 0 <= eps →
  try_cholesky corr n eps = Err e → e = ValueError.
Proof.
  intros Hsq Hsym Heps He.
  destruct (try_cholesky_matrix n corr eps Hsq Hsym Heps) as (ce & E & Hsq' & _).
  rewrite E in He. pose proof (cholesky_inv ce n Hsq') as H.
  by rewrite He in H.
Qed.

Lemma first_factor_Some corr n l L :
  first_factor corr n l = Some L ↔
  ∃ k eps, l !! k = Some eps ∧ try_cholesky corr n eps = Ok L ∧
           ∀ k' eps', (k' < k)%nat → l !! k' = Some eps' →
                      ∃ e, try_cholesky corr n eps' = Err e.
Proof.
  induction l as [|x l IH]; simpl.
  - split; [done|]. by intros (k & eps & Hk & _).
  - destruct (try_cholesky corr n x) as [L0|e0] eqn:E.
    + split.
      * intros [= ->]. exists O, x. split_and!; try done. intros; lia.
      * intros (k & eps & Hk & HL & Hbefore). destruct k as [|k].
        { injection Hk as <-. congruence. }
        destruct (Hbefore O x) as [e He]; [lia|done|]. congruence.
    + rewrite IH. split.
      * intros (k & eps & Hk & HL & Hbefore). exists (S k), eps.
        split_and!; try done. intros [|k'] eps' Hlt Hk'.
        { injection Hk' as <-. eauto. }
        apply (Hbefore k'); [lia|done].
      * intros (k & eps & Hk & HL & Hbefore). destruct k as [|k].
        { injection Hk as <-. congruence. }
        exists k, eps. split_and!; try done. intros k' eps' Hlt Hk'.
        apply (Hbefore (S k')); [lia|done].
Qed.

Lemma first_factor_None corr n l :
  first_factor corr n l = None ↔
  ∀ eps, eps ∈ l → ∃ e, try_cholesky corr n eps = Err e.
Proof.
  induction l as [|x l IH]; simpl.
  - split; [|done]. intros _ eps Hin. by apply elem_of_nil in Hin.
  - destruct (try_cholesky corr n x) as [L0|e0] eqn:E.
    + split; [done|]. intros H. destruct (H x) as [e He]; [left|]. congruence.
    + rewrite IH. split.
      * intros H eps [->|Hin]%elem_of_cons; eauto.
      * intros H eps Hin. apply H. by right.
Qed.

(** A pass of the innermost loops raises exactly when a diagonal pivot is
    not positive. *)
Lemma cholesky_cell_fails m n i j L :
  square n m → (j ≤ i)%nat → (i < n)%nat → chol_inv m n i j L →
  (∃ e, cholesky_cell m i j L = Err e) ↔
  i = j ∧ entry m i i - dotsum (λ k, entry L i k * entry L i k) i <= 0.
Proof.
  intros Hm Hji Hin (HsqL & Hzero & Heq & Hpos).
  unfold cholesky_cell. rewrite (dot_loop_ok n) by (assumption || lia).
  rewrite bind_Ok. destruct (decide (i = j)) as [->|Hne].
  - rewrite (mget_square n m) by (assumption || lia). rewrite bind_Ok.
    cbv zeta. destruct (Rle_dec _ 0) as [Hle|Hgt].
    + split; [done|]. intros _. by eexists.
    + unfold math_sqrt. destruct (Rle_dec 0 _); [|lra]. rewrite bind_Ok.
      destruct (mset_square n L j j
                  (sqrt (entry m j j - dotsum (λ k, entry L j k * entry L j k) j))
                  HsqL Hin Hin) as (L' & -> & _).
      split; [by intros [e ?]|]. by intros [_ ?].
  - rewrite (mget_square n m) by (assumption || lia). rewrite bind_Ok.
    rewrite (mget_square n L) by (assumption || lia). rewrite bind_Ok.
    assert (0 < entry L j j) as Hjj by (apply Hpos; unfold computed; lia).
    unfold py_div. destruct (Req_dec_T (entry L j j) 0); [lra|].
    rewrite bind_Ok.
    destruct (mset_square n L i j
                ((entry m i j - dotsum (λ k, entry L i k * entry L j k) j)
                 / entry L j j) HsqL) as (L' & -> & _); [lia..|].
    split; [by intros [e ?]|]. by intros [? _].
Qed.

(** ** The correlation engine: claims *)

(** The exact form of C5: the factor multiplied by its transpose is the
    matrix of the pass that succeeded. *)
Lemma build_correlation_factor (c : correlations_cfg) ts (L : matrix) :
  build_correlation c = Ok (ts, L) →
  let n := length (corr_tests c) in
  ts = corr_tests c ∧ square n L ∧ lower_triangular L ∧
  ∃ eps, eps ∈ epsilons ∧
    ∀ a b, (a < n)%nat → (b < n)%nat →
      mul_transpose n L a b
      = requested_correlation c a b + (if decide (a = b) then eps else 0).
Proof.
  intros H n. unfold build_correlation in H.
  destruct (correlation_matrix c) as [corr|] eqn:Hcorr; [|done].
  rewrite bind_Ok in H. fold n in H.
  destruct (first_factor corr n epsilons) as [L'|] eqn:E; [|done].
  injection H as <- <-.
  destruct (correlation_matrix_Ok c corr Hcorr) as (Hsq & Hsym & Hreq).
  fold n in Hsq, Hreq.
  apply first_factor_Some in E as (k & eps & Hk & HL & _).
  assert (eps ∈ epsilons) as Hin by (by eapply list_elem_of_lookup_2).
  destruct (try_cholesky_matrix n corr eps Hsq Hsym (epsilons_nonneg _ Hin))
    as (ce & E & Hsq' & Hsym' & Hent).
  rewrite E in HL.
  destruct (cholesky_factor ce n L' Hsq' Hsym' HL) as (HsqL & Hlow & _ & Hmul).
  split_and!; try done. exists eps. split; [done|].
  intros a b Ha Hb. rewrite Hmul, Hent, Hreq by done. done.
Qed.

(** C5.  The factor that [build_correlation] returns is lower triangular
    and, multiplied by its transpose, gives back within 1e-6 at every entry
    the matrix with unit diagonal, the pairs' correlations at the mirrored
    entries they name and zero elsewhere, inflated on the diagonal by the
    epsilon of the pass that succeeded. *)
Theorem factor_reconstructs_correlation (c : correlations_cfg) ts (L : matrix) :
  (∀ p, p ∈ corr_pairs c → Rabs p.2 < 1) →
  build_correlation c = Ok (ts, L) →
  let n := length (corr_tests c) in
  ts = corr_tests c ∧ square n L ∧ lower_triangular L ∧
  ∃ eps, eps ∈ epsilons ∧
    ∀ a b, (a < n)%nat → (b < n)%nat →
      Rabs (mul_transpose n L a b
            - (requested_correlation c a b + (if decide (a = b) then eps else 0)))
      < 1e-6.
Proof.
  intros _ H n.
  destruct (build_correlation_factor c ts L H) as (Hts & Hsq & Hlow & eps & Hin & Heq).
  split_and!; try done. exists eps. split; [done|].
  intros a b Ha Hb. rewrite Heq by done.
  rewrite Rminus_diag, Rabs_R0. lra.
Qed.

(** ** Loops that cannot fail *)

Lemma for_each_total {A S : Type} (I : list A → S → Prop)
    (l : list A) (body : A → S → result S) (s0 : S) :
  I [] s0 →
  (∀ pre x post s, l = pre ++ x :: post → I pre s →
     ∃ s', body x s = Ok s' ∧ I (pre ++ [x]) s') →
  ∃ s', for_each l body s0 = Ok s' ∧ I l s'.
Proof.
  intros H0 Hstep.
  pose proof (for_each_inv I (λ _, False) l body s0 H0) as H.
  destruct (for_each l body s0) as [s'|e].
  - exists s'. split; [done|]. apply H. intros pre x post s Hl Hpre.
    by destruct (Hstep pre x post s Hl Hpre) as (s1 & -> & ?).
  - exfalso. apply H. intros pre x post s Hl Hpre.
    by destruct (Hstep pre x post s Hl Hpre) as (s1 & -> & ?).
Qed.

Lemma for_range_total {S : Type} (I : nat → S → Prop)
    (n : nat) (body : nat → S → result S) (s0 : S) :
  I O s0 →
  (∀ k s, (k < n)%nat → I k s → ∃ s', body k s = Ok s' ∧ I (Datatypes.S k) s') →
  ∃ s', for_each (range n) body s0 = Ok s' ∧ I n s'.
Proof.
  intros H0 Hstep.
  pose proof (for_range_inv I (λ _, False) n body s0 H0) as H.
  destruct (for_each (range n) body s0) as [s'|e].
  - exists s'. split; [done|]. apply H. intros k s Hk Hs.
    by destruct (Hstep k s Hk Hs) as (s1 & -> & ?).
  - exfalso. apply H. intros k s Hk Hs.
    by destruct (Hstep k s Hk Hs) as (s1 & -> & ?).
Qed.

(** ** Correlated shocks *)

Lemma draw_normals_length n g : length (draw_normals n g).1 = n.
Proof.
  revert g. induction n as [|n IH]; intros g; [done|].
  simpl. specialize (IH (next_normal g).2). simpl in IH.
  destruct (draw_normals n _). simpl in *. by rewrite IH.
Qed.

Lemma list_get_lt {A : Type} (l : list A) i :
  (i < length l)%nat → ∃ x, list_get l i = Ok x.
Proof.
  intros Hi. unfold list_get. destruct (l !! i) as [x|] eqn:E; [by exists x|].
  apply lookup_ge_None in E. lia.
Qed.

Lemma sample_correlated_z_total n (L : matrix) g :
  square n L →
  ∃ x g', sample_correlated_z L g = Ok (x, g') ∧ length x = n.
Proof.
  intros [Hlen Hrows]. unfold sample_correlated_z. rewrite Hlen.
  pose proof (draw_normals_length n g) as Hz.
  destruct (draw_normals n g) as [z g']. simpl in Hz.
  destruct (for_range_total (λ _ (x : list R), length x = n) n
    (λ i x,
       Li ← list_get L i ;
       s ← for_each (range (i + 1)) (λ k s,
              lik ← list_get Li k ; zk ← list_get z k ; Ok (s + lik * zk)) 0 ;
       list_set x i s) (replicate n 0)) as (x & -> & Hx).
  - by rewrite length_replicate.
  - intros i x Hi Hx.
    destruct (list_get_lt L i) as [Li ELi]; [lia|]. rewrite ELi, bind_Ok.
    assert (length Li = n) as HLi.
    { unfold list_get in ELi. destruct (L !! i) eqn:E; [|done].
      injection ELi as <-. eauto. }
    destruct (for_range_total (λ _ (_ : R), True) (i + 1)
      (λ k s, lik ← list_get Li k ; zk ← list_get z k ; Ok (s + lik * zk)) 0 I)
      as (s & -> & _).
    { intros k s Hk _.
      destruct (list_get_lt Li k) as [lik ->]; [lia|].
      destruct (list_get_lt z k) as [zk ->]; [lia|].
      rewrite !bind_Ok. by eexists. }
    rewrite bind_Ok. unfold list_set. rewrite decide_True by lia.
    eexists. split; [done|]. by rewrite length_insert.
  - rewrite bind_Ok. by exists x, g'.
Qed.

Lemma shock_map_total (corr_tests : list string) (z : list R) :
  (length corr_tests ≤ length z)%nat →
  ∃ zm, shock_map corr_tests z = Ok zm.
Proof.
  intros Hlen. unfold shock_map.
  destruct (for_range_total (λ _ (_ : gmap string R), True) (length corr_tests)
    (λ i (m : gmap string R),
       t ← list_get corr_tests i ; zi ← list_get z i ; Ok (<[t := zi]> m)) ∅ I)
    as (zm & -> & _); [|by exists zm].
  intros i m Hi _.
  destruct (list_get_lt corr_tests i) as [t ->]; [lia|].
  destruct (list_get_lt z i) as [zi ->]; [lia|].
  rewrite !bind_Ok. by eexists.
Qed.

(** ** A run without randomness *)

Lemma scaled_post_rate_quiet post_mu mu :
  scaled_post_rate post_mu (Rmax 0 mu) mu = post_mu.
Proof.
  unfold scaled_post_rate. destruct (Rlt_dec 0 mu) as [Hmu|]; [|done].
  rewrite Rmax_right by lra. field. lra.
Qed.

Lemma zero_sums_lookup tests t :
  zero_sums tests !! t = if decide (t ∈ tests) then Some 0 else None.
Proof.
  unfold zero_sums.
  assert (∀ (m : gmap string R),
    foldl (λ (m : gmap string R) t, <[t := 0]> m) m tests !! t
    = if decide (t ∈ tests) then Some 0 else m !! t) as H.
  { induction tests as [|x tests IH]; intros m.
    - destruct (decide (t ∈ [])) as [Hin|_]; [by apply elem_of_nil in Hin|done].
    - simpl foldl. rewrite IH. destruct (decide (t ∈ tests)) as [Hin|Hnin].
      + rewrite decide_True; [done|]. by right.
      + destruct (decide (t = x)) as [->|Hne].
        * rewrite decide_True by left. apply lookup_insert_eq.
        * rewrite lookup_insert_ne by done. rewrite decide_False; [done|].
          by intros [->|?]%elem_of_cons. }
  rewrite H. by rewrite lookup_empty.
Qed.

Lemma elem_of_middle {A : Type} (l pre post : list A) x :
  l = pre ++ x :: post → x ∈ l.
Proof. intros ->. apply elem_of_app. right. left. Qed.

Lemma elem_of_snoc_ne {A : Type} (pre : list A) x t :
  t ∈ pre ++ [x] → t ≠ x → t ∈ pre.
Proof.
  intros [?|Hx]%elem_of_app Hne; [done|].
  apply list_elem_of_singleton in Hx. done.
Qed.

Section quiet_run.
Context (cfg : config) (c : client) (scenario : string) (imp : string → R).

Local Abbreviation tests := (tests_order cfg).
Local Abbreviation mln := (set_of (measurement_lognormal cfg)).
Local Abbreviation allow := (allow_negative_set cfg).

Hypothesis tests_NoDup : NoDup tests.
Hypothesis tests_quiet : ∀ t, t ∈ tests → quiet cfg c t.
Hypothesis improvement_fixed :
  scenario = "improvement" → fixed_improvement cfg c imp.

Lemma rate_loop_quiet zm g :
  ∃ rate rp g',
    for_each tests (rate_step cfg zm) (∅, ∅, g) = Ok (rate, rp, g') ∧
    ∀ t, t ∈ tests →
      ∃ mu, base_rate_per_decade (decline cfg) !! t = Some mu ∧
            rate !! t = Some (Rmax 0 mu) ∧
            rp !! t = Some (post_rate_per_decade (decline cfg) !! t).
Proof.
  destruct (for_each_total
    (λ pre (st : gmap string R * gmap string (option R) * rng),
       ∀ t, t ∈ pre →
         ∃ mu, base_rate_per_decade (decline cfg) !! t = Some mu ∧
               st.1.1 !! t = Some (Rmax 0 mu) ∧
               st.1.2 !! t = Some (post_rate_per_decade (decline cfg) !! t))
    tests (rate_step cfg zm) (∅, ∅, g)) as ([[rate rp] g'] & E & H).
  - intros t Hin. by apply elem_of_nil in Hin.
  - intros pre x post [[rate rp] g0] Hl Hpre.
    assert (x ∈ tests) as Hx by (by eapply elem_of_middle).
    destruct (tests_quiet x Hx) as ((mu & Hmu & Hln) & Hcv & _ & _).
    unfold rate_step, dict_get. rewrite Hmu, Hcv, !bind_Ok.
    destruct (sample_rate_cv0 x mu
                (bool_decide (x ∈ set_of (rate_lognormal cfg))) (zm !! x) g0)
      as [g1 ->].
    { intros Hb%bool_decide_eq_true. apply Hln.
      unfold set_of in Hb. by apply elem_of_list_to_set in Hb. }
    rewrite bind_Ok. eexists. split; [done|].
    intros t Hin. destruct (decide (t = x)) as [->|Hne].
    + exists mu. split; [done|]. simpl.
      destruct (post_rate_per_decade (decline cfg) !! x) as [post_mu|];
        simpl; rewrite !lookup_insert_eq; [|done].
      by rewrite scaled_post_rate_quiet.
    + assert (t ∈ pre) as Hpre' by (by eapply elem_of_snoc_ne).
      destruct (Hpre t Hpre') as (mu' & ? & ? & ?). exists mu'. simpl in *.
      destruct (post_rate_per_decade (decline cfg) !! x);
        by rewrite !lookup_insert_ne.
  - by exists rate, rp, g'.
Qed.

Lemma true0_loop_quiet g :
  ∃ true0 g',
    for_each tests (true0_step cfg c) (∅, g) = Ok (true0, g') ∧
    ∀ t, t ∈ tests →
      true0 !! t = Some (clamped t mln allow (baseline_or_0 c t)).
Proof.
  destruct (for_each_total
    (λ pre (st : gmap string R * rng),
       ∀ t, t ∈ pre →
         st.1 !! t = Some (clamped t mln allow (baseline_or_0 c t)))
    tests (true0_step cfg c) (∅, g)) as ([true0 g'] & E & H).
  - intros t Hin. by apply elem_of_nil in Hin.
  - intros pre x post [true0 g0] Hl Hpre.
    assert (x ∈ tests) as Hx by (by eapply elem_of_middle).
    destruct (tests_quiet x Hx) as (_ & _ & Hcv & Hdata).
    unfold true0_step.
    assert (default (Some 0) (data c !! x) = Some (baseline_or_0 c x)) as ->.
    { unfold baseline_or_0. by destruct (data c !! x) as [[b|]|]. }
    destruct (infer_true_cv0 x (baseline_or_0 c x) (measurement_cv cfg)
                (set_of (measurement_lognormal cfg)) (allow_negative_set cfg)
                g0 Hcv) as [g1 ->].
    rewrite bind_Ok. eexists. split; [done|].
    intros t Hin. simpl. destruct (decide (t = x)) as [->|Hne].
    + by rewrite lookup_insert_eq.
    + rewrite lookup_insert_ne by done. apply Hpre.
      by eapply elem_of_snoc_ne.
  - by exists true0, g'.
Qed.

Lemma quiet_value_inv years t v :
  quiet_value cfg c scenario imp years t = Ok v →
  ∃ mu v',
    base_rate_per_decade (decline cfg) !! t = Some mu ∧
    (if decide (scenario = "improvement") then
       apply_decline (improve cfg t (clamped t mln allow (baseline_or_0 c t))
                        (imp t))
         (age_or_0 (age c) + 1) (years - 1) (Rmax 0 mu)
         (post_rate_per_decade (decline cfg) !! t)
         (accelerate_from_age (decline cfg) !! t)
         (bool_decide (t ∈ set_of (higher_is_better cfg)))
         (bool_decide (t ∈ absolute_decline_set cfg))
     else
       apply_decline (clamped t mln allow (baseline_or_0 c t))
         (age_or_0 (age c)) years (Rmax 0 mu)
         (post_rate_per_decade (decline cfg) !! t)
         (accelerate_from_age (decline cfg) !! t)
         (bool_decide (t ∈ set_of (higher_is_better cfg)))
         (bool_decide (t ∈ absolute_decline_set cfg))) = Ok v' ∧
    v = clamped t mln allow (practice cfg years t v').
Proof.
  unfold quiet_value, dict_get.
  destruct (base_rate_per_decade (decline cfg) !! t) as [mu|]; [|done].
  rewrite bind_Ok. cbv zeta. intros H.
  apply bind_Ok_inv in H as (v' & Hv' & [= <-]).
  by exists mu, v'.
Qed.

Lemma horizon_loop_quiet years rate rp true0 sums g (s0 : string → R) :
  (∀ t, t ∈ tests →
     ∃ mu, base_rate_per_decade (decline cfg) !! t = Some mu ∧
           rate !! t = Some (Rmax 0 mu) ∧
           rp !! t = Some (post_rate_per_decade (decline cfg) !! t)) →
  (∀ t, t ∈ tests →
     true0 !! t = Some (clamped t mln allow (baseline_or_0 c t))) →
  (∀ t, t ∈ tests → sums !! t = Some (s0 t)) →
  (∀ t, t ∈ tests → ∃ v, quiet_value cfg c scenario imp years t = Ok v) →
  ∃ sums' g',
    for_each tests (horizon_step cfg c scenario rate rp true0 years) (sums, g)
    = Ok (sums', g') ∧
    (∀ t, t ∉ tests → sums' !! t = sums !! t) ∧
    ∀ t v, t ∈ tests → quiet_value cfg c scenario imp years t = Ok v →
           sums' !! t = Some (s0 t + v).
Proof.
  intros Hrate Htrue Hsums Hval.
  destruct (for_each_total
    (λ pre (st : gmap string R * rng),
       (∀ t, t ∉ tests → st.1 !! t = sums !! t) ∧
       ∀ t v, t ∈ tests → quiet_value cfg c scenario imp years t = Ok v →
              st.1 !! t = Some (s0 t + if decide (t ∈ pre) then v else 0))
    tests (horizon_step cfg c scenario rate rp true0 years) (sums, g))
    as ([sums' g'] & E & Hout & H).
  - split; [done|]. intros t v Hin _. simpl. rewrite Hsums by done.
    f_equal. destruct (decide (t ∈ [])) as [Hn|_]; [by apply elem_of_nil in Hn|].
    lra.
  - intros pre x post [sm g0] Hl [Hout Hpre].
    assert (x ∈ tests) as Hx by (by eapply elem_of_middle).
    assert (x ∉ pre) as Hfresh.
    { pose proof tests_NoDup as Hnd. rewrite Hl in Hnd.
      apply NoDup_app in Hnd as (_ & Hdisj & _). intros Hin.
      apply (Hdisj x Hin). left. }
    destruct (Hval x Hx) as [v Hv].
    destruct (quiet_value_inv years x v Hv) as (mu & v' & Hmu & Hdecl & ->).
    destruct (Hrate x Hx) as (mu' & Hmu' & Hr & Hrp).
    assert (mu' = mu) as -> by congruence.
    destruct (tests_quiet x Hx) as (_ & _ & Hcv & _).
    unfold horizon_step, dict_get.
    rewrite (Htrue x Hx), !bind_Ok.
    assert (∃ g1, scenario_value cfg c scenario years x
                    (clamped x mln allow (baseline_or_0 c x)) rate rp g0
                  = Ok (v', g1)) as [g1 ->].
    { unfold scenario_value, dict_get.
      destruct (decide (scenario = "improvement")) as [Hs|Hs].
      - destruct (improvement_fixed Hs x g0 Hx) as [g1 ->].
        rewrite bind_Ok, Hr, Hrp, !bind_Ok, Hdecl, bind_Ok. by exists g1.
      - rewrite Hr, Hrp, !bind_Ok, Hdecl, bind_Ok. by exists g0. }
    rewrite bind_Ok.
    destruct (apply_noise_cv0 x (practice cfg years x v') (measurement_cv cfg)
                (set_of (measurement_lognormal cfg)) (allow_negative_set cfg)
                g1 Hcv) as [g2 ->].
    rewrite bind_Ok.
    pose proof (Hpre x _ Hx Hv) as Hsx. simpl in Hsx.
    rewrite decide_False in Hsx by done. rewrite Hsx, bind_Ok.
    eexists. split; [done|]. simpl. split.
    + intros t Hnin. rewrite lookup_insert_ne; [by apply Hout|].
      by intros <-.
    + intros t w Hin Hw. destruct (decide (t = x)) as [->|Hne].
      * rewrite lookup_insert_eq. rewrite decide_True by (apply elem_of_app; right; left).
        f_equal. assert (w = clamped x mln allow (practice cfg years x v'))
          as -> by congruence.
        lra.
      * rewrite lookup_insert_ne by done.
        pose proof (Hpre t w Hin Hw) as Ht. simpl in Ht. rewrite Ht.
        f_equal. f_equal. apply decide_ext. split.
        -- intros ?. apply elem_of_app. by left.
        -- intros ?. by eapply elem_of_snoc_ne.
  - exists sums', g'. split; [done|]. split; [done|].
    intros t v Hin Hv. pose proof (H t v Hin Hv) as Ht. simpl in Ht.
    rewrite Ht. by rewrite decide_True.
Qed.

Context (corr_tests : list string) (corr_L : list (list R)).
Hypothesis corr_square : square (length corr_tests) corr_L.
Hypothesis values_defined :
  ∀ t, t ∈ tests →
    ∃ v5 v10, quiet_value cfg c scenario imp 5 t = Ok v5 ∧
              quiet_value cfg c scenario imp 10 t = Ok v10.

Local Abbreviation qv := (quiet_value_or_0 cfg c scenario imp).

(** The sums after [k] draws. *)
Local Abbreviation sums_after k st :=
  ((∀ t, t ∈ tests → st.1.1 !! t = Some (INR k * qv 5 t)) ∧
   (∀ t, t ∈ tests → st.1.2 !! t = Some (INR k * qv 10 t)) ∧
   (∀ t, t ∉ tests → st.1.1 !! t = None ∧ st.1.2 !! t = None)).

Lemma simulate_draw_quiet k (st : gmap string R * gmap string R * rng) :
  sums_after k st →
  ∃ st', simulate_draw cfg c corr_tests corr_L scenario st = Ok st' ∧
         sums_after (S k) st'.
Proof.
  destruct st as [[s5 s10] g]. cbn [fst snd]. intros (H5 & H10 & Hout).
  unfold simulate_draw.
  destruct (sample_correlated_z_total _ corr_L g corr_square)
    as (z & g1 & -> & Hz).
  rewrite bind_Ok.
  destruct (shock_map_total corr_tests z) as [zm ->]; [lia|].
  rewrite bind_Ok.
  destruct (rate_loop_quiet zm g1) as (rate & rp & g2 & -> & Hrate).
  rewrite bind_Ok.
  destruct (true0_loop_quiet g2) as (true0 & g3 & -> & Htrue).
  rewrite bind_Ok.
  destruct (horizon_loop_quiet 5 rate rp true0 s5 g3 (λ t, INR k * qv 5 t)
              Hrate Htrue H5) as (s5' & g4 & -> & Hout5 & H5').
  { intros t Ht. destruct (values_defined t Ht) as (v5 & _ & ? & _). eauto. }
  rewrite bind_Ok.
  destruct (horizon_loop_quiet 10 rate rp true0 s10 g4 (λ t, INR k * qv 10 t)
              Hrate Htrue H10) as (s10' & g5 & -> & Hout10 & H10').
  { intros t Ht. destruct (values_defined t Ht) as (_ & v10 & _ & ?). eauto. }
  rewrite bind_Ok. eexists. split; [done|]. cbn [fst snd]. split_and!.
  - intros t Ht. destruct (values_defined t Ht) as (v5 & _ & E5 & _).
    rewrite (H5' t v5 Ht E5). f_equal. unfold quiet_value_or_0. rewrite E5.
    rewrite S_INR. lra.
  - intros t Ht. destruct (values_defined t Ht) as (_ & v10 & _ & E10).
    rewrite (H10' t v10 Ht E10). f_equal. unfold quiet_value_or_0. rewrite E10.
    rewrite S_INR. lra.
  - intros t Ht. rewrite Hout5, Hout10 by done. by apply Hout.
Qed.

Lemma means_quiet (sums : gmap string R) (n : Z) (f : string → R) :
  (0 < n)%Z →
  (∀ t, t ∈ tests → sums !! t = Some (IZR n * f t)) →
  ∃ m, means tests sums n = Ok m ∧
       (∀ t, t ∈ tests → m !! t = Some (f t)) ∧
       (∀ t, t ∉ tests → m !! t = None).
Proof.
  intros Hn Hsums. unfold means.
  assert (IZR n ≠ 0) as Hn0 by (apply not_0_IZR; lia).
  destruct (for_each_total
    (λ pre (m : gmap string R),
       (∀ t, t ∈ pre → m !! t = Some (f t)) ∧
       (∀ t, t ∉ pre → m !! t = None))
    tests
    (λ t (m : gmap string R),
       s ← dict_get sums t ; q ← py_div s (IZR n) ; Ok (<[t := q]> m)) ∅)
    as (m & E & Hin & Hout).
  - split; [|done]. intros t Ht. by apply elem_of_nil in Ht.
  - intros pre x post m Hl [Hin Hout].
    assert (x ∈ tests) as Hx by (by eapply elem_of_middle).
    unfold dict_get, py_div. rewrite (Hsums x Hx), bind_Ok.
    destruct (Req_dec_T (IZR n) 0); [done|]. rewrite bind_Ok.
    eexists. split; [done|]. split.
    + intros t Ht. destruct (decide (t = x)) as [->|Hne].
      * rewrite lookup_insert_eq. f_equal. by field.
      * rewrite lookup_insert_ne by done. apply Hin.
        by eapply elem_of_snoc_ne.
    + intros t Ht. rewrite lookup_insert_ne.
      * apply Hout. intros ?. apply Ht, elem_of_app. by left.
      * intros <-. apply Ht, elem_of_app. right. left.
  - by exists m.
Qed.

(** When every test is quiet, the run succeeds and the mean of each test
    is its value at one draw. *)
Lemma simulate_client_quiet g :
  (0 < n_sim cfg)%Z →
  ∃ mean5 mean10 g',
    simulate_client c cfg corr_tests corr_L scenario g = Ok (mean5, mean10, g') ∧
    (∀ t, t ∈ tests → mean5 !! t = Some (qv 5 t) ∧ mean10 !! t = Some (qv 10 t)) ∧
    (∀ t, t ∉ tests → mean5 !! t = None ∧ mean10 !! t = None).
Proof.
  intros Hn. unfold simulate_client.
  destruct (for_range_total
    (λ k (st : gmap string R * gmap string R * rng), sums_after k st)
    (Z.to_nat (n_sim cfg))
    (λ _, simulate_draw cfg c corr_tests corr_L scenario)
    (zero_sums tests, zero_sums tests, g)) as ([[s5 s10] g'] & -> & H5 & H10 & Hout).
  - simpl. split_and!.
    + intros t Ht. rewrite zero_sums_lookup, decide_True by done. f_equal. lra.
    + intros t Ht. rewrite zero_sums_lookup, decide_True by done. f_equal. lra.
    + intros t Ht. by rewrite zero_sums_lookup, decide_False.
  - intros k st _. apply simulate_draw_quiet.
  - rewrite bind_Ok. simpl in *.
    assert (INR (Z.to_nat (n_sim cfg)) = IZR (n_sim cfg)) as Hcast.
    { rewrite INR_IZR_INZ. f_equal. lia. }
    rewrite Hcast in H5, H10.
    destruct (means_quiet s5 (n_sim cfg) (qv 5) Hn H5) as (m5 & -> & Hm5 & Ho5).
    rewrite bind_Ok.
    destruct (means_quiet s10 (n_sim cfg) (qv 10) Hn H10) as (m10 & -> & Hm10 & Ho10).
    rewrite bind_Ok. exists m5, m10, g'. split; [done|]. split.
    + intros t Ht. split; auto.
    + intros t Ht. split; auto.
Qed.
End quiet_run.

(** ** Decline over a horizon *)

Lemma apply_decline_segments value age_start years rate_base rate_post
    accel_age hib absd :
  0 < years →
  apply_decline value age_start years rate_base rate_post accel_age hib absd
  = (val ← apply_segment hib absd value rate_base
             (split_years age_start years accel_age).1 ;
     apply_segment hib absd val (default rate_base rate_post)
       (split_years age_start years accel_age).2).
Proof.
  intros Hy. unfold apply_decline.
  destruct (Rle_dec years 0); [lra|].
  destruct (split_years age_start years accel_age) as [y1 y2]. simpl.
  assert (∀ v r y, (if Rlt_dec 0 y then apply_segment hib absd v r y else Ok v)
                   = apply_segment hib absd v r y) as Hseg.
  { intros v r y. destruct (Rlt_dec 0 y); [done|].
    unfold apply_segment. destruct (Rle_dec y 0); [done|lra]. }
  rewrite Hseg. destruct (apply_segment hib absd value rate_base y1); [|done].
  rewrite !bind_Ok.
  replace (match rate_post with Some r => r | None => rate_base end)
    with (default rate_base rate_post) by (by destruct rate_post).
  apply Hseg.
Qed.

Lemma split_years_bounds age_start years accel_age :
  0 < years →
  0 <= (split_years age_start years accel_age).1 ∧
  0 <= (split_years age_start years accel_age).2.
Proof.
  intros Hy. unfold split_years. destruct accel_age as [a|]; simpl; [|lra].
  destruct (Rlt_dec age_start a); simpl; [|lra].
  unfold Rmin. destruct (Rle_dec years (a - age_start)); lra.
Qed.

Lemma split_years_mono age_start years years' accel_age :
  0 < years → years <= years' →
  (split_years age_start years accel_age).1
    <= (split_years age_start years' accel_age).1 ∧
  (split_years age_start years accel_age).2
    <= (split_years age_start years' accel_age).2.
Proof.
  intros Hy Hle. unfold split_years. destruct accel_age as [a|]; simpl; [|lra].
  destruct (Rlt_dec age_start a); simpl; [|lra].
  unfold Rmin.
  destruct (Rle_dec years (a - age_start)), (Rle_dec years' (a - age_start)); lra.
Qed.

(** [x ** y] for a base in [[0, ∞)] and a positive exponent. *)
Lemma py_pow_nonneg_base x y :
  0 <= x → 0 < y →
  py_pow x y = Ok (if Rlt_dec 0 x then Rpower x y else 0).
Proof.
  intros Hx Hy. unfold py_pow. destruct (Rlt_dec 0 x); [done|].
  destruct (Req_dec_T x 0); [|lra]. destruct (Rlt_dec 0 y); [done|lra].
Qed.

Lemma Rpower_pos x y : 0 < Rpower x y.
Proof. unfold Rpower. apply exp_pos. Qed.

Lemma Rpower_le_1 x y : 0 < x → x <= 1 → 0 <= y → Rpower x y <= 1.
Proof.
  intros Hx Hx1 Hy. unfold Rpower. rewrite <- exp_0.
  assert (ln x <= 0) as Hln.
  { destruct Hx1 as [Hlt | ->]; [|rewrite ln_1; lra].
    apply ln_increasing in Hlt; [|done]. rewrite ln_1 in Hlt. lra. }
  destruct (Req_dec_T (y * ln x) 0) as [-> | Hne]; [lra|].
  left. apply exp_increasing. nra.
Qed.

Lemma Rpower_ge_1 x y : 1 <= x → 0 <= y → 1 <= Rpower x y.
Proof.
  intros Hx Hy. rewrite <- (Rpower_O x) by lra. apply Rle_Rpower; lra.
Qed.

Lemma Rpower_antitone x y z :
  0 < x → x <= 1 → y <= z → Rpower x z <= Rpower x y.
Proof.
  intros Hx Hx1 Hyz.
  replace z with (y + (z - y)) by lra. rewrite Rpower_plus.
  pose proof (Rpower_le_1 x (z - y) Hx Hx1 ltac:(lra)).
  pose proof (Rpower_pos x y). nra.
Qed.

(** A segment is defined as soon as the rate is a fraction, or the decline
    is absolute. *)
Lemma apply_segment_total hib absd val rate y :
  absd = true ∨ -1 <= rate <= 1 →
  ∃ v, apply_segment hib absd val rate y = Ok v.
Proof.
  intros Hr. unfold apply_segment.
  destruct (Rle_dec y 0); [by eexists|].
  destruct absd.
  { destruct hib; by eexists. }
  destruct Hr as [?|Hr]; [done|].
  set (factor := if hib then _ else _).
  assert (0 <= factor) as Hf.
  { unfold factor. destruct hib; destruct (Rle_dec 0 val); lra. }
  rewrite py_pow_nonneg_base; [|done|lra]. rewrite bind_Ok. by eexists.
Qed.

Lemma apply_decline_total value age_start years rate_base rate_post accel_age
    hib absd :
  absd = true ∨ (-1 <= rate_base <= 1 ∧ ∀ p, rate_post = Some p → -1 <= p <= 1) →
  ∃ v, apply_decline value age_start years rate_base rate_post accel_age hib absd
       = Ok v.
Proof.
  intros Hr. destruct (Rle_dec years 0) as [Hy|Hy].
  { unfold apply_decline. destruct (Rle_dec years 0); [by eexists|lra]. }
  rewrite apply_decline_segments by lra.
  destruct (apply_segment_total hib absd value rate_base
              (split_years age_start years accel_age).1) as [v1 ->]; [tauto|].
  rewrite bind_Ok. apply apply_segment_total.
  destruct Hr as [?|[Hb Hp]]; [by left|right].
  destruct rate_post as [p|]; simpl; [by apply Hp|done].
Qed.

Lemma apply_segment_value hib absd val rate y :
  absd = true ∨ -1 <= rate <= 1 →
  apply_segment hib absd val rate y = Ok (seg_value hib absd val rate y).
Proof.
  intros Hr. unfold apply_segment, seg_value.
  destruct (Rle_dec y 0); [done|].
  destruct absd.
  { by destruct hib. }
  destruct Hr as [?|Hr]; [done|]. cbv zeta.
  set (factor := if hib then _ else _).
  assert (0 <= factor) as Hf.
  { unfold factor. destruct hib; destruct (Rle_dec 0 val); lra. }
  rewrite py_pow_nonneg_base; [done|done|lra].
Qed.

Lemma apply_decline_value value age_start years rate_base rate_post accel_age
    hib absd :
  absd = true ∨ (-1 <= rate_base <= 1 ∧ ∀ p, rate_post = Some p → -1 <= p <= 1) →
  apply_decline value age_start years rate_base rate_post accel_age hib absd
  = Ok (decline_value value age_start years rate_base rate_post accel_age
          hib absd).
Proof.
  intros Hr. unfold decline_value. destruct (Rle_dec years 0) as [Hy|Hy].
  { unfold apply_decline. destruct (Rle_dec years 0); [done|lra]. }
  rewrite apply_decline_segments by lra.
  rewrite apply_segment_value by tauto. rewrite bind_Ok.
  apply apply_segment_value.
  destruct Hr as [?|[Hb Hp]]; [by left|right].
  destruct rate_post as [p|]; simpl; [by apply Hp|done].
Qed.

(** A longer segment is worse: lower when higher is better, higher
    otherwise. *)
Lemma seg_value_years (hib absd : bool) val rate y y' :
  0 <= rate → absd = true ∨ rate <= 1 → y <= y' →
  if hib then seg_value hib absd val rate y' <= seg_value hib absd val rate y
  else seg_value hib absd val rate y <= seg_value hib absd val rate y'.
Proof.
  intros Hr Hb Hy. unfold seg_value.
  destruct absd.
  { destruct hib; destruct (Rle_dec y 0), (Rle_dec y' 0); nra. }
  destruct Hb as [?|Hb]; [done|]. cbv zeta.
  pose proof (Rpower_pos (1 - rate) (y / 10)).
  pose proof (Rpower_pos (1 - rate) (y' / 10)).
  pose proof (Rpower_pos (1 + rate) (y / 10)).
  pose proof (Rpower_pos (1 + rate) (y' / 10)).
  pose proof (Rle_Rpower (1 + rate) (y / 10) (y' / 10) ltac:(lra) ltac:(lra)).
  assert (0 <= y' → 1 <= Rpower (1 + rate) (y' / 10)) as Hge
    by (intros; apply Rpower_ge_1; lra).
  assert (0 < 1 - rate → Rpower (1 - rate) (y' / 10) <= Rpower (1 - rate) (y / 10))
    as Hanti by (intros; apply Rpower_antitone; lra).
  assert (0 < 1 - rate → 0 <= y' → Rpower (1 - rate) (y' / 10) <= 1) as Hle
    by (intros; apply Rpower_le_1; lra).
  destruct hib; destruct (Rle_dec y 0), (Rle_dec y' 0); try lra;
    destruct (Rle_dec 0 val);
    repeat match goal with
           | |- context [Rlt_dec ?a ?b] => destruct (Rlt_dec a b)
           end;
    try lra;
    try (specialize (Hge ltac:(lra)));
    try (specialize (Hanti ltac:(lra)));
    try (specialize (Hle ltac:(lra) ltac:(lra)));
    nra.
Qed.

Lemma seg_value_zero hib absd val rate : seg_value hib absd val rate 0 = val.
Proof. unfold seg_value. destruct (Rle_dec 0 0); [done|lra]. Qed.

(** A segment never improves the value. *)
Lemma seg_value_worse (hib absd : bool) val rate y :
  0 <= rate → absd = true ∨ rate <= 1 → 0 <= y →
  if hib then seg_value hib absd val rate y <= val
  else val <= seg_value hib absd val rate y.
Proof.
  intros Hr Hb Hy.
  pose proof (seg_value_years hib absd val rate 0 y Hr Hb Hy) as H.
  by rewrite seg_value_zero in H.
Qed.

(** A segment is monotone in the value it starts from. *)
Lemma seg_value_val hib absd val val' rate y :
  0 <= rate → absd = true ∨ rate <= 1 → val <= val' →
  seg_value hib absd val rate y <= seg_value hib absd val' rate y.
Proof.
  intros Hr Hb Hv. unfold seg_value.
  destruct (Rle_dec y 0); [done|].
  destruct absd.
  { destruct hib; lra. }
  destruct Hb as [?|Hb]; [done|]. cbv zeta.
  pose proof (Rpower_pos (1 - rate) (y / 10)).
  pose proof (Rpower_pos (1 + rate) (y / 10)).
  pose proof (Rpower_ge_1 (1 + rate) (y / 10) ltac:(lra) ltac:(lra)) as Hge.
  assert (0 < 1 - rate → Rpower (1 - rate) (y / 10) <= 1) as Hle
    by (intros; apply Rpower_le_1; lra).
  destruct hib; destruct (Rle_dec 0 val), (Rle_dec 0 val');
    repeat match goal with
           | |- context [Rlt_dec ?a ?b] => destruct (Rlt_dec a b)
           end;
    try lra;
    try (specialize (Hle ltac:(lra)));
    nra.
Qed.

(** Decline over a longer horizon is worse, and decline is never better
    than the starting value. *)
Lemma decline_value_mono value age_start years years' rate_base rate_post
    accel_age (hib absd : bool) :
  0 <= rate_base → 0 <= default rate_base rate_post →
  absd = true ∨ (rate_base <= 1 ∧ default rate_base rate_post <= 1) →
  0 <= years → years <= years' →
  let d y := decline_value value age_start y rate_base rate_post accel_age
               hib absd in
  if hib then d years' <= d years ∧ d years <= value
  else value <= d years ∧ d years <= d years'.
Proof.
  intros Hr Hp Hb Hy Hle d.
  assert (∀ v y, 0 <= y →
            if hib then seg_value hib absd v rate_base y <= v
            else v <= seg_value hib absd v rate_base y) as Hbase.
  { intros v y Hy0. apply seg_value_worse; tauto. }
  assert (∀ v y, 0 <= y →
            if hib then seg_value hib absd v (default rate_base rate_post) y <= v
            else v <= seg_value hib absd v (default rate_base rate_post) y)
    as Hpost.
  { intros v y Hy0. apply seg_value_worse; tauto. }
  assert (∀ y, 0 < y →
            d y = seg_value hib absd
                    (seg_value hib absd value rate_base
                       (split_years age_start y accel_age).1)
                    (default rate_base rate_post)
                    (split_years age_start y accel_age).2) as Hd.
  { intros y Hy0. unfold d, decline_value. destruct (Rle_dec y 0); [lra|done]. }
  assert (∀ y, 0 < y → if hib then d y <= value else value <= d y) as Hworse.
  { intros y Hy0. rewrite Hd by done.
    destruct (split_years_bounds age_start y accel_age Hy0) as [H1 H2].
    specialize (Hbase value _ H1).
    specialize (Hpost (seg_value hib absd value rate_base
                         (split_years age_start y accel_age).1) _ H2).
    destruct hib; lra. }
  destruct (Rle_dec years 0) as [Hy0|Hy0].
  { assert (d years = value) as ->.
    { unfold d, decline_value. destruct (Rle_dec years 0); [done|lra]. }
    destruct (Rle_dec years' 0) as [Hy0'|Hy0'].
    - assert (d years' = value) as ->.
      { unfold d, decline_value. destruct (Rle_dec years' 0); [done|lra]. }
      destruct hib; lra.
    - specialize (Hworse years' ltac:(lra)). destruct hib; lra. }
  assert (0 < years) as Hpos by lra. assert (0 < years') as Hpos' by lra.
  pose proof (Hworse years Hpos) as Hw.
  rewrite (Hd years Hpos), (Hd years' Hpos') in *.
  destruct (split_years_mono age_start years years' accel_age Hpos Hle)
    as [H1 H2].
  set (y1 := (split_years age_start years accel_age).1) in *.
  set (y2 := (split_years age_start years accel_age).2) in *.
  set (y1' := (split_years age_start years' accel_age).1) in *.
  set (y2' := (split_years age_start years' accel_age).2) in *.
  pose proof (seg_value_years hib absd value rate_base y1 y1' Hr ltac:(tauto) H1)
    as Hfirst.
  set (rp := default rate_base rate_post) in *.
  destruct hib.
  - split; [|done].
    pose proof (seg_value_val true absd _ _ rp y2 Hp ltac:(tauto) Hfirst) as Hmid.
    pose proof (seg_value_years true absd
                  (seg_value true absd value rate_base y1') rp y2 y2'
                  Hp ltac:(tauto) H2) as Hlast.
    simpl in Hlast. lra.
  - split; [done|].
    pose proof (seg_value_val false absd _ _ rp y2 Hp ltac:(tauto) Hfirst) as Hmid.
    pose proof (seg_value_years false absd
                  (seg_value false absd value rate_base y1') rp y2 y2'
                  Hp ltac:(tauto) H2) as Hlast.
    simpl in Hlast. lra.
Qed.

Lemma apply_decline_no_accel value age_start years rate_base rate_post hib absd :
  0 < years →
  apply_decline value age_start years rate_base rate_post None hib absd
  = apply_segment hib absd value rate_base years.
Proof.
  intros Hy. rewrite apply_decline_segments by done. simpl.
  destruct (apply_segment hib absd value rate_base years) as [v|]; [|done].
  rewrite bind_Ok. unfold apply_segment. destruct (Rle_dec 0 0); [done|lra].
Qed.

Lemma practice_disabled cfg years t v :
  practice_applies cfg years t = false → practice cfg years t v = v.
Proof. intros H. unfold practice. by rewrite H. Qed.

Lemma sqrt_095_bounds : 0.9746 < sqrt 0.95 < 0.9747.
Proof.
  split.
  - rewrite <- (sqrt_square 0.9746) by lra. apply sqrt_lt_1; lra.
  - rewrite <- (sqrt_square 0.9747) by lra. apply sqrt_lt_1; lra.
Qed.

(** ** End-to-end scenario *)

(** C9.  One test, VO2 max, higher is better, relative decline at 0.05 per
    decade, no acceleration age, no measurement noise, no rate uncertainty,
    one draw, no practice effect; a client of age 45 with baseline 40.0.
    Under "decline" the run succeeds with year-5 mean 40·(1−0.05)^0.5, which
    is 39.0 within 0.02, and year-10 mean 40·(1−0.05) = 38. *)
Theorem vo2max_decline_scenario (cfg : config) (c : client)
    (corr_tests : list string) (corr_L : list (list R)) (g : rng) :
  tests_order cfg = ["VO2 max"] →
  "VO2 max" ∈ higher_is_better cfg →
  "VO2 max" ∉ default [] (absolute_decline_tests cfg) →
  base_rate_per_decade (decline cfg) !! "VO2 max" = Some 0.05 →
  accelerate_from_age (decline cfg) !! "VO2 max" = None →
  measurement_cv cfg !! "VO2 max" = Some 0 →
  rate_uncertainty_cv cfg !! "VO2 max" = Some 0 →
  n_sim cfg = 1%Z →
  practice_enabled (practice_effect cfg) = false →
  age c = Some 45 →
  data c !! "VO2 max" = Some (Some 40) →
  square (length corr_tests) corr_L →
  ∃ mean5 mean10 g' v5 v10,
    simulate_client c cfg corr_tests corr_L "decline" g = Ok (mean5, mean10, g') ∧
    mean5 !! "VO2 max" = Some v5 ∧ mean10 !! "VO2 max" = Some v10 ∧
    v5 = 40 * Rpower (1 - 0.05) 0.5 ∧ Rabs (v5 - 39) < 0.02 ∧
    v10 = 40 * (1 - 0.05) ∧ v10 = 38.
Proof.
  intros Htests Hhib Habs Hmu Haccel Hmcv Hrcv Hn Hpractice Hage Hdata Hsq.
  assert (∀ years, 0 < years →
            quiet_value cfg c "decline" (λ _, 0) years "VO2 max"
            = Ok (40 * Rpower (1 - 0.05) (years / 10))) as Hval.
  { intros years Hy. unfold quiet_value, dict_get. rewrite Hmu, bind_Ok. cbv zeta.
    rewrite decide_False by done. rewrite Haccel.
    rewrite apply_decline_no_accel by done.
    rewrite bool_decide_eq_true_2
      by (unfold set_of; by apply elem_of_list_to_set).
    rewrite bool_decide_eq_false_2
      by (unfold absolute_decline_set, set_of; by rewrite elem_of_list_to_set).
    unfold baseline_or_0. rewrite Hdata.
    rewrite (clamped_nonneg _ _ _ 40) by lra.
    rewrite Rmax_right by lra.
    rewrite apply_segment_value by (right; lra). rewrite bind_Ok.
    unfold seg_value. destruct (Rle_dec years 0); [lra|].
    destruct (Rle_dec 0 40); [|lra]. destruct (Rlt_dec 0 (1 - 0.05)); [|lra].
    rewrite practice_disabled
      by (unfold practice_applies; by rewrite Hpractice).
    rewrite clamped_nonneg; [done|].
    pose proof (Rpower_pos (1 - 0.05) (years / 10)). nra. }
  destruct (simulate_client_quiet cfg c "decline" (λ _, 0)) with
    (corr_tests := corr_tests) (corr_L := corr_L) (g := g)
    as (mean5 & mean10 & g' & Hrun & Hmeans & _).
  - rewrite Htests. apply NoDup_singleton.
  - rewrite Htests. intros t ->%list_elem_of_singleton.
    split_and!; try done; [|by rewrite Hdata]. exists 0.05. split; [done|]. lra.
  - done.
  - done.
  - rewrite Htests. intros t ->%list_elem_of_singleton.
    eexists _, _. split; apply Hval; lra.
  - lia.
  - destruct (Hmeans "VO2 max") as [H5 H10]; [rewrite Htests; left|].
    unfold quiet_value_or_0 in H5, H10. rewrite Hval in H5, H10 by lra.
    exists mean5, mean10, g', (40 * Rpower (1 - 0.05) (5 / 10)),
      (40 * Rpower (1 - 0.05) (10 / 10)).
    split_and!; try done.
    + replace (5 / 10) with (/ 2) by lra. rewrite Rpower_sqrt by lra.
      replace (1 - 0.05) with 0.95 by lra.
      pose proof sqrt_095_bounds. apply Rabs_def1; lra.
    + replace (10 / 10) with 1 by lra. rewrite Rpower_1; lra.
    + replace (10 / 10) with 1 by lra. rewrite Rpower_1; lra.
Qed.

Lemma square_nil : square 0 [].
Proof. split; [done|]. intros i row H. by rewrite lookup_nil in H. Qed.

Lemma vo2max_decline_scenario_witness :
  ∃ mean5 mean10 g' v5 v10,
    simulate_client vo2_client vo2_cfg [] [] "decline" example_rng
    = Ok (mean5, mean10, g') ∧
    mean5 !! "VO2 max" = Some v5 ∧ mean10 !! "VO2 max" = Some v10 ∧
    v5 = 40 * Rpower (1 - 0.05) 0.5 ∧ Rabs (v5 - 39) < 0.02 ∧
    v10 = 40 * (1 - 0.05) ∧ v10 = 38.
Proof.
  apply (vo2max_decline_scenario vo2_cfg vo2_client [] [] example_rng).
  - reflexivity.
  - left.
  - apply not_elem_of_nil.
  - apply lookup_singleton_eq.
  - apply lookup_empty.
  - apply lookup_singleton_eq.
  - apply lookup_singleton_eq.
  - reflexivity.
  - reflexivity.
  - reflexivity.
  - apply lookup_singleton_eq.
  - apply square_nil.
Defined.

(** ** Quiet values in closed form *)

Lemma clamped_mono test mln allow x y :
  x <= y → clamped test mln allow x <= clamped test mln allow y.
Proof.
  intros Hxy. unfold clamped.
  repeat (case_decide || destruct (Rle_dec _ _) || destruct (Rlt_dec _ _));
    lra.
Qed.

Lemma clamped_ge test mln allow x : x <= clamped test mln allow x.
Proof.
  unfold clamped.
  repeat (case_decide || destruct (Rle_dec _ _) || destruct (Rlt_dec _ _));
    lra.
Qed.

Lemma bounded_rates_decline cfg t mu :
  base_rate_per_decade (decline cfg) !! t = Some mu →
  bounded_rates cfg t →
  bool_decide (t ∈ absolute_decline_set cfg) = true ∨
  (-1 <= Rmax 0 mu <= 1 ∧
   ∀ p, post_rate_per_decade (decline cfg) !! t = Some p → -1 <= p <= 1).
Proof.
  intros Hmu [Habs|[Hbase Hpost]].
  - left. by apply bool_decide_eq_true_2.
  - right. split; [|done]. specialize (Hbase mu Hmu).
    unfold Rmax. destruct (Rle_dec 0 mu); lra.
Qed.

Lemma quiet_value_closed cfg c scenario imp years t mu :
  base_rate_per_decade (decline cfg) !! t = Some mu →
  bounded_rates cfg t →
  let mln := set_of (measurement_lognormal cfg) in
  let allow := allow_negative_set cfg in
  let v0 := clamped t mln allow (baseline_or_0 c t) in
  let d value age_start years :=
    decline_value value age_start years (Rmax 0 mu)
      (post_rate_per_decade (decline cfg) !! t)
      (accelerate_from_age (decline cfg) !! t)
      (bool_decide (t ∈ set_of (higher_is_better cfg)))
      (bool_decide (t ∈ absolute_decline_set cfg)) in
  quiet_value cfg c scenario imp years t
  = Ok (clamped t mln allow
          (practice cfg years t
             (if decide (scenario = "improvement")
              then d (improve cfg t v0 (imp t)) (age_or_0 (age c) + 1) (years - 1)
              else d v0 (age_or_0 (age c)) years))).
Proof.
  intros Hmu Hb. cbv zeta. unfold quiet_value, dict_get.
  rewrite Hmu, bind_Ok. cbv zeta.
  pose proof (bounded_rates_decline cfg t mu Hmu Hb) as Hb'.
  destruct (decide (scenario = "improvement"));
    by rewrite apply_decline_value.
Qed.

(** ** Direction of the simulated means *)

Lemma quiet_values_defined cfg c scenario imp :
  (∀ t, t ∈ tests_order cfg → quiet cfg c t ∧ bounded_rates cfg t) →
  ∀ t, t ∈ tests_order cfg →
    ∃ v5 v10, quiet_value cfg c scenario imp 5 t = Ok v5 ∧
              quiet_value cfg c scenario imp 10 t = Ok v10.
Proof.
  intros Hall t Ht. destruct (Hall t Ht) as [((mu & Hmu & _) & _) Hb].
  eexists _, _. split; by apply quiet_value_closed with (mu := mu).
Qed.

(** C2, as the code has it.  When no test carries measurement noise or
    rate uncertainty (and, under "improvement", the improvement fractions
    are fixed), for a test that the practice effect does not touch and
    whose post rate is not negative, the means move in the direction of
    decline in both scenarios, from the de-noised baseline under "decline"
    and from the improved de-noised baseline under "improvement": if higher
    is better, mean at year 10 ≤ mean at year 5 ≤ starting value; otherwise
    starting value ≤ mean at year 5 ≤ mean at year 10.  Under "decline" the
    starting value of a higher-is-better test is the baseline itself unless
    a negative baseline is clamped to zero, and the baseline is at most the
    mean at year 5 otherwise. *)
Theorem means_move_with_decline (cfg : config) (c : client) (imp : string → R)
    (scenario : string) (corr_tests : list string) (corr_L : list (list R))
    (g : rng) (t : string) (b : R) :
  NoDup (tests_order cfg) →
  (∀ t', t' ∈ tests_order cfg → quiet cfg c t' ∧ bounded_rates cfg t') →
  (scenario = "improvement" → fixed_improvement cfg c imp) →
  square (length corr_tests) corr_L →
  (0 < n_sim cfg)%Z →
  t ∈ tests_order cfg →
  data c !! t = Some (Some b) →
  practice_applies cfg 5 t = false →
  practice_applies cfg 10 t = false →
  (∀ p, post_rate_per_decade (decline cfg) !! t = Some p → 0 <= p) →
  let mln := set_of (measurement_lognormal cfg) in
  let allow := allow_negative_set cfg in
  let start :=
    if decide (scenario = "improvement")
    then improve cfg t (clamped t mln allow b) (imp t)
    else clamped t mln allow b in
  ∃ mean5 mean10 g' v5 v10,
    simulate_client c cfg corr_tests corr_L scenario g = Ok (mean5, mean10, g') ∧
    mean5 !! t = Some v5 ∧ mean10 !! t = Some v10 ∧
    (t ∈ higher_is_better cfg →
       v10 <= v5 ∧ v5 <= clamped t mln allow start ∧
       (scenario ≠ "improvement" →
        (0 <= b ∨ ((t ∉ measurement_lognormal cfg) ∧ t ∈ allow)) → v5 <= b)) ∧
    (t ∉ higher_is_better cfg →
       clamped t mln allow start <= v5 ∧ v5 <= v10 ∧
       (scenario ≠ "improvement" → b <= v5)).
Proof.
  intros Hnd Hall Hfixed Hsq Hn Ht Hdata Hp5 Hp10 Hpost mln allow start.
  destruct (simulate_client_quiet cfg c scenario imp Hnd) with
    (corr_tests := corr_tests) (corr_L := corr_L) (g := g)
    as (mean5 & mean10 & g' & Hrun & Hmeans & _); try done.
  { intros t' Ht'. by apply Hall. }
  { by apply quiet_values_defined. }
  destruct (Hmeans t Ht) as [H5 H10].
  destruct (Hall t Ht) as [((mu & Hmu & _) & _) Hb].
  unfold quiet_value_or_0 in H5, H10.
  rewrite (quiet_value_closed cfg c scenario imp 5 t mu Hmu Hb) in H5.
  rewrite (quiet_value_closed cfg c scenario imp 10 t mu Hmu Hb) in H10.
  cbv zeta in H5, H10.
  rewrite practice_disabled in H5, H10 by done.
  unfold baseline_or_0 in H5, H10. rewrite Hdata in H5, H10.
  fold mln allow in H5, H10.
  set (hib := bool_decide (t ∈ set_of (higher_is_better cfg))) in *.
  set (absd := bool_decide (t ∈ absolute_decline_set cfg)) in *.
  set (rp := post_rate_per_decade (decline cfg) !! t) in *.
  set (accel := accelerate_from_age (decline cfg) !! t) in *.
  assert (0 <= Rmax 0 mu) as Hr by apply Rmax_l.
  assert (0 <= default (Rmax 0 mu) rp) as Hrp.
  { destruct rp as [p|] eqn:E; simpl; [by apply Hpost|done]. }
  assert (absd = true ∨ (Rmax 0 mu <= 1 ∧ default (Rmax 0 mu) rp <= 1)) as Hbound.
  { destruct (bounded_rates_decline cfg t mu Hmu Hb) as [?|[Hb1 Hb2]]; [by left|].
    right. split; [lra|]. destruct rp as [p|] eqn:E; simpl; [|lra].
    by apply Hb2. }
  assert (∃ age_start y5 y10,
            0 <= y5 ∧ y5 <= y10 ∧
            mean5 !! t = Some (clamped t mln allow
              (decline_value start age_start y5 (Rmax 0 mu) rp accel hib absd)) ∧
            mean10 !! t = Some (clamped t mln allow
              (decline_value start age_start y10 (Rmax 0 mu) rp accel hib absd)))
    as (age_start & y5 & y10 & Hy5 & Hy & H5' & H10').
  { unfold start. destruct (decide (scenario = "improvement")).
    - exists (age_or_0 (age c) + 1), (5 - 1), (10 - 1). split_and!; try done; lra.
    - exists (age_or_0 (age c)), 5, 10. split_and!; try done; lra. }
  pose proof (decline_value_mono start age_start y5 y10 (Rmax 0 mu) rp accel
                hib absd Hr Hrp Hbound Hy5 Hy) as Hmono.
  cbv zeta in Hmono.
  set (d5 := decline_value start age_start y5 (Rmax 0 mu) rp accel hib absd) in *.
  set (d10 := decline_value start age_start y10 (Rmax 0 mu) rp accel hib absd) in *.
  exists mean5, mean10, g', (clamped t mln allow d5), (clamped t mln allow d10).
  split_and!; try done.
  - intros Hin. assert (hib = true) as Hhib.
    { apply bool_decide_eq_true_2. unfold set_of. by apply elem_of_list_to_set. }
    rewrite Hhib in Hmono. destruct Hmono as [H105 H5v].
    assert (clamped t mln allow d5 <= clamped t mln allow start) as Hle
      by (by apply clamped_mono).
    split_and!; [by apply clamped_mono|done|].
    intros Hs Hcase. unfold start in Hle. rewrite decide_False in Hle by done.
    rewrite clamped_idemp in Hle.
    replace b with (clamped t mln allow b); [done|].
    destruct Hcase as [Hb0|[Hadd Hallow]].
    + by apply clamped_nonneg.
    + apply clamped_allowed; [|done]. unfold mln, set_of.
      by rewrite elem_of_list_to_set.
  - intros Hnin. assert (hib = false) as Hhib.
    { apply bool_decide_eq_false_2. unfold set_of. by rewrite elem_of_list_to_set. }
    rewrite Hhib in Hmono. destruct Hmono as [Hv5 H510].
    assert (clamped t mln allow start <= clamped t mln allow d5) as Hle
      by (by apply clamped_mono).
    split_and!; [done|by apply clamped_mono|].
    intros Hs. unfold start in Hle. rewrite decide_False in Hle by done.
    rewrite clamped_idemp in Hle.
    pose proof (clamped_ge t mln allow b). lra.
Qed.

(** ** The VO2 max example *)

Lemma vo2_well_configured t :
  t ∈ tests_order vo2_cfg → quiet vo2_cfg vo2_client t ∧ bounded_rates vo2_cfg t.
Proof.
  intros ->%list_elem_of_singleton. split; [split_and!|].
  - exists 0.05. split; [apply lookup_singleton_eq|]. lra.
  - apply lookup_singleton_eq.
  - apply lookup_singleton_eq.
  - simpl. by rewrite lookup_singleton_eq.
  - right. simpl. split.
    + intros mu. rewrite lookup_singleton_eq. intros [= <-]. lra.
    + intros p. by rewrite lookup_empty.
Qed.

Lemma vo2_improvement_fixed :
  fixed_improvement vo2_cfg vo2_client (λ _, 0.1).
Proof.
  intros t g ->%list_elem_of_singleton.
  unfold sample_improvement_fraction. rewrite decide_True by done. simpl.
  destruct (Rlt_dec 45 50); [|lra].
  eexists. unfold uniform. simpl. do 2 f_equal. lra.
Qed.

Lemma vo2_not_absolute : "VO2 max" ∉ absolute_decline_set vo2_cfg.
Proof.
  unfold absolute_decline_set, set_of. rewrite elem_of_list_to_set.
  apply not_elem_of_nil.
Qed.

Lemma vo2_higher : "VO2 max" ∈ set_of (higher_is_better vo2_cfg).
Proof. unfold set_of. apply elem_of_list_to_set. left. Qed.

Lemma vo2_not_lower : "VO2 max" ∉ set_of (lower_is_better vo2_cfg).
Proof.
  unfold set_of. rewrite elem_of_list_to_set. apply not_elem_of_nil.
Qed.

(** The value of a draw for the example under "improvement" with the
    fraction 0.1: the jump, then [years - 1] years of decline. *)
Lemma vo2_improvement_value years :
  1 < years →
  quiet_value vo2_cfg vo2_client "improvement" (λ _, 0.1) years "VO2 max"
  = Ok (40 * (1 + 0.1) * Rpower (1 - 0.05) ((years - 1) / 10)).
Proof.
  intros Hy.
  rewrite (quiet_value_closed _ _ _ _ _ _ 0.05);
    [|apply lookup_singleton_eq|apply vo2_well_configured; left].
  cbv zeta. rewrite decide_True by done.
  rewrite practice_disabled by done.
  assert (baseline_or_0 vo2_client "VO2 max" = 40) as ->.
  { unfold baseline_or_0. simpl. by rewrite lookup_singleton_eq. }
  rewrite (clamped_nonneg _ _ _ 40) by lra.
  assert (improve vo2_cfg "VO2 max" 40 0.1 = 40 * (1 + 0.1)) as ->.
  { unfold improve. rewrite decide_False by apply vo2_not_absolute.
    rewrite decide_False by apply vo2_not_lower.
    destruct (Rle_dec 0 40); [done|lra]. }
  rewrite bool_decide_eq_true_2 by apply vo2_higher.
  rewrite bool_decide_eq_false_2 by apply vo2_not_absolute.
  simpl. rewrite !lookup_empty.
  unfold decline_value. destruct (Rle_dec (years - 1) 0); [lra|].
  simpl. rewrite Rmax_right by lra.
  unfold seg_value at 2. destruct (Rle_dec (years - 1) 0); [lra|].
  destruct (Rle_dec 0 (40 * (1 + 0.1))); [|lra].
  destruct (Rlt_dec 0 (1 - 0.05)); [|lra].
  unfold seg_value. destruct (Rle_dec 0 0); [|lra].
  rewrite clamped_nonneg; [done|].
  pose proof (Rpower_pos (1 - 0.05) ((years - 1) / 10)). nra.
Qed.

Lemma means_move_with_decline_witness :
  let mln := set_of (measurement_lognormal vo2_cfg) in
  let allow := allow_negative_set vo2_cfg in
  let start :=
    if decide ("decline" = "improvement")
    then improve vo2_cfg "VO2 max" (clamped "VO2 max" mln allow 40) 0.1
    else clamped "VO2 max" mln allow 40 in
  ∃ mean5 mean10 g' v5 v10,
    simulate_client vo2_client vo2_cfg [] [] "decline" example_rng
    = Ok (mean5, mean10, g') ∧
    mean5 !! "VO2 max" = Some v5 ∧ mean10 !! "VO2 max" = Some v10 ∧
    ("VO2 max" ∈ higher_is_better vo2_cfg →
       v10 <= v5 ∧ v5 <= clamped "VO2 max" mln allow start ∧
       ("decline" ≠ "improvement" →
        (0 <= 40 ∨ (("VO2 max" ∉ measurement_lognormal vo2_cfg) ∧
                    "VO2 max" ∈ allow)) → v5 <= 40)) ∧
    ("VO2 max" ∉ higher_is_better vo2_cfg →
       clamped "VO2 max" mln allow start <= v5 ∧ v5 <= v10 ∧
       ("decline" ≠ "improvement" → 40 <= v5)).
Proof.
  apply (means_move_with_decline vo2_cfg vo2_client (λ _, 0.1) "decline" [] []
           example_rng "VO2 max" 40).
  - apply NoDup_singleton.
  - apply vo2_well_configured.
  - discriminate.
  - apply square_nil.
  - reflexivity.
  - left.
  - apply lookup_singleton_eq.
  - reflexivity.
  - reflexivity.
  - intros p. simpl. rewrite lookup_empty. discriminate.
Defined.

(** C2 fails for "improvement": with the fraction fixed at 0.1 and no
    noise, the mean of VO2 max (higher is better) at year 10 is below the
    mean at year 5. *)
Lemma improvement_means_not_increasing :
  ∃ mean5 mean10 g' v5 v10,
    "VO2 max" ∈ higher_is_better vo2_cfg ∧
    measurement_cv vo2_cfg !! "VO2 max" = Some 0 ∧
    rate_uncertainty_cv vo2_cfg !! "VO2 max" = Some 0 ∧
    simulate_client vo2_client vo2_cfg [] [] "improvement" example_rng
    = Ok (mean5, mean10, g') ∧
    mean5 !! "VO2 max" = Some v5 ∧ mean10 !! "VO2 max" = Some v10 ∧
    ¬ (v10 >= v5).
Proof.
  destruct (simulate_client_quiet vo2_cfg vo2_client "improvement" (λ _, 0.1))
    with (corr_tests := @nil string) (corr_L := @nil (list R)) (g := example_rng)
    as (mean5 & mean10 & g' & Hrun & Hmeans & _).
  - apply NoDup_singleton.
  - intros t Ht. by apply vo2_well_configured.
  - intros _. apply vo2_improvement_fixed.
  - apply square_nil.
  - apply quiet_values_defined, vo2_well_configured.
  - reflexivity.
  - destruct (Hmeans "VO2 max") as [H5 H10]; [left|].
    unfold quiet_value_or_0 in H5, H10.
    rewrite vo2_improvement_value in H5, H10 by lra.
    eexists mean5, mean10, g', _, _. split_and!; try done.
    + left.
    + intros Hge. apply Rge_le in Hge.
      assert (Rpower (1 - 0.05) ((10 - 1) / 10) < Rpower (1 - 0.05) ((5 - 1) / 10)).
      { unfold Rpower. apply exp_increasing.
        assert (ln (1 - 0.05) < 0).
        { rewrite <- ln_1. apply ln_increasing; lra. }
        nra. }
      nra.
Qed.

Lemma practised_well_configured t :
  t ∈ tests_order practised_cfg →
  quiet practised_cfg vo2_client t ∧ bounded_rates practised_cfg t.
Proof.
  intros ->%list_elem_of_singleton. split; [split_and!|].
  - exists 0.05. split; [apply lookup_singleton_eq|]. lra.
  - apply lookup_singleton_eq.
  - apply lookup_singleton_eq.
  - simpl. by rewrite lookup_singleton_eq.
  - right. simpl. split.
    + intros mu. rewrite lookup_singleton_eq. intros [= <-]. lra.
    + intros p. by rewrite lookup_empty.
Qed.

(** Why the practice effect is excluded above: where it applies, the mean
    of a declining higher-is-better test can exceed the baseline. *)
Lemma practice_effect_exceeds_baseline :
  ∃ mean5 mean10 g' v5,
    simulate_client vo2_client practised_cfg [] [] "decline" example_rng
    = Ok (mean5, mean10, g') ∧
    mean5 !! "VO2 max" = Some v5 ∧ 40 < v5.
Proof.
  destruct (simulate_client_quiet practised_cfg vo2_client "decline" (λ _, 0))
    with (corr_tests := @nil string) (corr_L := @nil (list R)) (g := example_rng)
    as (mean5 & mean10 & g' & Hrun & Hmeans & _).
  - apply NoDup_singleton.
  - intros t Ht. by apply practised_well_configured.
  - done.
  - apply square_nil.
  - apply quiet_values_defined, practised_well_configured.
  - reflexivity.
  - destruct (Hmeans "VO2 max") as [H5 _]; [left|].
    unfold quiet_value_or_0 in H5.
    rewrite (quiet_value_closed _ _ _ _ _ _ 0.05) in H5;
      [|apply lookup_singleton_eq|apply practised_well_configured; left].
    cbv zeta in H5. rewrite decide_False in H5 by done.
    assert (baseline_or_0 vo2_client "VO2 max" = 40) as Hb.
    { unfold baseline_or_0. simpl. by rewrite lookup_singleton_eq. }
    rewrite Hb in H5. rewrite (clamped_nonneg _ _ _ 40) in H5 by lra.
    assert ("VO2 max" ∉ absolute_decline_set practised_cfg) as Habs.
    { unfold absolute_decline_set, set_of. rewrite elem_of_list_to_set.
      apply not_elem_of_nil. }
    assert ("VO2 max" ∈ set_of (higher_is_better practised_cfg)) as Hhib.
    { unfold set_of. apply elem_of_list_to_set. left. }
    rewrite (bool_decide_eq_true_2 _ Hhib) in H5.
    rewrite (bool_decide_eq_false_2 _ Habs) in H5.
    assert (decline_value 40 (age_or_0 (age vo2_client)) 5 (Rmax 0 0.05)
              (post_rate_per_decade (decline practised_cfg) !! "VO2 max")
              (accelerate_from_age (decline practised_cfg) !! "VO2 max")
              true false
            = 40 * Rpower (1 - 0.05) (5 / 10)) as Hd.
    { simpl. rewrite !lookup_empty. unfold decline_value.
      destruct (Rle_dec 5 0); [lra|]. simpl. rewrite Rmax_right by lra.
      unfold seg_value at 2. destruct (Rle_dec 5 0); [lra|].
      destruct (Rle_dec 0 40); [|lra]. destruct (Rlt_dec 0 (1 - 0.05)); [|lra].
      unfold seg_value. destruct (Rle_dec 0 0); [done|lra]. }
    rewrite Hd in H5.
    pose proof (Rpower_pos (1 - 0.05) (5 / 10)) as Hpos.
    assert (0.97 < Rpower (1 - 0.05) (5 / 10)) as Hlow.
    { replace (5 / 10) with (/ 2) by lra. rewrite Rpower_sqrt by lra.
      replace (1 - 0.05) with 0.95 by lra. pose proof sqrt_095_bounds. lra. }
    assert (practice practised_cfg 5 "VO2 max" (40 * Rpower (1 - 0.05) (5 / 10))
            = 40 * Rpower (1 - 0.05) (5 / 10) * (1 + 0.1)) as Hp.
    { unfold practice, practice_applies. simpl.
      rewrite bool_decide_eq_true_2 by done. simpl.
      rewrite decide_False by apply Habs.
      destruct (Rle_dec 0 (40 * Rpower (1 - 0.05) (5 / 10))); [done|nra]. }
    rewrite Hp in H5. rewrite clamped_nonneg in H5 by nra.
    eexists mean5, mean10, g', _. split_and!; try done. nra.
Qed.

(** ** The improvement scenario *)

(** Whatever the inputs, the "improvement" branch draws the fraction,
    applies it, and declines from [age + 1] over [years - 1]. *)
Lemma scenario_value_improvement cfg c years test val rate rate_post g :
  scenario_value cfg c "improvement" years test val rate rate_post g
  = ('(imp, g') ← sample_improvement_fraction test (age c) (improvement cfg) g ;
     r ← dict_get rate test ;
     rp ← dict_get rate_post test ;
     v ← apply_decline (improve cfg test val imp) (age_or_0 (age c) + 1)
           (years - 1) r rp
           (accelerate_from_age (decline cfg) !! test)
           (bool_decide (test ∈ set_of (higher_is_better cfg)))
           (bool_decide (test ∈ absolute_decline_set cfg)) ;
     Ok (v, g')).
Proof. unfold scenario_value. by rewrite decide_True. Qed.

(** ** A test without a baseline *)

Lemma for_each_ext {A S : Type} (l : list A) (body body' : A → S → result S) s :
  (∀ x s, body x s = body' x s) → for_each l body s = for_each l body' s.
Proof.
  intros Hext. revert s. induction l as [|x l IH]; intros s; [done|].
  simpl. rewrite Hext. destruct (body' x s); [apply IH|done].
Qed.

Lemma true0_step_with_baseline cfg c t test st :
  data c !! t = None →
  true0_step cfg (with_baseline c t 0) test st = true0_step cfg c test st.
Proof.
  intros Hnone. unfold true0_step. destruct st as [true0 g]. simpl.
  destruct (decide (test = t)) as [->|Hne].
  - by rewrite lookup_insert_eq, Hnone.
  - by rewrite lookup_insert_ne.
Qed.

Lemma simulate_draw_with_baseline cfg c t corr_tests corr_L scenario st :
  data c !! t = None →
  simulate_draw cfg (with_baseline c t 0) corr_tests corr_L scenario st
  = simulate_draw cfg c corr_tests corr_L scenario st.
Proof.
  intros Hnone. unfold simulate_draw. destruct st as [[sums5 sums10] g].
  destruct (sample_correlated_z corr_L g) as [[z g1]|]; [|done].
  rewrite !bind_Ok.
  destruct (shock_map corr_tests z) as [zm|]; [|done]. rewrite !bind_Ok.
  destruct (for_each (tests_order cfg) (rate_step cfg zm) (∅, ∅, g1))
    as [[[rate rp] g2]|]; [|done].
  rewrite !bind_Ok.
  rewrite (for_each_ext _ (true0_step cfg (with_baseline c t 0))
             (true0_step cfg c))
    by (intros; by apply true0_step_with_baseline).
  reflexivity.
Qed.

Lemma means_keys tests sums n m t :
  means tests sums n = Ok m → t ∈ tests → is_Some (m !! t).
Proof.
  intros Hm Ht. unfold means in Hm.
  pose proof (for_each_inv
    (λ pre (m : gmap string R), ∀ t, t ∈ pre → is_Some (m !! t)) (λ _, True)
    tests
    (λ t (m : gmap string R),
       s ← dict_get sums t ; q ← py_div s (IZR n) ; Ok (<[t := q]> m)) ∅) as H.
  rewrite Hm in H. apply H; [| |done].
  - intros t' Hin. by apply elem_of_nil in Hin.
  - intros pre x post m0 _ Hpre.
    destruct (dict_get sums x) as [s|]; [|done]. rewrite bind_Ok.
    destruct (py_div s (IZR n)) as [q|]; [|done]. rewrite bind_Ok.
    intros t' Hin. destruct (decide (t' = x)) as [->|Hne].
    + rewrite lookup_insert_eq. by eexists.
    + rewrite lookup_insert_ne by done. apply Hpre. by eapply elem_of_snoc_ne.
Qed.

Lemma simulate_client_keys c cfg corr_tests corr_L scenario g mean5 mean10 g' t :
  simulate_client c cfg corr_tests corr_L scenario g = Ok (mean5, mean10, g') →
  t ∈ tests_order cfg → is_Some (mean5 !! t) ∧ is_Some (mean10 !! t).
Proof.
  unfold simulate_client. intros H Ht.
  apply bind_Ok_inv in H as ([[s5 s10] g1] & _ & H).
  apply bind_Ok_inv in H as (m5 & H5 & H).
  apply bind_Ok_inv in H as (m10 & H10 & [= <- <- <-]).
  split; by eapply means_keys.
Qed.

(** C1, as the code has it.  A test for which the client's data has no
    entry is not skipped: the run has the outcome it has when the baseline
    0.0 is recorded for that test, and when it succeeds both means of the
    test are computed and written in its row, after a blank baseline. *)
Theorem missing_baseline_defaults_to_zero (c : client) (cfg : config)
    (corr_tests : list string) (corr_L : list (list R)) (scenario : string)
    (g : rng) (t : string) :
  data c !! t = None →
  simulate_client c cfg corr_tests corr_L scenario g
  = simulate_client (with_baseline c t 0) cfg corr_tests corr_L scenario g ∧
  ∀ mean5 mean10 g',
    simulate_client c cfg corr_tests corr_L scenario g = Ok (mean5, mean10, g') →
    t ∈ tests_order cfg →
    ∃ v5 v10,
      mean5 !! t = Some v5 ∧ mean10 !! t = Some v10 ∧
      [CText t; CText ""; CNumber v5; CNumber v10]
        ∈ build_sheet_rows c mean5 mean10 (tests_order cfg).
Proof.
  intros Hnone. split.
  - unfold simulate_client.
    rewrite (for_each_ext _
               (λ _, simulate_draw cfg c corr_tests corr_L scenario)
               (λ _, simulate_draw cfg (with_baseline c t 0) corr_tests corr_L
                       scenario)); [done|].
    intros _ st. symmetry. by apply simulate_draw_with_baseline.
  - intros mean5 mean10 g' Hrun Ht.
    destruct (simulate_client_keys _ _ _ _ _ _ _ _ _ t Hrun Ht)
      as [[v5 H5] [v10 H10]].
    exists v5, v10. split_and!; try done.
    unfold build_sheet_rows. right.
    pose proof (in_map (λ t, [CText t; baseline_cell (data c) t;
                              get_or_blank mean5 t; get_or_blank mean10 t])
                  (tests_order cfg) t (proj1 (list_elem_of_In _ _) Ht)) as Hin.
    cbv beta in Hin. unfold baseline_cell at 1, get_or_blank at 1 2 in Hin.
    rewrite Hnone, H5, H10 in Hin. by apply list_elem_of_In.
Qed.

Lemma missing_baseline_defaults_to_zero_witness :
  simulate_client no_data_client cognitive_cfg [] [] "decline" example_rng
  = simulate_client (with_baseline no_data_client "Processing Speed" 0)
      cognitive_cfg [] [] "decline" example_rng ∧
  ∀ mean5 mean10 g',
    simulate_client no_data_client cognitive_cfg [] [] "decline" example_rng
    = Ok (mean5, mean10, g') →
    "Processing Speed" ∈ tests_order cognitive_cfg →
    ∃ v5 v10,
      mean5 !! "Processing Speed" = Some v5 ∧
      mean10 !! "Processing Speed" = Some v10 ∧
      [CText "Processing Speed"; CText ""; CNumber v5; CNumber v10]
        ∈ build_sheet_rows no_data_client mean5 mean10 (tests_order cognitive_cfg).
Proof.
  apply (missing_baseline_defaults_to_zero no_data_client cognitive_cfg [] []
           "decline" example_rng "Processing Speed").
  apply lookup_empty.
Defined.

(** A recorded baseline that is not a number, on the other hand, stops the
    run at the de-noising step. *)
Lemma non_numeric_baseline_raises cfg c t cv st :
  data c !! t = Some None →
  measurement_cv cfg !! t = Some cv →
  true0_step cfg c t st = Err TypeError.
Proof.
  intros Hdata Hcv. unfold true0_step. destruct st as [true0 g].
  rewrite Hdata. simpl. unfold infer_true_from_observed, dict_get.
  by rewrite Hcv.
Qed.

Lemma cognitive_well_configured t :
  t ∈ tests_order cognitive_cfg →
  quiet cognitive_cfg no_data_client t ∧ bounded_rates cognitive_cfg t.
Proof.
  intros ->%list_elem_of_singleton. split; [split_and!|].
  - exists 0.1. split; [apply lookup_singleton_eq|].
    by intros ?%elem_of_nil.
  - apply lookup_singleton_eq.
  - apply lookup_singleton_eq.
  - simpl. by rewrite lookup_empty.
  - left. unfold absolute_decline_set, set_of. apply elem_of_list_to_set. left.
Qed.

Lemma cognitive_decline_value imp years :
  0 < years →
  quiet_value cognitive_cfg no_data_client "decline" imp years "Processing Speed"
  = Ok (0 - 0.1 * (years / 10)).
Proof.
  intros Hy.
  rewrite (quiet_value_closed _ _ _ _ _ _ 0.1);
    [|apply lookup_singleton_eq|apply cognitive_well_configured; left].
  cbv zeta. rewrite decide_False by done.
  rewrite practice_disabled by done.
  assert (baseline_or_0 no_data_client "Processing Speed" = 0) as ->.
  { unfold baseline_or_0. simpl. by rewrite lookup_empty. }
  rewrite (clamped_nonneg _ _ _ 0) by lra.
  assert ("Processing Speed" ∈ absolute_decline_set cognitive_cfg) as Habs.
  { unfold absolute_decline_set, set_of. apply elem_of_list_to_set. left. }
  rewrite (bool_decide_eq_true_2 _ Habs).
  simpl. rewrite !lookup_empty.
  unfold decline_value. destruct (Rle_dec years 0); [lra|].
  simpl. rewrite Rmax_right by lra.
  unfold seg_value at 2. destruct (Rle_dec years 0); [lra|].
  unfold seg_value. destruct (Rle_dec 0 0); [|lra].
  rewrite clamped_allowed; [by rewrite (bool_decide_eq_true_2 _ Habs)| |].
  - unfold set_of. rewrite elem_of_list_to_set. apply not_elem_of_nil.
  - unfold allow_negative_set, set_of. apply elem_of_list_to_set. left.
Qed.

(** C1 fails: a client without any data is simulated all the same, from
    the baseline 0.0, and the means are written in the row of the test. *)
Lemma missing_baseline_is_simulated :
  data no_data_client !! "Processing Speed" = None ∧
  "Processing Speed" ∈ tests_order cognitive_cfg ∧
  ∃ mean5 mean10 g' v5 v10,
    simulate_client no_data_client cognitive_cfg [] [] "decline" example_rng
    = Ok (mean5, mean10, g') ∧
    mean5 !! "Processing Speed" = Some v5 ∧ v5 = -0.05 ∧
    mean10 !! "Processing Speed" = Some v10 ∧ v10 = -0.1 ∧
    build_sheet_rows no_data_client mean5 mean10 (tests_order cognitive_cfg)
    = [[CText "Test"; CText "Baseline"; CText "Year 5 Mean"; CText "Year 10 Mean"];
       [CText "Processing Speed"; CText ""; CNumber v5; CNumber v10]].
Proof.
  split; [apply lookup_empty|]. split; [left|].
  destruct (simulate_client_quiet cognitive_cfg no_data_client "decline" (λ _, 0))
    with (corr_tests := @nil string) (corr_L := @nil (list R)) (g := example_rng)
    as (mean5 & mean10 & g' & Hrun & Hmeans & _).
  - apply NoDup_singleton.
  - intros t Ht. by apply cognitive_well_configured.
  - done.
  - apply square_nil.
  - apply quiet_values_defined, cognitive_well_configured.
  - reflexivity.
  - destruct (Hmeans "Processing Speed") as [H5 H10]; [left|].
    unfold quiet_value_or_0 in H5, H10.
    rewrite cognitive_decline_value in H5, H10 by lra.
    eexists mean5, mean10, g', _, _. split_and!; try done; try lra.
    unfold build_sheet_rows, get_or_blank, baseline_cell. simpl.
    by rewrite lookup_empty, H5, H10.
Qed.

(** ** Sampled rates: claims *)

(** C10.  The lognormal branch of [sample_rate] takes the logarithm of the
    base rate: it returns a strictly positive rate when the base rate is
    strictly positive, and raises [ValueError] otherwise. *)
Theorem lognormal_rate_defined_iff_positive (test : string) (mu cv : R)
    (z : option R) (g : rng) :
  (0 < mu → ∃ r g', sample_rate test mu cv true z g = Ok (r, g') ∧ 0 < r) ∧
  (mu <= 0 → sample_rate test mu cv true z g = Err ValueError).
Proof.
  split.
  - intros Hmu. rewrite sample_rate_lognormal_ok by done.
    eexists _, _. split; [done|]. apply exp_pos.
  - apply sample_rate_lognormal_err.
Qed.

Lemma lognormal_rate_defined_iff_positive_witness :
  ∃ r g', sample_rate "HbA1c" 0.05 0.2 true None example_rng = Ok (r, g') ∧ 0 < r.
Proof.
  apply (proj1 (lognormal_rate_defined_iff_positive "HbA1c" 0.05 0.2 None
                  example_rng)).
  lra.
Defined.

(** What one pass of the rate loop records for a test. *)
Lemma rate_step_ok cfg z_map test rate rate_post g mu cv :
  base_rate_per_decade (decline cfg) !! test = Some mu →
  rate_uncertainty_cv cfg !! test = Some cv →
  (test ∈ rate_lognormal cfg → 0 < mu) →
  let z := (shock_or_draw (z_map !! test) g).1 in
  let r := if bool_decide (test ∈ set_of (rate_lognormal cfg))
           then exp (ln mu + sqrt (ln (1 + cv * cv)) * z)
           else Rmax 0 (mu + Rabs mu * cv * z) in
  rate_step cfg z_map test (rate, rate_post, g)
  = Ok (<[test := r]> rate,
        <[test := (λ post_mu, scaled_post_rate post_mu r mu)
                  <$> (post_rate_per_decade (decline cfg) !! test)]> rate_post,
        (shock_or_draw (z_map !! test) g).2).
Proof.
  intros Hmu Hcv Hln. cbv zeta. unfold rate_step, dict_get.
  rewrite Hmu, Hcv, !bind_Ok.
  destruct (bool_decide (test ∈ set_of (rate_lognormal cfg))) eqn:E.
  - rewrite sample_rate_lognormal_ok.
    + rewrite bind_Ok.
      by destruct (post_rate_per_decade (decline cfg) !! test).
    + apply Hln. apply bool_decide_eq_true_1 in E.
      unfold set_of in E. by apply elem_of_list_to_set in E.
  - rewrite sample_rate_normal_ok, bind_Ok.
    by destruct (post_rate_per_decade (decline cfg) !! test).
Qed.

(** The base rate of a lognormal test goes from the configuration into the
    logarithm as it is. *)
Lemma rate_step_lognormal_nonpositive cfg z_map test st mu cv :
  base_rate_per_decade (decline cfg) !! test = Some mu →
  rate_uncertainty_cv cfg !! test = Some cv →
  test ∈ rate_lognormal cfg → mu <= 0 →
  rate_step cfg z_map test st = Err ValueError.
Proof.
  intros Hmu Hcv Hln Hle. destruct st as [[rate rate_post] g].
  unfold rate_step, dict_get. rewrite Hmu, Hcv, !bind_Ok.
  rewrite bool_decide_eq_true_2
    by (unfold set_of; by apply elem_of_list_to_set).
  by rewrite sample_rate_lognormal_err.
Qed.




(** C7, as the code has it.  For a test with a configured post rate, the
    post rate of a draw is the configured one times sampled/mu when mu > 0,
    which keeps the relative deviation of the draw, and the configured one
    unscaled when mu <= 0. *)
Theorem post_rate_scaling (cfg : config) (z_map : gmap string R) (test : string)
    (st : gmap string R * gmap string (option R) * rng)
    (rate' : gmap string R) (rate_post' : gmap string (option R)) (g' : rng)
    (mu post_mu : R) :
  base_rate_per_decade (decline cfg) !! test = Some mu →
  post_rate_per_decade (decline cfg) !! test = Some post_mu →
  rate_step cfg z_map test st = Ok (rate', rate_post', g') →
  ∃ r p,
    rate' !! test = Some r ∧ rate_post' !! test = Some (Some p) ∧
    (0 < mu → p = post_mu * (r / mu) ∧ (post_mu ≠ 0 → p / post_mu = r / mu)) ∧
    (mu <= 0 → p = post_mu).
Proof.
  intros Hmu Hpost Hstep. destruct st as [[rate rate_post] g].
  unfold rate_step, dict_get in Hstep. rewrite Hmu, bind_Ok in Hstep.
  apply bind_Ok_inv in Hstep as (cv & _ & Hstep).
  apply bind_Ok_inv in Hstep as ([r g1] & _ & Hstep).
  rewrite Hpost in Hstep. injection Hstep as <- <- <-.
  exists r, (scaled_post_rate post_mu r mu).
  rewrite !lookup_insert_eq. split_and!; try done.
  - intros Hpos. unfold scaled_post_rate. destruct (Rlt_dec 0 mu); [|lra].
    split; [done|]. intros Hne. field. split; lra.
  - intros Hle. unfold scaled_post_rate. destruct (Rlt_dec 0 mu); [lra|done].
Qed.

Lemma aging_rate_step :
  rate_step aging_cfg ∅ "VO2 max" (∅, ∅, example_rng)
  = Ok (<["VO2 max" := Rmax 0 (0.05 + Rabs 0.05 * 0.2 * (0 + (INR 0 - 1) * 1))]> ∅,
        <["VO2 max" :=
            Some (scaled_post_rate 0.1
                    (Rmax 0 (0.05 + Rabs 0.05 * 0.2 * (0 + (INR 0 - 1) * 1)))
                    0.05)]> ∅,
        (next_normal example_rng).2).
Proof.
  rewrite (rate_step_ok aging_cfg ∅ "VO2 max" ∅ ∅ example_rng 0.05 0.2);
    [|apply lookup_singleton_eq|apply lookup_singleton_eq|intros _; lra].
  rewrite bool_decide_eq_false_2.
  - simpl. by rewrite lookup_singleton_eq.
  - unfold set_of. rewrite elem_of_list_to_set. apply not_elem_of_nil.
Qed.

Lemma post_rate_scaling_witness :
  ∃ rate' rate_post' g',
    rate_step aging_cfg ∅ "VO2 max" (∅, ∅, example_rng)
    = Ok (rate', rate_post', g') ∧
    ∃ r p,
      rate' !! "VO2 max" = Some r ∧ rate_post' !! "VO2 max" = Some (Some p) ∧
      (0 < 0.05 → p = 0.1 * (r / 0.05) ∧ (0.1 ≠ 0 → p / 0.1 = r / 0.05)) ∧
      (0.05 <= 0 → p = 0.1).
Proof.
  eexists _, _, _. split; [apply aging_rate_step|].
  apply (post_rate_scaling aging_cfg ∅ "VO2 max" (∅, ∅, example_rng) _ _
           (next_normal example_rng).2 0.05 0.1).
  - apply lookup_singleton_eq.
  - apply lookup_singleton_eq.
  - apply aging_rate_step.
Defined.

(** C7 fails where the base rate is not positive: the sampled rate is
    clamped to 0, so post × sampled/mu is 0, and the post rate used is the
    configured 0.2. *)
Lemma post_rate_not_scaled :
  ∃ rate' rate_post' g' r p,
    base_rate_per_decade (decline reversed_cfg) !! "VO2 max" = Some (-0.1) ∧
    post_rate_per_decade (decline reversed_cfg) !! "VO2 max" = Some 0.2 ∧
    rate_step reversed_cfg ∅ "VO2 max" (∅, ∅, example_rng)
    = Ok (rate', rate_post', g') ∧
    rate' !! "VO2 max" = Some r ∧ rate_post' !! "VO2 max" = Some (Some p) ∧
    p ≠ 0.2 * (r / -0.1).
Proof.
  eexists _, _, _, 0, 0.2. split_and!.
  - apply lookup_singleton_eq.
  - apply lookup_singleton_eq.
  - rewrite (rate_step_ok reversed_cfg ∅ "VO2 max" ∅ ∅ example_rng (-0.1) 0);
      [done|apply lookup_singleton_eq|apply lookup_singleton_eq|].
    by intros ?%elem_of_nil.
  - rewrite lookup_insert_eq. f_equal.
    rewrite bool_decide_eq_false_2
      by (unfold set_of; rewrite elem_of_list_to_set; apply not_elem_of_nil).
    rewrite Rmax_left; [done|].
    unfold Rabs. destruct (Rcase_abs (-0.1)); lra.
  - rewrite lookup_insert_eq. simpl. rewrite lookup_singleton_eq. simpl.
    do 2 f_equal. unfold scaled_post_rate. destruct (Rlt_dec 0 (-0.1)); [lra|done].
  - lra.
Qed.

(** ** De-noising and re-noising *)

Lemma apply_decline_zero_years value age_start rate rate_post accel_age hib absd :
  apply_decline value age_start 0 rate rate_post accel_age hib absd = Ok value.
Proof. unfold apply_decline. destruct (Rle_dec 0 0); [done|lra]. Qed.

Lemma round_trip_clamped test obs (measurement_cv : gmap string R) mln allow
    age_start rate rate_post accel_age hib absd g :
  measurement_cv !! test = Some 0 →
  ∃ g',
    zero_horizon_round_trip test obs measurement_cv mln allow age_start rate
      rate_post accel_age hib absd g = Ok (clamped test mln allow obs, g').
Proof.
  intros Hcv. unfold zero_horizon_round_trip.
  destruct (infer_true_cv0 test obs measurement_cv mln allow g Hcv) as [g1 ->].
  rewrite bind_Ok, apply_decline_zero_years, bind_Ok.
  destruct (apply_noise_cv0 test (clamped test mln allow obs) measurement_cv
              mln allow g1 Hcv) as [g2 ->].
  exists g2. by rewrite clamped_idemp.
Qed.

(** C8, as the code has it.  With a measurement coefficient of variation
    of 0, de-noising a baseline, declining over zero years and re-noising
    returns the baseline where no step clamps it, that is when it is not
    negative or when the test has additive noise and allows negative
    values; a negative baseline is returned as 0.0 otherwise. *)
Theorem zero_noise_round_trip (test : string) (obs : R)
    (measurement_cv : gmap string R) (mln allow : gset string)
    (age_start rate : R) (rate_post accel_age : option R) (hib absd : bool)
    (g : rng) :
  measurement_cv !! test = Some 0 →
  ∃ v g',
    zero_horizon_round_trip test obs measurement_cv mln allow age_start rate
      rate_post accel_age hib absd g = Ok (v, g') ∧
    (0 <= obs ∨ ((test ∉ mln) ∧ test ∈ allow) → v = obs) ∧
    (obs < 0 → test ∈ mln ∨ test ∉ allow → v = 0).
Proof.
  intros Hcv.
  destruct (round_trip_clamped test obs measurement_cv mln allow age_start rate
              rate_post accel_age hib absd g Hcv) as [g' Hrun].
  exists (clamped test mln allow obs), g'. split_and!; [done| |].
  - intros [Hpos|[Hadd Hallow]].
    + by apply clamped_nonneg.
    + by apply clamped_allowed.
  - intros Hneg Hcase. by apply clamped_negative.
Qed.

Lemma zero_noise_round_trip_witness :
  ∃ v g',
    zero_horizon_round_trip "VO2 max" 40 {["VO2 max" := 0]} ∅ ∅ 45 0.05
      None None true false example_rng = Ok (v, g') ∧
    (0 <= 40 ∨ (("VO2 max" ∉ (∅ : gset string)) ∧ "VO2 max" ∈ (∅ : gset string))
     → v = 40) ∧
    (40 < 0 → "VO2 max" ∈ (∅ : gset string) ∨ "VO2 max" ∉ (∅ : gset string)
     → v = 0).
Proof.
  apply (zero_noise_round_trip "VO2 max" 40 {["VO2 max" := 0]} ∅ ∅ 45 0.05
           None None true false example_rng).
  apply lookup_singleton_eq.
Defined.

(** C8 fails for a negative baseline of a test that does not allow
    negative values: the round trip returns 0.0. *)
Lemma negative_baseline_is_clamped :
  ({["VO2 max" := 0]} : gmap string R) !! "VO2 max" = Some 0 ∧
  ∃ v g',
    zero_horizon_round_trip "VO2 max" (-1) {["VO2 max" := 0]} ∅ ∅ 45 0.05
      None None true false example_rng = Ok (v, g') ∧
    v ≠ -1.
Proof.
  split; [apply lookup_singleton_eq|].
  destruct (round_trip_clamped "VO2 max" (-1) {["VO2 max" := 0]} ∅ ∅ 45 0.05
              None None true false example_rng) as [g' Hrun];
    [apply lookup_singleton_eq|].
  exists (clamped "VO2 max" ∅ ∅ (-1)), g'. split; [done|].
  rewrite clamped_negative; [lra|lra|]. right. apply not_elem_of_empty.
Qed.

(** ** The two-test example *)

(** Decides the comparisons of a closed computation, one at a time. *)
Ltac run_step :=
  match goal with
  | |- context [decide (?a < ?b)%nat] =>
      first [rewrite (decide_True (P := (a < b)%nat)) by lia
            |rewrite (decide_False (P := (a < b)%nat)) by lia]
  | |- context [decide (?a = ?b :> nat)] =>
      first [rewrite (decide_True (P := (a = b))) by lia
            |rewrite (decide_False (P := (a = b))) by lia]
  | |- context [Rle_dec ?a ?b] =>
      destruct (Rle_dec a b); [try (exfalso; lra)|try (exfalso; lra)]
  | |- context [Rlt_dec ?a ?b] =>
      destruct (Rlt_dec a b); [try (exfalso; lra)|try (exfalso; lra)]
  | |- context [Req_dec_T ?a ?b] =>
      destruct (Req_dec_T a b); [try (exfalso; lra)|try (exfalso; lra)]
  end.

Ltac run := repeat (cbn; try run_step).

Lemma two_tests_matrix :
  correlation_matrix two_tests = Ok [[1; 0.6]; [0.6; 1]].
Proof.
  assert (index_map (corr_tests two_tests) !! "VO2 max" = Some 0%nat) as H0
    by reflexivity.
  assert (index_map (corr_tests two_tests) !! "Grip Strength" = Some 1%nat) as H1
    by reflexivity.
  assert (unit_diagonal 2 (zeros 2) = Ok [[1; 0]; [0; 1]]) as Hdiag
    by (unfold unit_diagonal; by run).
  unfold correlation_matrix. cbv zeta.
  change (length (corr_tests two_tests)) with 2%nat. rewrite Hdiag, bind_Ok.
  change (corr_pairs two_tests) with [("VO2 max", "Grip Strength", 0.6)].
  unfold for_each, set_pair, dict_get. rewrite H0, H1. by run.
Qed.

Lemma two_tests_cholesky :
  cholesky [[1; 0.6]; [0.6; 1]] = Ok [[1; 0]; [0.6; 0.8]].
Proof.
  assert (sqrt (1 - 0) = 1) as H1.
  { replace (1 - 0) with 1 by lra. apply sqrt_1. }
  assert (sqrt (1 - (0 + (0.6 - 0) / 1 * ((0.6 - 0) / 1))) = 0.8) as H2.
  { replace (1 - (0 + (0.6 - 0) / 1 * ((0.6 - 0) / 1))) with (0.8 * 0.8) by lra.
    apply sqrt_square. lra. }
  unfold cholesky, cholesky_row, cholesky_cell, dot_step, math_sqrt, py_div.
  repeat (cbn; rewrite ?H1, ?H2; try run_step).
  replace ((0.6 - 0) / 1) with 0.6 by lra. done.
Qed.

Lemma two_tests_build :
  build_correlation two_tests
  = Ok (["VO2 max"; "Grip Strength"], [[1; 0]; [0.6; 0.8]]).
Proof.
  unfold build_correlation. rewrite two_tests_matrix, bind_Ok.
  unfold epsilons. simpl. unfold try_cholesky.
  destruct (Rlt_dec 0 0); [lra|]. rewrite bind_Ok.
  by rewrite two_tests_cholesky.
Qed.

Lemma factor_reconstructs_correlation_witness :
  ["VO2 max"; "Grip Strength"] = corr_tests two_tests ∧
  square 2 [[1; 0]; [0.6; 0.8]] ∧ lower_triangular [[1; 0]; [0.6; 0.8]] ∧
  ∃ eps, eps ∈ epsilons ∧
    ∀ a b, (a < 2)%nat → (b < 2)%nat →
      Rabs (mul_transpose 2 [[1; 0]; [0.6; 0.8]] a b
            - (requested_correlation two_tests a b
               + (if decide (a = b) then eps else 0)))
      < 1e-6.
Proof.
  apply (factor_reconstructs_correlation two_tests
           ["VO2 max"; "Grip Strength"] [[1; 0]; [0.6; 0.8]]).
  - intros p ->%list_elem_of_singleton. simpl.
    unfold Rabs. destruct (Rcase_abs 0.6); lra.
  - apply two_tests_build.
Defined.


(** ** Text of the workbook *)

Lemma str_app_nil (s : string) : "" +:+ s = s.
Proof. reflexivity. Qed.

Lemma str_app_cons a (s t : string) : String a s +:+ t = String a (s +:+ t).
Proof. reflexivity. Qed.

Ltac str_simpl := rewrite ?str_app_cons, ?str_app_nil.

Lemma str_app_assoc (a b c : string) : (a +:+ b) +:+ c = a +:+ (b +:+ c).
Proof. induction a as [|x a IH]; str_simpl; congruence. Qed.

Lemma chars_app (a b : string) : chars (a +:+ b) = chars a ++ chars b.
Proof. induction a as [|x a IH]; str_simpl; cbn [chars app]; congruence. Qed.

Lemma chars_inj (a b : string) : chars a = chars b → a = b.
Proof.
  revert b; induction a as [|x a IH]; intros [|y b]; simpl; try done.
  intros [= -> H]. by rewrite (IH b H).
Qed.

Lemma replace_char_app old new (a b : string) :
  replace_char old new (a +:+ b) = replace_char old new a +:+ replace_char old new b.
Proof.
  induction a as [|x a IH]; str_simpl; cbn [replace_char]; [done|].
  destruct (Ascii.eqb x old); str_simpl; rewrite IH; [|done].
  by rewrite str_app_assoc.
Qed.

Lemma xml_escape_cons a s : xml_escape (String a s) = escape_char a +:+ xml_escape s.
Proof.
  unfold xml_escape, escape_char.
  change (String a s) with (String a "" +:+ s).
  rewrite !replace_char_app.
  cbn [replace_char].
  destruct (Ascii.eqb_spec a "&") as [->|H1]; [reflexivity|].
  cbn [replace_char].
  destruct (Ascii.eqb_spec a "<") as [->|H2]; [reflexivity|].
  cbn [replace_char].
  destruct (Ascii.eqb_spec a ">") as [->|H3]; [reflexivity|].
  cbn [replace_char].
  destruct (Ascii.eqb_spec a "034") as [->|H4]; [reflexivity|].
  cbn [replace_char].
  destruct (Ascii.eqb_spec a "'") as [->|H5]; [reflexivity|].
  reflexivity.
Qed.

Lemma xml_escape_charwise s : xml_escape s = str_concat_map escape_char s.
Proof.
  induction s as [|a s IH]; [reflexivity|].
  rewrite xml_escape_cons. simpl. by rewrite IH.
Qed.

Lemma escape_char_spec a :
  (a = "&"%char ∧ escape_char a = "&amp;") ∨
  (a = "<"%char ∧ escape_char a = "&lt;") ∨
  (a = ">"%char ∧ escape_char a = "&gt;") ∨
  (a = "034"%char ∧ escape_char a = "&quot;") ∨
  (a = "'"%char ∧ escape_char a = "&apos;") ∨
  (a ≠ "&"%char ∧ a ≠ "<"%char ∧ a ≠ ">"%char ∧ a ≠ "034"%char ∧ a ≠ "'"%char ∧
   escape_char a = String a "").
Proof.
  unfold escape_char.
  destruct (Ascii.eqb_spec a "&"); [by left|right].
  destruct (Ascii.eqb_spec a "<"); [by left|right].
  destruct (Ascii.eqb_spec a ">"); [by left|right].
  destruct (Ascii.eqb_spec a "034"); [by left|right].
  destruct (Ascii.eqb_spec a "'"); [by left|right].
  done.
Qed.

Tactic Notation "escape_cases" constr(a) ident(E) :=
  destruct (escape_char_spec a)
    as [[-> E]|[[-> E]|[[-> E]|[[-> E]|[[-> E]|(?&?&?&?&?&E)]]]]].

(** X1 ([xml_escape]): escaping loses nothing: two texts with the same
    escaped form are the same text, and equal texts have equal escaped
    forms. *)
Theorem xml_escape_injective s1 s2 : xml_escape s1 = xml_escape s2 ↔ s1 = s2.
Proof.
  split; [|by intros ->].
  revert s2; induction s1 as [|a1 s1 IH]; intros [|a2 s2].
  - done.
  - rewrite xml_escape_cons. escape_cases a2 E; rewrite E; str_simpl; discriminate.
  - rewrite xml_escape_cons. escape_cases a1 E; rewrite E; str_simpl; discriminate.
  - rewrite !xml_escape_cons.
    escape_cases a1 E1; escape_cases a2 E2; rewrite ?E1, ?E2; str_simpl;
      intros Heq; simplify_eq; try congruence; f_equal; by apply IH.
Qed.

(** X2 ([xml_escape]): escaped text holds no [<], no [>] and no single or
    double quote; the only markup character left is the [&] that starts an
    entity. *)
Theorem xml_escape_no_markup s :
  Forall (λ c, c ∉ markup_chars) (chars (xml_escape s)).
Proof.
  induction s as [|a s IH]; [constructor|].
  rewrite xml_escape_cons, chars_app. apply Forall_app; split; [|done].
  escape_cases a E; rewrite E; cbn [chars];
    repeat (apply Forall_cons; split;
            [try (apply (bool_decide_unpack _); vm_compute; reflexivity)|]);
    try apply Forall_nil; try done.
  cbv beta. unfold markup_chars. rewrite !not_elem_of_cons. split_and!; try done.
  apply not_elem_of_nil.
Qed.

Lemma str_map_length f s : String.length (str_map f s) = String.length s.
Proof. induction s as [|a s IH]; simpl; congruence. Qed.

Lemma str_take_length n s : String.length (str_take n s) = Nat.min n (String.length s).
Proof.
  revert s; induction n as [|n IH]; intros [|a s]; simpl; try done.
  by rewrite IH.
Qed.

Lemma chars_str_map f s : chars (str_map f s) = map f (chars s).
Proof. induction s as [|a s IH]; simpl; congruence. Qed.

Lemma chars_str_take n s : chars (str_take n s) = take n (chars s).
Proof.
  revert s; induction n as [|n IH]; intros [|a s]; simpl; try done.
  by rewrite IH.
Qed.

Lemma str_take_all n s : (String.length s <= n)%nat → str_take n s = s.
Proof.
  revert s; induction n as [|n IH]; intros [|a s]; simpl; try done; try lia.
  intros H. rewrite IH; [done|lia].
Qed.

Lemma underscore_valid : "_"%char ∉ invalid_sheet_chars.
Proof. apply (bool_decide_unpack _). vm_compute. reflexivity. Qed.

Lemma sanitize_sheet_name_spec name :
  String.length (sanitize_sheet_name name) = Nat.min 31 (String.length name) ∧
  Forall (λ c, c ∉ invalid_sheet_chars) (chars (sanitize_sheet_name name)).
Proof.
  unfold sanitize_sheet_name. split.
  - by rewrite str_take_length, str_map_length.
  - rewrite chars_str_take, chars_str_map. apply Forall_take.
    apply Forall_forall. intros c Hc. apply list_elem_of_In, in_map_iff in Hc.
    destruct Hc as (a & <- & _). case_bool_decide; [apply underscore_valid|done].
Qed.

(** X3 ([sanitize_sheet_name]): the result is a usable sheet name: its
    length is the smaller of 31 and the length of the name, and none of the
    seven characters of [invalid_sheet_chars] is left in it. *)
Theorem sanitize_sheet_name_valid name :
  String.length (sanitize_sheet_name name) = Nat.min 31 (String.length name) ∧
  Forall (λ c, c ∉ invalid_sheet_chars) (chars (sanitize_sheet_name name)).
Proof. apply sanitize_sheet_name_spec. Qed.

(** X4 ([sanitize_sheet_name]): the names left unchanged are exactly those
    of at most 31 characters without an invalid character. *)
Theorem sanitize_sheet_name_fixed name :
  sanitize_sheet_name name = name ↔
  (String.length name <= 31)%nat ∧
  Forall (λ c, c ∉ invalid_sheet_chars) (chars name).
Proof.
  split.
  - intros H. pose proof (sanitize_sheet_name_spec name) as [Hl Hc].
    rewrite H in Hl, Hc. split; [lia|done].
  - intros [Hl Hc]. unfold sanitize_sheet_name.
    assert (str_map (λ c, if bool_decide (c ∈ invalid_sheet_chars)
                          then "_"%char else c) name = name) as ->.
    { clear Hl. induction name as [|a s IH]; [done|]. simpl in *.
      apply Forall_cons in Hc as [Ha Hs]. rewrite (IH Hs).
      by rewrite bool_decide_eq_false_2. }
    by apply str_take_all.
Qed.

Lemma upper_code r : (r < 26)%nat → nat_of_ascii (ascii_of_nat (65 + r)) = (65 + r)%nat.
Proof. intros H. apply nat_ascii_embedding. lia. Qed.

Lemma col_name_loop_val fuel n name :
  (n <= fuel)%nat →
  col_val (col_name_loop fuel n name) = (n * 26 ^ String.length name + col_val name)%nat.
Proof.
  revert n name; induction fuel as [|fuel IH]; intros n name Hn.
  - assert (n = 0%nat) as -> by lia. simpl. lia.
  - cbn [col_name_loop]. destruct (decide (0 < n)%nat) as [Hpos|Hz].
    + pose proof (Nat.div_mod_eq (n - 1) 26) as Hdm.
      pose proof (Nat.mod_upper_bound (n - 1) 26 ltac:(lia)) as Hr.
      assert ((n - 1) / 26 <= fuel)%nat as Hq.
      { pose proof (Nat.Div0.div_le_upper_bound (n - 1) 26 fuel). lia. }
      rewrite (IH _ _ Hq). cbn [col_val String.length].
      rewrite (upper_code _ Hr).
      set (q := ((n - 1) / 26)%nat) in *. set (r := ((n - 1) mod 26)%nat) in *.
      set (p := (26 ^ String.length name)%nat).
      replace (26 ^ S (String.length name))%nat with (26 * p)%nat
        by (unfold p; rewrite Nat.pow_succ_r'; lia).
      replace (65 + r - 64)%nat with (r + 1)%nat by lia.
      assert (n = 26 * q + r + 1)%nat as Hn' by lia.
      clearbody q r p. subst n. nia.
    + assert (n = 0%nat) as -> by lia. simpl. lia.
Qed.

Lemma col_val_col_name idx : col_val (col_name idx) = S idx.
Proof.
  unfold col_name. rewrite col_name_loop_val by lia. simpl. lia.
Qed.

Lemma col_name_loop_upper fuel n name :
  Forall is_upper (chars name) → Forall is_upper (chars (col_name_loop fuel n name)).
Proof.
  revert n name; induction fuel as [|fuel IH]; intros n name Hname; [done|].
  cbn [col_name_loop]. destruct (decide (0 < n)%nat); [|done].
  apply IH. cbn [chars]. apply Forall_cons; split; [|done].
  pose proof (Nat.mod_upper_bound (n - 1) 26 ltac:(lia)) as Hr.
  unfold is_upper. rewrite (upper_code _ Hr). lia.
Qed.

(** X5 ([col_name]): the name of a column is not empty and is made of the
    capital letters [A] to [Z] only. *)
Theorem col_name_letters idx :
  col_name idx ≠ "" ∧ Forall is_upper (chars (col_name idx)).
Proof.
  split.
  - intros H. pose proof (col_val_col_name idx) as Hv. rewrite H in Hv. done.
  - apply col_name_loop_upper. constructor.
Qed.

(** X6 ([col_name]): two column indices have the same name only if they are
    the same index: the name is the numeral of [idx + 1] in bijective base
    26, which [col_val] reads back. *)
Theorem col_name_injective i j :
  (col_name i = col_name j ↔ i = j) ∧ col_val (col_name i) = S i.
Proof.
  split; [|apply col_val_col_name].
  split; [|by intros ->].
  intros H. pose proof (col_val_col_name i) as Hi.
  rewrite H, col_val_col_name in Hi. lia.
Qed.

Lemma str_filter_app p (a b : string) :
  str_filter p (a +:+ b) = str_filter p a +:+ str_filter p b.
Proof.
  induction a as [|x a IH]; str_simpl; cbn [str_filter]; [done|].
  destruct (p x); str_simpl; congruence.
Qed.

Lemma str_filter_all p s :
  Forall (λ c, p c = true) (chars s) → str_filter p s = s.
Proof.
  induction s as [|a s IH]; cbn [chars str_filter]; [done|].
  intros [Ha Hs]%Forall_cons. rewrite Ha, (IH Hs). done.
Qed.

Lemma str_app_nil_r (s : string) : s +:+ "" = s.
Proof. induction s as [|a s IH]; str_simpl; congruence. Qed.

Lemma is_upper_isalpha c : is_upper c → isalpha c = true.
Proof.
  unfold is_upper, isalpha. intros [H1 H2].
  apply Nat.leb_le in H1, H2. rewrite H1, H2. reflexivity.
Qed.

Lemma digits_not_alpha u :
  str_filter isalpha (DecimalString.NilEmpty.string_of_uint u) = "".
Proof.
  induction u as [|u IH|u IH|u IH|u IH|u IH|u IH|u IH|u IH|u IH|u IH];
    cbn [DecimalString.NilEmpty.string_of_uint str_filter]; [done|..];
    rewrite IH; reflexivity.
Qed.

(** X7 ([col_letter], [col_name], [write_sheet_xml]): the reader finds the
    column of every cell the writer names: the letters of the reference
    made of [col_name c_idx] and the row number are [col_name c_idx]
    again. *)
Theorem col_letter_cell_ref c_idx r_idx :
  col_letter (cell_ref c_idx r_idx) = col_name c_idx.
Proof.
  unfold col_letter, cell_ref, str_of_nat.
  rewrite str_filter_app, digits_not_alpha, str_app_nil_r.
  apply str_filter_all.
  eapply Forall_impl; [apply col_name_loop_upper; constructor|].
  apply is_upper_isalpha.
Qed.

(** ** Reading a client sheet *)

Lemma isspace_lower a : isspace (lower_char a) = isspace a.
Proof. destruct a as [[] [] [] [] [] [] [] []]; vm_compute; reflexivity. Qed.

Lemma str_lower_app (a b : string) : str_lower (a +:+ b) = str_lower a +:+ str_lower b.
Proof.
  unfold str_lower. induction a as [|x a IH]; str_simpl; cbn [str_map]; str_simpl;
    congruence.
Qed.

Lemma str_lower_lstrip x : str_lower (str_lstrip x) = str_lstrip (str_lower x).
Proof.
  unfold str_lower. induction x as [|a x IH]; [done|].
  cbn [str_lstrip str_map]. rewrite isspace_lower.
  destruct (isspace a); [exact IH|done].
Qed.

Lemma str_lower_rstrip x : str_lower (str_rstrip x) = str_rstrip (str_lower x).
Proof.
  unfold str_lower. induction x as [|a x IH]; [done|].
  cbn [str_rstrip str_map]. rewrite <- IH, isspace_lower.
  destruct (str_rstrip x) as [|b r]; cbn [str_map]; [|done].
  by destruct (isspace a).
Qed.

Lemma startswith_nil_l p : p ≠ "" → startswith "" p = false.
Proof. by destruct p. Qed.

Lemma ends_nonspace_cons a p :
  ends_nonspace (String a p) = true →
  (p = "" ∧ isspace a = false) ∨ (p ≠ "" ∧ ends_nonspace p = true).
Proof.
  destruct p as [|b p]; cbn [ends_nonspace].
  - intros H. left. split; [done|]. by destruct (isspace a).
  - intros H. right. split; done.
Qed.

Lemma startswith_rstrip p x :
  ends_nonspace p = true → startswith (str_rstrip x) p = startswith x p.
Proof.
  revert p; induction x as [|a x IH]; intros p Hp; [done|].
  destruct p as [|b p]; [done|].
  apply ends_nonspace_cons in Hp as [[-> Hb]|[Hne Hp]].
  - cbn [str_rstrip]. destruct (str_rstrip x) as [|c r].
    + destruct (isspace a) eqn:Ha; cbn [startswith]; [|done].
      destruct (Ascii.eqb_spec a b) as [->|]; [congruence|done].
    + done.
  - specialize (IH p Hp). cbn [str_rstrip startswith].
    destruct (str_rstrip x) as [|c r].
    + rewrite (startswith_nil_l p Hne) in IH. rewrite <- IH, andb_false_r.
      destruct (isspace a); cbn [startswith]; [done|].
      by rewrite (startswith_nil_l p Hne), andb_false_r.
    + cbn [startswith]. by rewrite IH.
Qed.

Lemma key_of_lowered_rstrip l : key_of_lowered (str_rstrip l) = key_of_lowered l.
Proof.
  unfold key_of_lowered. by rewrite !startswith_rstrip by reflexivity.
Qed.

Lemma label_key_alt label :
  label_key label = key_of_lowered (str_lstrip (str_lower label)).
Proof.
  unfold label_key, str_strip.
  by rewrite str_lower_rstrip, key_of_lowered_rstrip, str_lower_lstrip.
Qed.

Lemma str_lstrip_spaces (ws s : string) :
  Forall (λ c, isspace c = true) (chars ws) → str_lstrip (ws +:+ s) = str_lstrip s.
Proof.
  induction ws as [|a ws IH]; str_simpl; [done|].
  cbn [chars str_lstrip]. intros [Ha Hws]%Forall_cons. rewrite Ha. by apply IH.
Qed.

Lemma startswith_inv s p : startswith s p = true → ∃ r, s = p +:+ r.
Proof.
  revert s; induction p as [|b p IH]; intros s H.
  - by exists s.
  - destruct s as [|a s]; [done|]. cbn [startswith] in H.
    apply andb_true_iff in H as [Hab Hs]. apply Ascii.eqb_eq in Hab as ->.
    destruct (IH s Hs) as [r ->]. by exists r.
Qed.

Lemma key_of_lowered_range l k : key_of_lowered l = Some k → k ∈ test_names.
Proof.
  unfold key_of_lowered.
  repeat match goal with
         | |- context [if ?b then _ else _] => destruct b
         end;
    intros [= <-]; apply (bool_decide_unpack _); vm_compute; reflexivity.
Qed.

(** X8 ([read_input_clients], the label chain): a label is read as the test
    [k] whenever, white space at its start apart, it begins with the name
    [k] in any mix of cases; what follows the name, a unit for instance, is
    ignored. *)
Theorem label_key_tolerant k (ws label : string) :
  k ∈ test_names →
  Forall (λ c, isspace c = true) (chars ws) →
  startswith (str_lower label) (str_lower k) = true →
  label_key (ws +:+ label) = Some k.
Proof.
  intros Hk Hws Hstart.
  rewrite label_key_alt, str_lower_app, str_lstrip_spaces.
  2:{ unfold str_lower. rewrite chars_str_map. apply Forall_forall.
      intros c Hc. apply list_elem_of_In, in_map_iff in Hc.
      destruct Hc as (a & <- & Ha). rewrite isspace_lower.
      rewrite Forall_forall in Hws. apply Hws. by apply list_elem_of_In. }
  apply startswith_inv in Hstart as [r ->].
  unfold test_names in Hk.
  repeat (apply elem_of_cons in Hk as [->|Hk]; [vm_compute; reflexivity|]).
  by apply elem_of_nil in Hk.
Qed.

Lemma label_key_tolerant_witness :
  label_key "  vo2 MAX (ml/kg/min)" = Some "VO2 max".
Proof.
  apply (label_key_tolerant "VO2 max" "  " "vo2 MAX (ml/kg/min)").
  - apply (bool_decide_unpack _). vm_compute. reflexivity.
  - repeat constructor.
  - vm_compute. reflexivity.
Defined.

Lemma label_key_range label k : label_key label = Some k → k ∈ test_names.
Proof. apply key_of_lowered_range. Qed.

Lemma read_data_fold {V} (to_float : V → option R) rows data0 k v :
  fold_left (store_row to_float) rows data0 !! k = Some v →
  data0 !! k = Some v ∨
  ∃ label val, (label, val) ∈ rows ∧ label_key label = Some k ∧ v = to_float val.
Proof.
  revert data0; induction rows as [|[label val] rows IH]; intros data0 H.
  - by left.
  - cbn [fold_left] in H. apply IH in H as [H|(l & x & Hin & Hl & Hv)].
    + unfold store_row in H. cbn [fst snd] in H.
      destruct (label_key label) as [key|] eqn:Hkey.
      * destruct (decide (key = k)) as [->|Hne].
        -- rewrite lookup_insert_eq in H. injection H as <-.
           right. exists label, val. split_and!; [left|done|done].
        -- rewrite lookup_insert_ne in H by done. by left.
      * by left.
    + right. exists l, x. split_and!; [by right|done|done].
Qed.

Lemma fasting_glucose_key label :
  startswith (str_lower (str_strip label)) "fasting glucose" = true →
  label_key label = None.
Proof.
  intros H. unfold label_key. apply startswith_inv in H as [r ->].
  vm_compute. reflexivity.
Qed.

(** X9 ([read_input_clients], the loop that fills [data]): whatever the
    sheet holds, an entry of a client's [data] is under one of the
    seventeen test names, and its value is the parsed value cell of a row
    whose label is read as that test and is not a fasting-glucose label; a
    label that, stripped and lowered, begins with [fasting glucose] has no
    key, and a sheet of such rows only leaves [data] empty. *)
Theorem read_data_entries {V} (to_float : V → option R) rows :
  (∀ k v, read_data to_float rows !! k = Some v →
     k ∈ test_names ∧
     ∃ label val,
       (label, val) ∈ rows ∧ label_key label = Some k ∧ v = to_float val ∧
       startswith (str_lower (str_strip label)) "fasting glucose" = false) ∧
  (∀ label,
     startswith (str_lower (str_strip label)) "fasting glucose" = true →
     label_key label = None) ∧
  ((∀ row, row ∈ rows →
      startswith (str_lower (str_strip row.1)) "fasting glucose" = true) →
   read_data to_float rows = ∅).
Proof.
  assert (∀ k v, read_data to_float rows !! k = Some v →
            k ∈ test_names ∧
            ∃ label val,
              (label, val) ∈ rows ∧ label_key label = Some k ∧ v = to_float val ∧
              startswith (str_lower (str_strip label)) "fasting glucose" = false)
    as Hentries.
  { intros k v H. apply read_data_fold in H as [H|(l & x & Hin & Hl & Hv)].
    - by rewrite lookup_empty in H.
    - split; [by apply (label_key_range l)|]. exists l, x. split_and!; try done.
      destruct (startswith (str_lower (str_strip l)) "fasting glucose") eqn:E;
        [|done].
      by rewrite (fasting_glucose_key l E) in Hl. }
  split_and!; [done|apply fasting_glucose_key|].
  intros Hall. apply map_eq. intros k. rewrite lookup_empty.
  destruct (read_data to_float rows !! k) as [v|] eqn:E; [|done].
  destruct (Hentries k v E) as (_ & l & x & Hin & _ & _ & Hnot).
  pose proof (Hall (l, x) Hin) as Hfast. cbn [fst] in Hfast. congruence.
Qed.

Lemma read_data_entries_witness :
  ("FEV1" ∈ test_names ∧
   ∃ label val, (label, val) ∈ [("Fasting Glucose", 5%Z); ("fev1 (L)", 3%Z)] ∧
                label_key label = Some "FEV1" ∧ Some 3 = Some (IZR val) ∧
                startswith (str_lower (str_strip label)) "fasting glucose"
                = false) ∧
  label_key "  Fasting Glucose (mg/dL)" = None ∧
  read_data (λ z, Some (IZR z))
    [("Fasting Glucose", 5%Z); (" FASTING glucose", 6%Z)] = ∅.
Proof.
  split; [|split].
  - apply (proj1 (read_data_entries (λ z, Some (IZR z))
                    [("Fasting Glucose", 5%Z); ("fev1 (L)", 3%Z)])
             "FEV1" (Some 3)).
    reflexivity.
  - apply (proj1 (proj2 (read_data_entries (λ z, Some (IZR z)) []))).
    vm_compute. reflexivity.
  - apply (proj2 (proj2 (read_data_entries (λ z, Some (IZR z))
                           [("Fasting Glucose", 5%Z); (" FASTING glucose", 6%Z)]))).
    intros row Hrow. apply elem_of_cons in Hrow as [->|Hrow]; [by vm_compute|].
    apply list_elem_of_singleton in Hrow as ->. by vm_compute.
Defined.

(** ** Ranges of the sampled quantities *)

(** X10 ([sample_rate]): a sampled rate is never negative, whatever the
    mean, the uncertainty and the shock are; under the log-normal model it
    is positive. *)
Theorem sample_rate_nonneg test mu cv (is_lognormal : bool) z g r g' :
  sample_rate test mu cv is_lognormal z g = Ok (r, g') →
  0 <= r ∧ (is_lognormal = true → 0 < r).
Proof.
  intros H. destruct is_lognormal.
  - destruct (Rlt_dec 0 mu) as [Hmu|Hmu].
    + rewrite sample_rate_lognormal_ok in H by done. injection H as <- _.
      pose proof (exp_pos (ln mu + sqrt (ln (1 + cv * cv)) * (shock_or_draw z g).1)).
      split; [lra|done].
    + rewrite sample_rate_lognormal_err in H by lra. done.
  - rewrite sample_rate_normal_ok in H. injection H as <- _.
    split; [apply Rmax_l|done].
Qed.

Lemma sample_rate_nonneg_witness :
  0 <= Rmax 0 (0.05 + Rabs 0.05 * 2 * (shock_or_draw (Some (-10)) example_rng).1) ∧
  (false = true →
   0 < Rmax 0 (0.05 + Rabs 0.05 * 2 * (shock_or_draw (Some (-10)) example_rng).1)).
Proof.
  apply (sample_rate_nonneg "VO2 max" 0.05 2 false (Some (-10)) example_rng _
           (shock_or_draw (Some (-10)) example_rng).2).
  apply sample_rate_normal_ok.
Defined.

Lemma math_log_Ok x : 0 < x → math_log x = Ok (ln x).
Proof. intros H. unfold math_log. by destruct (Rlt_dec 0 x). Qed.

Lemma math_log_Err x : x <= 0 → math_log x = Err ValueError.
Proof. intros H. unfold math_log. destruct (Rlt_dec 0 x); [lra|done]. Qed.

(** X11 ([sample_homa_reduction]): the draw is defined exactly when the
    three quantiles of the configuration are positive, and fails with
    [ValueError] otherwise; a drawn reduction uses one normal variate, is
    never below the configured minimum, and lies between minimum and
    maximum when these are in order. *)
Theorem sample_homa_reduction_range (h : homa_cfg) (g : rng) :
  (0 < q10 h ∧ 0 < q90 h ∧ 0 < median h →
   ∃ r, sample_homa_reduction h g = Ok (r, (next_normal g).2) ∧
        homa_min h <= r ∧
        (homa_min h <= homa_max h → r <= homa_max h)) ∧
  (¬ (0 < q10 h ∧ 0 < q90 h ∧ 0 < median h) →
   sample_homa_reduction h g = Err ValueError).
Proof.
  unfold sample_homa_reduction. split.
  - intros (H10 & H90 & Hmed).
    rewrite (math_log_Ok (q90 h)), (math_log_Ok (q10 h)),
      (math_log_Ok (median h)) by done.
    rewrite !bind_Ok. unfold gauss. cbn [next_normal snd].
    eexists. split; [reflexivity|]. split; [apply Rmax_l|].
    intros Hord. apply Rmax_lub; [done|apply Rmin_l].
  - intros Hneg.
    destruct (Rlt_dec 0 (q90 h)) as [H90|H90];
      [rewrite (math_log_Ok _ H90), bind_Ok
      |by rewrite (math_log_Err (q90 h)) by lra].
    destruct (Rlt_dec 0 (q10 h)) as [H10|H10];
      [rewrite (math_log_Ok _ H10), bind_Ok
      |by rewrite (math_log_Err (q10 h)) by lra].
    destruct (Rlt_dec 0 (median h)) as [Hm|Hm];
      [tauto|by rewrite (math_log_Err (median h)) by lra].
Qed.

Lemma sample_homa_reduction_range_witness :
  ∃ r, sample_homa_reduction (homa_ir_reduction example_improvement) example_rng
       = Ok (r, (next_normal example_rng).2) ∧
       homa_min (homa_ir_reduction example_improvement) <= r ∧
       (homa_min (homa_ir_reduction example_improvement)
        <= homa_max (homa_ir_reduction example_improvement) →
        r <= homa_max (homa_ir_reduction example_improvement)).
Proof.
  apply (proj1 (sample_homa_reduction_range (homa_ir_reduction example_improvement)
                  example_rng)).
  simpl. lra.
Defined.

Lemma sample_homa_reduction_Ok h g r g' :
  sample_homa_reduction h g = Ok (r, g') →
  homa_min h <= r ∧ (homa_min h <= homa_max h → r <= homa_max h).
Proof.
  unfold sample_homa_reduction. intros H.
  apply bind_Ok_inv in H as (l90 & _ & H).
  apply bind_Ok_inv in H as (l10 & _ & H).
  apply bind_Ok_inv in H as (mu & _ & H).
  unfold gauss in H. cbn [next_normal] in H. injection H as <- _.
  split; [apply Rmax_l|]. intros Hord. apply Rmax_lub; [done|apply Rmin_l].
Qed.

Lemma uniform_range a b g :
  a <= b → unit_uniform g → a <= (uniform a b g).1 <= b.
Proof.
  unfold unit_uniform, uniform. cbn [next_random fst]. intros Hab Hu. nra.
Qed.

Lemma improvement_fraction_bounds test age i g imp g' hi :
  fractions_within hi i → unit_uniform g →
  sample_improvement_fraction test age i g = Ok (imp, g') →
  0 <= imp <= hi.
Proof.
  intros (Hu & Ho & Hr & Hh) Hg H. unfold sample_improvement_fraction in H.
  destruct (decide (test = "VO2 max")).
  - set (under := match age with
                  | Some a => if Rlt_dec a (vo2_age_cutoff i) then true else false
                  | None => true
                  end) in H.
    assert (fraction_range hi (if under then vo2_under i else vo2_over i)) as Hp
      by by destruct under.
    destruct (if under then vo2_under i else vo2_over i) as [low high].
    destruct Hp as (H0 & Hlh & Hhi). cbn [fst snd] in *.
    injection H as H _. pose proof (uniform_range low high g Hlh Hg) as Hb.
    unfold uniform in Hb. cbn [next_random fst] in Hb. lra.
  - destruct (decide (test = "HOMA-IR")).
    + apply sample_homa_reduction_Ok in H as [Hlo Hup].
      destruct Hh as (H0 & Hlh & Hhi). cbn [fst snd] in *.
      specialize (Hup Hlh). lra.
    + destruct (ranges i !! test) as [[low high]|] eqn:Hrg.
      * destruct (Hr _ _ Hrg) as (H0 & Hlh & Hhi). cbn [fst snd] in *.
        injection H as H _. pose proof (uniform_range low high g Hlh Hg) as Hb.
        unfold uniform in Hb. cbn [next_random fst] in Hb. lra.
      * injection H as <- _. destruct Hu as (H0 & Hlh & Hhi). lra.
Qed.

Lemma example_fractions : fractions_within 1 example_improvement.
Proof.
  unfold fractions_within, fraction_range, example_improvement. cbn.
  split_and!; try lra. intros t p H. by rewrite lookup_empty in H.
Qed.

Lemma example_unit_uniform : unit_uniform example_rng.
Proof. unfold unit_uniform, example_rng. cbn. lra. Qed.

Lemma example_vo2_fraction :
  sample_improvement_fraction "VO2 max" (Some 45) example_improvement example_rng
  = Ok (uniform 0.1 0.1 example_rng).
Proof.
  unfold sample_improvement_fraction. rewrite decide_True by done. cbn.
  destruct (Rlt_dec 45 50); [done|lra].
Qed.

(** X12 ([sample_improvement_fraction]): when every range of the
    improvement configuration is ordered and lies between [0] and [hi],
    and [random.random()] is in the unit interval, the sampled fraction
    lies between [0] and [hi], for every test and age. *)
Theorem improvement_fraction_in_range test age i g imp g' hi :
  fractions_within hi i → unit_uniform g →
  sample_improvement_fraction test age i g = Ok (imp, g') →
  0 <= imp <= hi.
Proof. apply improvement_fraction_bounds. Qed.

Lemma improvement_fraction_in_range_witness :
  0 <= (uniform 0.1 0.1 example_rng).1 <= 1.
Proof.
  apply (improvement_fraction_in_range "VO2 max" (Some 45) example_improvement
           example_rng _ (uniform 0.1 0.1 example_rng).2 1).
  - apply example_fractions.
  - apply example_unit_uniform.
  - apply example_vo2_fraction.
Defined.

Lemma improve_direction cfg t val imp :
  0 <= imp <= 1 →
  (if decide (t ∈ set_of (lower_is_better cfg))
   then improve cfg t val imp <= val else val <= improve cfg t val imp) ∧
  (t ∉ absolute_decline_set cfg →
   (0 <= val → 0 <= improve cfg t val imp) ∧
   (val <= 0 → improve cfg t val imp <= 0)).
Proof.
  intros Himp. unfold improve.
  destruct (decide (t ∈ absolute_decline_set cfg)),
    (decide (t ∈ set_of (lower_is_better cfg)));
    try destruct (Rle_dec 0 val); split; try tauto; try nra; intros _; split; nra.
Qed.

(** X13 ([simulate_client], the improvement step, with
    [sample_improvement_fraction]): with ranges of fractions within
    [[0, 1]], the improvement applied before the decline never makes a
    value worse: it does not raise the value of a lower-is-better test and
    does not lower the value of any other test; and under the relative
    model it keeps the sign of the value. *)
Theorem improvement_step_improves cfg t age_ val g imp g' :
  fractions_within 1 (improvement cfg) → unit_uniform g →
  sample_improvement_fraction t age_ (improvement cfg) g = Ok (imp, g') →
  (if decide (t ∈ set_of (lower_is_better cfg))
   then improve cfg t val imp <= val else val <= improve cfg t val imp) ∧
  (t ∉ absolute_decline_set cfg →
   (0 <= val → 0 <= improve cfg t val imp) ∧
   (val <= 0 → improve cfg t val imp <= 0)).
Proof.
  intros Hf Hg H. apply improve_direction.
  by apply (improvement_fraction_bounds t age_ (improvement cfg) g imp g' 1).
Qed.

Lemma improvement_step_improves_witness :
  (if decide ("VO2 max" ∈ set_of (lower_is_better vo2_cfg))
   then improve vo2_cfg "VO2 max" 40 (uniform 0.1 0.1 example_rng).1 <= 40
   else 40 <= improve vo2_cfg "VO2 max" 40 (uniform 0.1 0.1 example_rng).1) ∧
  ("VO2 max" ∉ absolute_decline_set vo2_cfg →
   (0 <= 40 → 0 <= improve vo2_cfg "VO2 max" 40 (uniform 0.1 0.1 example_rng).1) ∧
   (40 <= 0 → improve vo2_cfg "VO2 max" 40 (uniform 0.1 0.1 example_rng).1 <= 0)).
Proof.
  apply (improvement_step_improves vo2_cfg "VO2 max" (Some 45) 40 example_rng _
           (uniform 0.1 0.1 example_rng).2).
  - apply example_fractions.
  - apply example_unit_uniform.
  - apply example_vo2_fraction.
Defined.

(** ** Values that cannot be negative *)

Lemma for_each_Ok_inv {A S : Type} (I : list A → S → Prop)
    (l : list A) (body : A → S → result S) (s0 s1 : S) :
  for_each l body s0 = Ok s1 →
  I [] s0 →
  (∀ pre x post s s', l = pre ++ x :: post → I pre s → body x s = Ok s' →
     I (pre ++ [x]) s') →
  I l s1.
Proof.
  intros Hrun H0 Hstep.
  pose proof (for_each_inv I (λ _, True) l body s0 H0) as H.
  rewrite Hrun in H. apply H.
  intros pre x post s Hl Hpre. destruct (body x s) as [s'|] eqn:E; [|done].
  by eapply Hstep.
Qed.

Lemma for_range_Ok_inv {S : Type} (I : nat → S → Prop)
    (n : nat) (body : nat → S → result S) (s0 s1 : S) :
  for_each (range n) body s0 = Ok s1 →
  I O s0 →
  (∀ k s s', (k < n)%nat → I k s → body k s = Ok s' → I (Datatypes.S k) s') →
  I n s1.
Proof.
  intros Hrun H0 Hstep.
  pose proof (for_range_inv I (λ _, True) n body s0 H0) as H.
  rewrite Hrun in H. apply H.
  intros k s Hk Hpre. destruct (body k s) as [s'|] eqn:E; [|done].
  by eapply Hstep.
Qed.

Lemma apply_noise_nonneg test val mcv mln allow g obs g' :
  test ∈ mln ∨ test ∉ allow →
  apply_measurement_noise test val mcv mln allow g = Ok (obs, g') →
  0 <= obs.
Proof.
  intros Hcase H. unfold apply_measurement_noise in H.
  apply bind_Ok_inv in H as (cv & _ & H).
  destruct (decide (test ∈ mln)) as [Hin|Hnin].
  - destruct (Rle_dec val 0) as [Hle|Hgt].
    + injection H as <- _. lra.
    + rewrite lognormal_sigma_ok, bind_Ok in H.
      unfold gauss in H. cbn [next_normal] in H. injection H as <- _.
      unfold math_exp.
      pose proof (exp_pos (sqrt (ln (1 + cv * cv)) * (0 + normal_src g (normal_pos g) * 1))).
      nra.
  - destruct Hcase as [?|Hallow]; [done|].
    unfold gauss in H. cbn [next_normal] in H.
    rewrite decide_True in H by done. injection H as <- _.
    destruct (Rlt_dec _ 0); lra.
Qed.

Lemma infer_true_nonneg test obs mcv mln allow g v g' :
  test ∈ mln ∨ test ∉ allow →
  infer_true_from_observed test obs mcv mln allow g = Ok (v, g') →
  0 <= v.
Proof.
  intros Hcase H. unfold infer_true_from_observed in H.
  apply bind_Ok_inv in H as (cv & _ & H).
  apply bind_Ok_inv in H as (o & _ & H).
  destruct (decide (test ∈ mln)) as [Hin|Hnin].
  - destruct (Rle_dec o 0) as [Hle|Hgt].
    + injection H as <- _. lra.
    + rewrite lognormal_sigma_ok, bind_Ok in H.
      unfold gauss in H. cbn [next_normal] in H.
      apply bind_Ok_inv in H as (q & Hq & [= <- _]).
      unfold py_div in Hq. destruct (Req_dec_T _ 0); [done|].
      injection Hq as <-. unfold math_exp.
      pose proof (exp_pos (sqrt (ln (1 + cv * cv)) * (0 + normal_src g (normal_pos g) * 1))).
      apply Rlt_le, Rdiv_lt_0_compat; lra.
  - destruct Hcase as [?|Hallow]; [done|].
    unfold gauss in H. cbn [next_normal] in H.
    rewrite decide_True in H by done. injection H as <- _.
    destruct (Rlt_dec _ 0); lra.
Qed.

(** X14 ([apply_measurement_noise], [infer_true_from_observed]): for a test
    with log-normal measurement noise, or one that is not allowed to be
    negative, neither noise step ever returns a negative value, whatever
    the value, the noise level and the variate are. *)
Theorem noise_steps_never_negative test mcv mln allow :
  test ∈ mln ∨ test ∉ allow →
  (∀ val g obs g',
     apply_measurement_noise test val mcv mln allow g = Ok (obs, g') → 0 <= obs) ∧
  (∀ obs g v g',
     infer_true_from_observed test obs mcv mln allow g = Ok (v, g') → 0 <= v).
Proof.
  intros Hcase. split.
  - intros val g obs g'. by apply apply_noise_nonneg.
  - intros obs g v g'. by apply infer_true_nonneg.
Qed.

Lemma noise_steps_never_negative_witness :
  (∀ val g obs g',
     apply_measurement_noise "VO2 max" val {["VO2 max" := 0.5]} ∅ ∅ g
     = Ok (obs, g') → 0 <= obs) ∧
  (∀ obs g v g',
     infer_true_from_observed "VO2 max" obs {["VO2 max" := 0.5]} ∅ ∅ g
     = Ok (v, g') → 0 <= v).
Proof.
  apply (noise_steps_never_negative "VO2 max" {["VO2 max" := 0.5]} ∅ ∅).
  right. apply not_elem_of_empty.
Defined.

Lemma dict_get_Ok {V : Type} (d : gmap string V) k v :
  dict_get d k = Ok v → d !! k = Some v.
Proof. unfold dict_get. destruct (d !! k); by intros [= ->]. Qed.

Lemma horizon_step_nonneg cfg c scenario t rate rp true0 years x st st' :
  t ∈ set_of (measurement_lognormal cfg) ∨ t ∉ allow_negative_set cfg →
  horizon_step cfg c scenario rate rp true0 years x st = Ok st' →
  nonneg_at t st.1 → nonneg_at t st'.1.
Proof.
  intros Hcase H Hsums. destruct st as [sums g]. unfold horizon_step in H.
  apply bind_Ok_inv in H as (val & _ & H).
  apply bind_Ok_inv in H as ([val' g1] & _ & H).
  apply bind_Ok_inv in H as ([obs g2] & Hobs & H).
  apply bind_Ok_inv in H as (s & Hs & [= <-]).
  cbn [fst] in *. intros v Hv.
  destruct (decide (x = t)) as [->|Hne].
  - rewrite lookup_insert_eq in Hv. injection Hv as <-.
    apply dict_get_Ok in Hs. apply Hsums in Hs.
    apply apply_noise_nonneg in Hobs; [lra|done].
  - rewrite lookup_insert_ne in Hv by done. by apply Hsums.
Qed.

Lemma horizon_loop_nonneg cfg c scenario t rate rp true0 years tests st st' :
  t ∈ set_of (measurement_lognormal cfg) ∨ t ∉ allow_negative_set cfg →
  for_each tests (horizon_step cfg c scenario rate rp true0 years) st = Ok st' →
  nonneg_at t st.1 → nonneg_at t st'.1.
Proof.
  intros Hcase H Hsums.
  apply (for_each_Ok_inv (λ _ s, nonneg_at t s.1) _ _ _ _ H Hsums).
  intros pre x post s s' _ Hs Hstep. by eapply horizon_step_nonneg.
Qed.

Lemma simulate_draw_nonneg cfg c corr_tests corr_L scenario t st st' :
  t ∈ set_of (measurement_lognormal cfg) ∨ t ∉ allow_negative_set cfg →
  simulate_draw cfg c corr_tests corr_L scenario st = Ok st' →
  nonneg_at t st.1.1 ∧ nonneg_at t st.1.2 →
  nonneg_at t st'.1.1 ∧ nonneg_at t st'.1.2.
Proof.
  intros Hcase H [H5 H10]. destruct st as [[sums5 sums10] g].
  unfold simulate_draw in H.
  apply bind_Ok_inv in H as ([z g1] & _ & H).
  apply bind_Ok_inv in H as (zm & _ & H).
  apply bind_Ok_inv in H as ([[rate rp] g2] & _ & H).
  apply bind_Ok_inv in H as ([true0 g3] & _ & H).
  apply bind_Ok_inv in H as ([s5 g4] & Hs5 & H).
  apply bind_Ok_inv in H as ([s10 g5] & Hs10 & [= <-]).
  cbn [fst snd] in *. split.
  - by apply (horizon_loop_nonneg _ _ _ _ _ _ _ _ _ _ _ Hcase Hs5).
  - by apply (horizon_loop_nonneg _ _ _ _ _ _ _ _ _ _ _ Hcase Hs10).
Qed.

Lemma means_nonneg t tests sums n m :
  means tests sums n = Ok m →
  (∀ v, sums !! t = Some v → 0 <= v / IZR n) →
  nonneg_at t m.
Proof.
  intros H Hsums. unfold means in H.
  apply (for_each_Ok_inv (λ _ m, nonneg_at t m) _ _ _ _ H).
  - intros v Hv. by rewrite lookup_empty in Hv.
  - intros pre x post m0 m1 _ Hm0 Hstep.
    apply bind_Ok_inv in Hstep as (s & Hs & Hstep).
    apply bind_Ok_inv in Hstep as (q & Hq & [= <-]).
    intros v Hv. destruct (decide (x = t)) as [->|Hne].
    + rewrite lookup_insert_eq in Hv. injection Hv as <-.
      unfold py_div in Hq. destruct (Req_dec_T _ 0); [done|]. injection Hq as <-.
      apply Hsums. by apply dict_get_Ok.
    + rewrite lookup_insert_ne in Hv by done. by apply Hm0.
Qed.

Lemma simulate_client_nonneg cfg c corr_tests corr_L scenario g mean5 mean10 g' t :
  t ∈ set_of (measurement_lognormal cfg) ∨ t ∉ allow_negative_set cfg →
  simulate_client c cfg corr_tests corr_L scenario g = Ok (mean5, mean10, g') →
  nonneg_at t mean5 ∧ nonneg_at t mean10.
Proof.
  intros Hcase H. unfold simulate_client in H.
  apply bind_Ok_inv in H as ([[s5 s10] g1] & Hloop & H).
  apply bind_Ok_inv in H as (m5 & H5 & H).
  apply bind_Ok_inv in H as (m10 & H10 & [= <- <- <-]).
  assert (∀ v, (s5 !! t = Some v ∨ s10 !! t = Some v) → 0 <= v / IZR (n_sim cfg))
    as Hsums.
  { destruct (Z_lt_le_dec 0 (n_sim cfg)) as [Hpos|Hneg].
    - pose proof (for_range_Ok_inv
        (λ _ (st : gmap string R * gmap string R * rng),
           nonneg_at t st.1.1 ∧ nonneg_at t st.1.2) _ _ _ _ Hloop) as Hinv.
      cbn [fst snd] in Hinv. destruct Hinv as [Hn5 Hn10].
      + split; intros v; rewrite zero_sums_lookup; case_decide; intros [= <-]; lra.
      + intros k s s' _ Hs Hstep. by eapply simulate_draw_nonneg.
      + apply IZR_lt in Hpos. intros v [Hv|Hv].
        * apply Hn5 in Hv. apply Rmult_le_pos; [done|].
          apply Rlt_le, Rinv_0_lt_compat. done.
        * apply Hn10 in Hv. apply Rmult_le_pos; [done|].
          apply Rlt_le, Rinv_0_lt_compat. done.
    - replace (Z.to_nat (n_sim cfg)) with 0%nat in Hloop by lia.
      injection Hloop as <- <- _.
      intros v [Hv|Hv]; rewrite zero_sums_lookup in Hv; case_decide;
        simplify_eq; unfold Rdiv; rewrite Rmult_0_l; lra. }
  split.
  - apply (means_nonneg _ _ _ _ _ H5). intros v Hv. apply Hsums. by left.
  - apply (means_nonneg _ _ _ _ _ H10). intros v Hv. apply Hsums. by right.
Qed.

Lemma vo2_decline_run :
  ∃ mean5 mean10 g',
    simulate_client vo2_client vo2_cfg [] [] "decline" example_rng
    = Ok (mean5, mean10, g').
Proof.
  destruct (simulate_client_quiet vo2_cfg vo2_client "decline" (λ _, 0.1)) with
    (corr_tests := @nil string) (corr_L := @nil (list R)) (g := example_rng)
    as (mean5 & mean10 & g' & Hrun & _); try done.
  - apply NoDup_singleton.
  - intros t Ht. by apply vo2_well_configured.
  - apply quiet_values_defined. apply vo2_well_configured.
  - by exists mean5, mean10, g'.
Qed.

(** X15 ([simulate_client]): whatever the noise, the rates, the scenario and
    the number of draws are, a run that returns never reports a negative
    mean for a test with log-normal measurement noise or for a test that
    is not allowed to be negative. *)
Theorem simulated_means_not_negative cfg c corr_tests corr_L scenario g
    mean5 mean10 g' t v :
  t ∈ set_of (measurement_lognormal cfg) ∨ t ∉ allow_negative_set cfg →
  simulate_client c cfg corr_tests corr_L scenario g = Ok (mean5, mean10, g') →
  mean5 !! t = Some v ∨ mean10 !! t = Some v →
  0 <= v.
Proof.
  intros Hcase Hrun Hv.
  destruct (simulate_client_nonneg _ _ _ _ _ _ _ _ _ t Hcase Hrun) as [H5 H10].
  destruct Hv as [Hv|Hv]; [by apply H5|by apply H10].
Qed.

Lemma vo2_not_negative : "VO2 max" ∉ allow_negative_set vo2_cfg.
Proof.
  unfold allow_negative_set, set_of. rewrite elem_of_list_to_set. cbn.
  rewrite list_elem_of_singleton. done.
Qed.

Lemma simulated_means_not_negative_witness :
  ∃ mean5 mean10 g' v,
    simulate_client vo2_client vo2_cfg [] [] "decline" example_rng
    = Ok (mean5, mean10, g') ∧
    mean5 !! "VO2 max" = Some v ∧ 0 <= v.
Proof.
  destruct vo2_decline_run as (mean5 & mean10 & g' & Hrun).
  destruct (simulate_client_keys _ _ _ _ _ _ _ _ _ "VO2 max" Hrun) as [[v Hv] _];
    [left|].
  exists mean5, mean10, g', v. split_and!; [done|done|].
  apply (simulated_means_not_negative vo2_cfg vo2_client [] [] "decline"
           example_rng mean5 mean10 g' "VO2 max" v).
  - right. apply vo2_not_negative.
  - exact Hrun.
  - left. exact Hv.
Defined.

(** ** Runs without draws *)

Lemma means_of_zero_sums tests (n : Z) :
  n ≠ 0%Z →
  ∃ m, means tests (zero_sums tests) n = Ok m ∧
       ∀ t, m !! t = if decide (t ∈ tests) then Some 0 else None.
Proof.
  intros Hn. unfold means.
  destruct (for_each_total
              (λ pre (m : gmap string R),
                 ∀ t, m !! t = if decide (t ∈ pre) then Some 0 else None)
              tests
              (λ t (m : gmap string R),
                 s ← dict_get (zero_sums tests) t ;
                 q ← py_div s (IZR n) ; Ok (<[t := q]> m)) ∅)
    as (m & Hm & Hl); [| |by exists m].
  - intros t. rewrite lookup_empty. case_decide as Hin; [|done].
    by apply elem_of_nil in Hin.
  - intros pre x post m Hl Hm.
    assert (x ∈ tests) as Hx by (by eapply elem_of_middle).
    unfold dict_get. rewrite zero_sums_lookup, decide_True by done.
    rewrite bind_Ok. unfold py_div.
    destruct (Req_dec_T (IZR n) 0) as [E|_]; [by apply eq_IZR_R0 in E|].
    rewrite bind_Ok. eexists. split; [done|]. intros t.
    destruct (decide (t = x)) as [->|Hne].
    + rewrite lookup_insert_eq, decide_True by (apply elem_of_app; right; left).
      f_equal. unfold Rdiv. apply Rmult_0_l.
    + rewrite lookup_insert_ne, Hm by done.
      apply decide_ext. rewrite elem_of_app, list_elem_of_singleton. tauto.
Qed.

(** X16 ([simulate_client], the number of draws): a negative [n_sim] is not
    rejected: no draw is made, the generator is left untouched, and every
    test is reported with the mean [0.0] at both horizons; with [n_sim = 0]
    and at least one test the run stops with [ZeroDivisionError]. *)
Theorem simulate_client_without_draws c cfg corr_tests corr_L scenario g :
  ((n_sim cfg < 0)%Z →
   ∃ m, simulate_client c cfg corr_tests corr_L scenario g = Ok (m, m, g) ∧
        ∀ t, m !! t = if decide (t ∈ tests_order cfg) then Some 0 else None) ∧
  (n_sim cfg = 0%Z → tests_order cfg ≠ [] →
   simulate_client c cfg corr_tests corr_L scenario g = Err ZeroDivisionError).
Proof.
  unfold simulate_client. split.
  - intros Hn. replace (Z.to_nat (n_sim cfg)) with 0%nat by lia.
    cbn [range seq for_each]. rewrite bind_Ok.
    destruct (means_of_zero_sums (tests_order cfg) (n_sim cfg)) as (m & Hm & Hl);
      [lia|].
    exists m. by rewrite Hm, !bind_Ok.
  - intros Hn Htests. rewrite Hn. change (Z.to_nat 0) with 0%nat.
    cbn [range seq for_each].
    rewrite bind_Ok. destruct (tests_order cfg) as [|x rest]; [done|].
    unfold means. cbn [for_each]. unfold dict_get.
    rewrite zero_sums_lookup, decide_True by left.
    rewrite bind_Ok. unfold py_div.
    destruct (Req_dec_T (IZR 0) 0) as [_|Hne]; [done|by destruct Hne].
Qed.

Lemma simulate_client_without_draws_witness :
  ∃ m, simulate_client vo2_client (with_n_sim vo2_cfg (-1)) [] [] "decline"
         example_rng = Ok (m, m, example_rng) ∧
       ∀ t, m !! t = if decide (t ∈ tests_order (with_n_sim vo2_cfg (-1)))
                     then Some 0 else None.
Proof.
  apply (proj1 (simulate_client_without_draws vo2_client (with_n_sim vo2_cfg (-1))
                  [] [] "decline" example_rng)).
  reflexivity.
Defined.

(** ** The factorisation recovers a factor *)

Lemma matrix_ext n (A B : matrix) :
  square n A → square n B → (∀ a b, entry A a b = entry B a b) → A = B.
Proof.
  intros HA HB Hent. apply list_eq. intros i.
  destruct (decide (i < n)%nat) as [Hi|Hi].
  - destruct (square_lookup n A i HA Hi) as (ra & Ea & La).
    destruct (square_lookup n B i HB Hi) as (rb & Eb & Lb).
    rewrite Ea, Eb. f_equal. apply list_eq. intros j.
    specialize (Hent i j). unfold entry in Hent. rewrite Ea, Eb in Hent.
    destruct (decide (j < n)%nat) as [Hj|Hj].
    + destruct (lookup_lt_is_Some_2 ra j) as [x Hx]; [lia|].
      destruct (lookup_lt_is_Some_2 rb j) as [y Hy]; [lia|].
      rewrite Hx, Hy in Hent |- *. simpl in Hent. by rewrite Hent.
    + rewrite !lookup_ge_None_2 by lia. done.
  - destruct HA as [HlA _], HB as [HlB _].
    rewrite !lookup_ge_None_2 by lia. done.
Qed.

Lemma dotsum_S (f : nat → R) k : dotsum f (S k) = dotsum f k + f k.
Proof. reflexivity. Qed.

Lemma factor_product_cut n L0 a b :
  lower_triangular L0 → (b < n)%nat →
  mul_transpose n L0 a b
  = dotsum (λ k, entry L0 a k * entry L0 b k) b + entry L0 a b * entry L0 b b.
Proof.
  intros Hlow Hb. unfold mul_transpose.
  rewrite (dotsum_zero_tail _ (S b)); [apply dotsum_S|lia|].
  intros k Hk. rewrite (Hlow b k) by lia. lra.
Qed.

Lemma cholesky_cell_factor n L0 m i j L :
  cholesky_factor_of n L0 m → (j ≤ i)%nat → (i < n)%nat →
  factor_inv L0 n i j L →
  ∃ L', cholesky_cell m i j L = Ok L' ∧ factor_inv L0 n i (S j) L'.
Proof.
  intros (Hsq0 & Hlow & Hpos & Hm & Hprod) Hji Hin (HsqL & Hsame & Hzero).
  unfold cholesky_cell. rewrite (dot_loop_ok n) by (assumption || lia).
  rewrite bind_Ok.
  assert (dotsum (λ k, entry L i k * entry L j k) j
          = dotsum (λ k, entry L0 i k * entry L0 j k) j) as ->.
  { apply dotsum_ext. intros k Hk.
    rewrite (Hsame i k), (Hsame j k) by (unfold computed; lia). done. }
  set (s := dotsum (λ k, entry L0 i k * entry L0 j k) j).
  assert (entry m i j = s + entry L0 i j * entry L0 j j) as Hmij.
  { rewrite Hprod by lia. apply factor_product_cut; [done|lia]. }
  assert (0 < entry L0 j j) as Hjj by (apply Hpos; lia).
  assert (∀ x L', (∀ a b, entry L' a b
                          = if decide (a = i ∧ b = j) then x else entry L a b) →
                  x = entry L0 i j → square n L' → factor_inv L0 n i (S j) L')
    as Hnext.
  { intros x L' Hent -> HsqL'. split; [done|]. split.
    - intros a b Hc. rewrite Hent. case_decide as Hab; [by destruct Hab as [-> ->]|].
      apply Hsame. unfold computed in *. lia.
    - intros a b Hnc. rewrite Hent, decide_False by (unfold computed in *; lia).
      apply Hzero. unfold computed in *. lia. }
  destruct (decide (i = j)) as [->|Hne].
  - rewrite (mget_square n m) by (assumption || lia). rewrite bind_Ok.
    cbv zeta. rewrite Hmij.
    replace (s + entry L0 j j * entry L0 j j - s) with (entry L0 j j * entry L0 j j)
      by lra.
    destruct (Rle_dec (entry L0 j j * entry L0 j j) 0) as [Hle|_]; [nra|].
    unfold math_sqrt. destruct (Rle_dec 0 (entry L0 j j * entry L0 j j)); [|nra].
    rewrite bind_Ok, sqrt_square by lra.
    destruct (mset_square n L j j (entry L0 j j) HsqL Hin Hin)
      as (L' & -> & HsqL' & Hent).
    exists L'. split; [done|]. by apply (Hnext (entry L0 j j)).
  - rewrite (mget_square n m) by (assumption || lia). rewrite bind_Ok.
    rewrite (mget_square n L) by (assumption || lia). rewrite bind_Ok.
    rewrite (Hsame j j) by (unfold computed; lia).
    unfold py_div. destruct (Req_dec_T (entry L0 j j) 0); [lra|].
    rewrite bind_Ok, Hmij.
    replace ((s + entry L0 i j * entry L0 j j - s) / entry L0 j j)
      with (entry L0 i j) by (field; lra).
    destruct (mset_square n L i j (entry L0 i j) HsqL) as (L' & -> & HsqL' & Hent);
      [lia..|].
    exists L'. split; [done|]. by apply (Hnext (entry L0 i j)).
Qed.

Lemma cholesky_row_factor n L0 m i L :
  cholesky_factor_of n L0 m → (i < n)%nat →
  factor_inv L0 n i 0 L →
  ∃ L', cholesky_row m i L = Ok L' ∧ factor_inv L0 n (S i) 0 L'.
Proof.
  intros Hf Hin Hinv. unfold cholesky_row.
  destruct (for_range_total (λ j L, factor_inv L0 n i j L) (i + 1)
              (cholesky_cell m i) L Hinv) as (L' & HL' & Hsq & Hsame & Hzero).
  { intros j L1 Hj HL1. apply (cholesky_cell_factor n L0); auto with lia. }
  exists L'. split; [done|]. split; [done|]. split.
  - intros a b Hc. apply Hsame. unfold computed in *. lia.
  - intros a b Hnc. apply Hzero. unfold computed in *. lia.
Qed.

Lemma cholesky_of_product n L0 m :
  cholesky_factor_of n L0 m → cholesky m = Ok L0.
Proof.
  intros Hf. pose proof Hf as (Hsq0 & Hlow & Hpos & Hm & Hprod).
  unfold cholesky. pose proof Hm as [Hlen _]. rewrite Hlen.
  destruct (for_range_total (λ i L, factor_inv L0 n i 0 L) n
              (cholesky_row m) (zeros n)) as (L & HL & Hsq & Hsame & Hzero).
  - split; [apply zeros_square|]. split.
    + unfold computed. lia.
    + intros. apply entry_zeros.
  - intros i L Hi HL. by apply (cholesky_row_factor n L0).
  - rewrite HL. f_equal. apply (matrix_ext n); [done..|].
    intros a b. destruct (decide (a < n ∧ b ≤ a)%nat) as [Hab|Hab].
    + apply Hsame. unfold computed. lia.
    + rewrite Hzero by (unfold computed; lia).
      destruct (decide (a < b)%nat); [by rewrite Hlow|].
      rewrite (entry_outside n L0); [done..|lia].
Qed.

(** X17 ([cholesky]): the factorisation recovers every factor: for a
    lower-triangular [n] by [n] matrix [L0] with a positive diagonal, and a
    matrix [m] whose lower triangle is that of [L0 · L0ᵗ], [cholesky m]
    succeeds and returns [L0] itself.  It therefore succeeds on every
    matrix that has such a factor, and reads the lower triangle of [m]
    only. *)
Theorem cholesky_recovers_factor n (L0 m : matrix) :
  square n L0 → lower_triangular L0 →
  (∀ b, (b < n)%nat → 0 < entry L0 b b) →
  square n m →
  (∀ a b, (b ≤ a)%nat → (a < n)%nat → entry m a b = mul_transpose n L0 a b) →
  cholesky m = Ok L0.
Proof.
  intros Hsq Hlow Hpos Hm Hprod. apply (cholesky_of_product n). by split_and!.
Qed.

Lemma two_tests_factor_square : square 2 [[1; 0]; [0.6; 0.8]].
Proof.
  split; [done|]. intros [|[|i]] row H; simpl in H; by simplify_eq.
Qed.

Lemma two_tests_corr_square : square 2 [[1; 0.6]; [0.6; 1]].
Proof.
  split; [done|]. intros [|[|i]] row H; simpl in H; by simplify_eq.
Qed.

Lemma cholesky_recovers_factor_witness :
  cholesky [[1; 0.6]; [0.6; 1]] = Ok [[1; 0]; [0.6; 0.8]].
Proof.
  apply (cholesky_recovers_factor 2 [[1; 0]; [0.6; 0.8]] [[1; 0.6]; [0.6; 1]]).
  - apply two_tests_factor_square.
  - intros [|[|a]] [|[|b]] Hab; try lia; reflexivity.
  - intros [|[|b]] Hb; try lia; cbn; lra.
  - apply two_tests_corr_square.
  - intros [|[|a]] [|[|b]] Hba Ha; try lia;
      unfold mul_transpose, dotsum, entry; cbn; lra.
Defined.

Lemma for_range_ext {S : Type} n (body body' : nat → S → result S) s :
  (∀ k s, (k < n)%nat → body k s = body' k s) →
  for_each (range n) body s = for_each (range n) body' s.
Proof.
  unfold range. revert s. induction n as [|n IH]; intros s Hext; [done|].
  rewrite seq_S, !for_each_app. cbn [Nat.add].
  rewrite IH by (intros; apply Hext; lia).
  destruct (for_each (seq 0 n) body' s) as [s'|]; [|done].
  rewrite !bind_Ok. cbn [for_each]. rewrite Hext by lia. done.
Qed.

(** X18 ([cholesky]): the factorisation never reads above the diagonal: two
    [n] by [n] matrices with the same lower triangle have the same outcome,
    the same factor or the same error, so that an asymmetric matrix is
    factorised like the symmetric matrix of its lower triangle. *)
Theorem cholesky_reads_lower_triangle n (m m' : matrix) :
  square n m → square n m' →
  (∀ a b, (b ≤ a)%nat → (a < n)%nat → entry m a b = entry m' a b) →
  cholesky m = cholesky m'.
Proof.
  intros Hm Hm' Hsame. unfold cholesky.
  destruct Hm as [Hlen Hrows], Hm' as [Hlen' Hrows']. rewrite Hlen, Hlen'.
  apply for_range_ext. intros i L Hi. unfold cholesky_row.
  apply for_range_ext. intros j L' Hj. unfold cholesky_cell.
  rewrite !(mget_square n m), !(mget_square n m') by (done || lia).
  rewrite !Hsame by lia. done.
Qed.

Lemma cholesky_reads_lower_triangle_witness :
  cholesky [[1; 7]; [0.6; 1]] = cholesky [[1; 0.6]; [0.6; 1]].
Proof.
  apply (cholesky_reads_lower_triangle 2).
  - split; [done|]. intros [|[|i]] row H; simpl in H; by simplify_eq.
  - apply two_tests_corr_square.
  - intros [|[|a]] [|[|b]] Hba Ha; try lia; reflexivity.
Defined.

(** ** Errors of the correlation step *)

Lemma index_map_is_Some tests x :
  x ∈ tests ↔ ∃ i, index_map tests !! x = Some i ∧ (i < length tests)%nat.
Proof.
  split.
  - intros Hx. apply list_elem_of_lookup in Hx as [i Hi].
    assert ((i, x) ∈ zip (seq 0 (length tests)) tests) as Hin.
    { apply list_elem_of_lookup. exists i.
      apply lookup_zip_with_Some. exists i, x. split; [done|]. split; [|done].
      apply lookup_seq. split; [done|]. by eapply lookup_lt_Some. }
    assert (is_Some (index_map tests !! x)) as [k Hk].
    { unfold index_map. revert Hin.
      generalize (zip (seq 0 (length tests)) tests).
      assert (is_Some ((∅ : gmap string nat) !! x) ∨ True) as Hm by by right.
      revert Hm. generalize (∅ : gmap string nat).
      intros m Hm l. revert m Hm. induction l as [|p l IH]; intros m Hm Hl.
      - by apply elem_of_nil in Hl.
      - cbn [foldl].
        destruct (decide (p = (i, x))) as [->|Hne].
        + clear IH Hl Hm. cbn [fst snd].
          assert (is_Some (<[x := i]> m !! x)) as Hs
            by (rewrite lookup_insert_eq; by eexists).
          revert Hs. generalize (<[x := i]> m). clear m.
          induction l as [|q l IH]; intros m Hs; [done|].
          cbn [foldl]. apply IH. destruct (decide (q.2 = x)) as [<-|Hq].
          * rewrite lookup_insert_eq. by eexists.
          * by rewrite lookup_insert_ne.
        + apply IH; [by right|]. apply elem_of_cons in Hl as [Hl|Hl]; [|done].
          by subst p. }
    exists k. split; [done|]. apply index_map_lookup_Some in Hk.
    by eapply lookup_lt_Some.
  - intros (i & Hi & _). apply index_map_lookup_Some in Hi.
    by eapply list_elem_of_lookup_2.
Qed.

Lemma index_map_None tests x : x ∉ tests → index_map tests !! x = None.
Proof.
  intros Hx. destruct (index_map tests !! x) as [i|] eqn:E; [|done].
  exfalso. apply Hx. apply index_map_is_Some. exists i. split; [done|].
  apply index_map_lookup_Some in E. by eapply lookup_lt_Some.
Qed.

Lemma set_pair_outcome n tests p corr :
  length tests = n → square n corr →
  match set_pair (index_map tests) p corr with
  | Ok corr' => square n corr' ∧ known_pair tests p
  | Err e => e = KeyError ∧ ¬ known_pair tests p
  end.
Proof.
  intros Hn Hsq. destruct p as [[x y] v]. unfold set_pair, dict_get, known_pair.
  cbn [fst snd].
  destruct (decide (x ∈ tests)) as [Hx|Hx].
  - pose proof Hx as Hx'. apply index_map_is_Some in Hx' as (i & -> & Hi).
    rewrite bind_Ok.
    destruct (decide (y ∈ tests)) as [Hy|Hy].
    + pose proof Hy as Hy'. apply index_map_is_Some in Hy' as (j & -> & Hj).
      rewrite bind_Ok.
      destruct (mset_square n corr i j v Hsq) as (c1 & -> & Hsq1 & _); [lia..|].
      rewrite bind_Ok.
      destruct (mset_square n c1 j i v Hsq1) as (c2 & -> & Hsq2 & _); [lia..|].
      done.
    + rewrite (index_map_None _ _ Hy). split; [done|]. by intros [_ ?].
  - rewrite (index_map_None _ _ Hx). split; [done|]. by intros [? _].
Qed.

Lemma correlation_matrix_outcome c :
  match correlation_matrix c with
  | Ok corr => ∀ p, p ∈ corr_pairs c → known_pair (corr_tests c) p
  | Err e => e = KeyError ∧
             ∃ p, p ∈ corr_pairs c ∧ ¬ known_pair (corr_tests c) p
  end.
Proof.
  unfold correlation_matrix. cbv zeta.
  set (n := length (corr_tests c)).
  destruct (unit_diagonal_ok n) as (c0 & -> & Hsq0 & _). rewrite bind_Ok.
  pose proof (for_each_inv
    (λ pre m, square n m ∧ ∀ p, p ∈ pre → known_pair (corr_tests c) p)
    (λ e, e = KeyError ∧ ∃ p, p ∈ corr_pairs c ∧ ¬ known_pair (corr_tests c) p)
    (corr_pairs c) (set_pair (index_map (corr_tests c))) c0) as H.
  destruct (for_each (corr_pairs c) (set_pair (index_map (corr_tests c))) c0)
    as [corr|e]; apply H; clear H.
  1,3: (split; [done|]; intros p Hp; by apply elem_of_nil in Hp).
  all: intros pre p post m Hl [Hsq Hpre];
       pose proof (set_pair_outcome n (corr_tests c) p m eq_refl Hsq) as Hp;
       destruct (set_pair (index_map (corr_tests c)) p m) as [m'|e'].
  1,3: (destruct Hp as [Hsq' Hk]; split; [done|]; intros q Hq;
        apply elem_of_app in Hq as [Hq|Hq%list_elem_of_singleton];
        [by apply Hpre|by subst q]).
  all: destruct Hp as [-> Hk]; split; [done|]; exists p;
       split; [by eapply elem_of_middle|done].
Qed.

(** X19 ([build_correlation]): the only errors of the correlation step are
    [KeyError] and [RuntimeError], never an index error; it stops with
    [KeyError] exactly when some pair names a test that is not in the list
    of tests. *)
Theorem build_correlation_errors (c : correlations_cfg) :
  (build_correlation c = Err KeyError ↔
   ∃ p, p ∈ corr_pairs c ∧ ¬ known_pair (corr_tests c) p) ∧
  (∀ e, build_correlation c = Err e → e = KeyError ∨ e = RuntimeError).
Proof.
  pose proof (correlation_matrix_outcome c) as H. unfold build_correlation.
  destruct (correlation_matrix c) as [corr|e0].
  - rewrite bind_Ok.
    destruct (first_factor corr (length (corr_tests c)) epsilons) as [L|].
    + split; [|done]. split; [done|].
      intros (p & Hp & Hk). destruct Hk. by apply H.
    + split; [|intros e [= <-]; by right]. split; [done|].
      intros (p & Hp & Hk). destruct Hk. by apply H.
  - destruct H as [-> H]. rewrite bind_Err. split; [done|].
    intros e [= <-]. by left.
Qed.

Lemma build_correlation_errors_witness :
  build_correlation stray_pair_cfg = Err KeyError.
Proof.
  apply (proj1 (build_correlation_errors stray_pair_cfg)).
  exists ("VO2 max", "FEV1", 0.5). split; [left|].
  intros [_ H]. cbn in H. by apply list_elem_of_singleton in H.
Defined.

(** ** The correlated shocks as a product *)

Lemma draw_normals_spec n g :
  (draw_normals n g).2 = advance_normal n g ∧
  length (draw_normals n g).1 = n ∧
  ∀ k, (k < n)%nat →
    (draw_normals n g).1 !! k = Some (normal_src g (normal_pos g + k)).
Proof.
  revert g. induction n as [|n IH]; intros g.
  - split_and!; [|done|lia]. unfold advance_normal. destruct g. cbn.
    by rewrite Nat.add_0_r.
  - cbn [draw_normals]. unfold gauss. cbn [next_normal].
    specialize (IH (Rng (normal_src g) (S (normal_pos g)) (uniform_src g)
                      (uniform_pos g))).
    destruct (draw_normals n _) as [zs g2]. cbn [fst snd] in *.
    destruct IH as (-> & Hlen & Hz). split_and!.
    + unfold advance_normal. cbn. f_equal. lia.
    + cbn. by rewrite Hlen.
    + intros [|k] Hk.
      * rewrite Nat.add_0_r.
        transitivity (Some (0 + normal_src g (normal_pos g) * 1)); [done|].
        f_equal. lra.
      * transitivity (zs !! k); [done|]. rewrite Hz by lia. cbn [normal_src normal_pos].
        do 2 f_equal. lia.
Qed.

Lemma sample_correlated_z_value n (L : matrix) g :
  square n L →
  ∃ x, sample_correlated_z L g = Ok (x, advance_normal n g) ∧ length x = n ∧
       ∀ i, (i < n)%nat →
         x !! i = Some (dotsum (λ k, entry L i k * normal_src g (normal_pos g + k))
                          (S i)).
Proof.
  intros [Hlen Hrows]. unfold sample_correlated_z. rewrite Hlen.
  destruct (draw_normals_spec n g) as (Hg & Hzlen & Hz).
  destruct (draw_normals n g) as [z g']. cbn [fst snd] in *. subst g'.
  set (zv := λ k, normal_src g (normal_pos g + k)) in *.
  destruct (for_range_total
    (λ i (x : list R),
       length x = n ∧
       ∀ a, (a < i)%nat → x !! a = Some (dotsum (λ k, entry L a k * zv k) (S a)))
    n
    (λ i x,
       Li ← list_get L i ;
       s ← for_each (range (i + 1)) (λ k s,
              lik ← list_get Li k ; zk ← list_get z k ; Ok (s + lik * zk)) 0 ;
       list_set x i s) (replicate n 0)) as (x & -> & Hx & Hval).
  - split; [by rewrite length_replicate|lia].
  - intros i x Hi [Hx Hval].
    destruct (list_get_lt L i) as [Li ELi]; [lia|]. rewrite ELi, bind_Ok.
    assert (L !! i = Some Li) as HLi.
    { unfold list_get in ELi. destruct (L !! i) eqn:E; [|done]. by injection ELi as <-. }
    pose proof (Hrows _ _ HLi) as HLlen.
    destruct (for_range_total
      (λ k (s : R), s = dotsum (λ k, entry L i k * zv k) k) (i + 1)
      (λ k s, lik ← list_get Li k ; zk ← list_get z k ; Ok (s + lik * zk)) 0
      eq_refl) as (s & -> & ->).
    { intros k s Hk ->.
      assert (Li !! k = Some (entry L i k)) as Hlik.
      { unfold entry. rewrite HLi.
        destruct (lookup_lt_is_Some_2 Li k) as [v ->]; [lia|done]. }
      unfold list_get. rewrite Hlik, Hz by lia. rewrite !bind_Ok.
      eexists. split; [done|]. reflexivity. }
    rewrite bind_Ok. unfold list_set. rewrite decide_True by lia.
    eexists. split; [done|]. split; [by rewrite length_insert|].
    intros a Ha. destruct (decide (a = i)) as [->|Hne].
    + rewrite list_lookup_insert_eq by lia. by rewrite Nat.add_1_r.
    + rewrite list_lookup_insert_ne by done. apply Hval. lia.
  - rewrite bind_Ok. by exists x.
Qed.

(** X20 ([sample_correlated_z]): for a square factor the call never fails,
    consumes exactly [n] normal variates [z] and no uniform one, and returns
    the product of the lower triangle of [L] with [z]: component [i] is the
    sum of [L[i][k] * z[k]] for [k ≤ i]. *)
Theorem sample_correlated_z_product n (L : matrix) g :
  square n L →
  ∃ x, sample_correlated_z L g = Ok (x, advance_normal n g) ∧ length x = n ∧
       ∀ i, (i < n)%nat →
         x !! i = Some (dotsum (λ k, entry L i k * normal_src g (normal_pos g + k))
                          (S i)).
Proof. apply sample_correlated_z_value. Qed.

Lemma sample_correlated_z_product_witness :
  ∃ x, sample_correlated_z [[1; 0]; [0.6; 0.8]] example_rng
       = Ok (x, advance_normal 2 example_rng) ∧ length x = 2%nat ∧
       ∀ i, (i < 2)%nat →
         x !! i = Some (dotsum (λ k, entry [[1; 0]; [0.6; 0.8]] i k
                                     * normal_src example_rng
                                         (normal_pos example_rng + k)) (S i)).
Proof.
  apply (sample_correlated_z_product 2 [[1; 0]; [0.6; 0.8]] example_rng).
  apply two_tests_factor_square.
Defined.

(** ** Tests without correlations *)

Lemma identity_square n : square n (identity_matrix n).
Proof.
  unfold identity_matrix. split; [by rewrite length_map, length_seq|].
  intros i row Hi. apply list_lookup_fmap_Some in Hi as (k & -> & _).
  by rewrite length_map, length_seq.
Qed.

Lemma entry_identity n a b :
  entry (identity_matrix n) a b
  = if decide (a = b ∧ (a < n)%nat) then 1 else 0.
Proof.
  destruct (decide (a < n ∧ b < n)%nat) as [[Ha Hb]|Hout].
  - unfold entry, identity_matrix.
    change (map ?f ?l) with (f <$> l).
    rewrite list_lookup_fmap, lookup_seq_lt by done. cbn [fmap option_fmap option_map].
    change (map ?f ?l) with (f <$> l).
    rewrite list_lookup_fmap, lookup_seq_lt by done. cbn.
    apply decide_ext. lia.
  - rewrite (entry_outside n) by (apply identity_square || lia).
    rewrite decide_False; [done|lia].
Qed.

Lemma dotsum_zero (f : nat → R) k :
  (∀ i, (i < k)%nat → f i = 0) → dotsum f k = 0.
Proof.
  intros Hf. induction k as [|k IH]; [done|].
  cbn [dotsum]. rewrite IH, Hf by auto with lia. lra.
Qed.

Lemma identity_factor n : cholesky_factor_of n (identity_matrix n) (identity_matrix n).
Proof.
  split_and!.
  - apply identity_square.
  - intros a b Hab. rewrite entry_identity, decide_False; [done|lia].
  - intros b Hb. rewrite entry_identity, decide_True by done. lra.
  - apply identity_square.
  - intros a b Hba Ha. rewrite factor_product_cut.
    + rewrite dotsum_zero.
      * rewrite (entry_identity n b b), decide_True by lia. lra.
      * intros k Hk. rewrite (entry_identity n b k), decide_False by lia. lra.
    + intros x y Hxy. rewrite entry_identity, decide_False; [done|lia].
    + lia.
Qed.

Lemma no_pairs_matrix c :
  corr_pairs c = [] →
  correlation_matrix c = Ok (identity_matrix (length (corr_tests c))).
Proof.
  intros Hp. unfold correlation_matrix. cbv zeta. rewrite Hp.
  destruct (unit_diagonal_ok (length (corr_tests c))) as (c0 & -> & Hsq & Hent).
  rewrite bind_Ok. cbn [for_each]. f_equal.
  apply (matrix_ext (length (corr_tests c))); [done|apply identity_square|].
  intros a b. by rewrite Hent, entry_identity.
Qed.

(** X21 ([build_correlation], [cholesky], [sample_correlated_z]): with an
    empty list of pairs the factor is the identity matrix, found at the
    first attempt, and the correlated shocks are the independent normal
    variates themselves, one per correlated test. *)
Theorem no_pairs_independent_shocks (c : correlations_cfg) (g : rng) :
  corr_pairs c = [] →
  let n := length (corr_tests c) in
  build_correlation c = Ok (corr_tests c, identity_matrix n) ∧
  ∃ x, sample_correlated_z (identity_matrix n) g = Ok (x, advance_normal n g) ∧
       length x = n ∧
       ∀ i, (i < n)%nat → x !! i = Some (normal_src g (normal_pos g + i)).
Proof.
  intros Hp n. split.
  - unfold build_correlation. rewrite (no_pairs_matrix c Hp), bind_Ok. fold n.
    unfold epsilons. cbn [first_factor]. unfold try_cholesky.
    destruct (Rlt_dec 0 0) as [?|_]; [lra|]. rewrite bind_Ok.
    by rewrite (cholesky_of_product n (identity_matrix n)) by apply identity_factor.
  - destruct (sample_correlated_z_value n (identity_matrix n) g (identity_square n))
      as (x & Hx & Hlen & Hval).
    exists x. split_and!; [done..|]. intros i Hi. rewrite (Hval i Hi).
    f_equal. cbn [dotsum]. rewrite dotsum_zero.
    + rewrite entry_identity, decide_True by done. lra.
    + intros k Hk. rewrite entry_identity, decide_False by lia. lra.
Qed.

Lemma no_pairs_independent_shocks_witness :
  build_correlation {| corr_tests := ["VO2 max"; "FEV1"]; corr_pairs := [] |}
  = Ok (["VO2 max"; "FEV1"], identity_matrix 2) ∧
  ∃ x, sample_correlated_z (identity_matrix 2) example_rng
       = Ok (x, advance_normal 2 example_rng) ∧
       length x = 2%nat ∧
       ∀ i, (i < 2)%nat →
         x !! i = Some (normal_src example_rng (normal_pos example_rng + i)).
Proof.
  apply (no_pairs_independent_shocks
           {| corr_tests := ["VO2 max"; "FEV1"]; corr_pairs := [] |} example_rng).
  reflexivity.
Defined.

(** ** Declining in two steps *)

Lemma Rpower_years f y z :
  Rpower f ((y + z) / 10) = Rpower f (y / 10) * Rpower f (z / 10).
Proof.
  rewrite <- Rpower_plus. f_equal. lra.
Qed.

Lemma seg_value_add hib absd val rate y z :
  0 <= y → 0 <= z → absd = true ∨ -1 <= rate <= 1 →
  seg_value hib absd (seg_value hib absd val rate y) rate z
  = seg_value hib absd val rate (y + z).
Proof.
  intros Hy Hz Hb.
  destruct (Rle_dec y 0) as [Hy0|Hy0].
  { assert (y = 0) as -> by lra. rewrite seg_value_zero. f_equal. lra. }
  destruct (Rle_dec z 0) as [Hz0|Hz0].
  { assert (z = 0) as -> by lra. rewrite seg_value_zero. f_equal. lra. }
  unfold seg_value.
  destruct (Rle_dec y 0); [lra|]. destruct (Rle_dec z 0); [lra|].
  destruct (Rle_dec (y + z) 0); [lra|].
  destruct absd.
  { destruct hib; lra. }
  destruct Hb as [?|Hb]; [done|]. cbv zeta.
  pose proof (Rpower_years (1 - rate) y z) as Hm.
  pose proof (Rpower_years (1 + rate) y z) as Hp.
  pose proof (Rpower_pos (1 - rate) (y / 10)) as Hm1.
  pose proof (Rpower_pos (1 + rate) (y / 10)) as Hp1.
  destruct hib; destruct (Rle_dec 0 val) as [Hv|Hv];
    destruct (Rlt_dec 0 (1 - rate)); destruct (Rlt_dec 0 (1 + rate));
    repeat match goal with
           | |- context [Rle_dec 0 ?v] => destruct (Rle_dec 0 v)
           end;
    repeat match goal with
           | |- context [Rlt_dec 0 ?f] => destruct (Rlt_dec 0 f)
           end;
    try rewrite Hm; try rewrite Hp; try lra; try nra.
Qed.

Lemma decline_value_add value age_start y z rate_base rate_post accel_age hib absd :
  0 <= y → 0 <= z →
  absd = true ∨ (-1 <= rate_base <= 1 ∧ -1 <= default rate_base rate_post <= 1) →
  decline_value
    (decline_value value age_start y rate_base rate_post accel_age hib absd)
    (age_start + y) z rate_base rate_post accel_age hib absd
  = decline_value value age_start (y + z) rate_base rate_post accel_age hib absd.
Proof.
  intros Hy Hz Hb.
  assert (absd = true ∨ -1 <= rate_base <= 1) as Hb1 by tauto.
  assert (absd = true ∨ -1 <= default rate_base rate_post <= 1) as Hb2 by tauto.
  set (rp := default rate_base rate_post) in *.
  unfold decline_value. fold rp.
  destruct (Rle_dec y 0) as [Hy0|Hy0].
  { assert (y = 0) as -> by lra.
    replace (age_start + 0) with age_start by lra.
    replace (0 + z) with z by lra. done. }
  destruct (Rle_dec z 0) as [Hz0|Hz0].
  { assert (z = 0) as -> by lra. replace (y + 0) with y by lra.
    destruct (Rle_dec y 0); [lra|done]. }
  destruct (Rle_dec (y + z) 0); [lra|].
  unfold split_years. destruct accel_age as [a|]; cbn [fst snd].
  - destruct (Rlt_dec age_start a) as [Hs|Hs]; cbn [fst snd].
    + destruct (Rle_dec y (a - age_start)) as [Hya|Hya].
      * rewrite (Rmin_left y) by done.
        replace (y - y) with 0 by lra. rewrite seg_value_zero.
        destruct (Rlt_dec (age_start + y) a) as [Hsy|Hsy]; cbn [fst snd].
        -- destruct (Rle_dec z (a - (age_start + y))) as [Hza|Hza].
           ++ rewrite (Rmin_left z), (Rmin_left (y + z)) by lra.
              replace (z - z) with 0 by lra.
              replace (y + z - (y + z)) with 0 by lra.
              rewrite !seg_value_zero. by apply seg_value_add.
           ++ rewrite (Rmin_right z), (Rmin_right (y + z)) by lra.
              rewrite seg_value_add by (done || lra).
              replace (y + (a - (age_start + y))) with (a - age_start) by lra.
              replace (z - (a - (age_start + y))) with (y + z - (a - age_start))
                by lra.
              done.
        -- assert (a - age_start = y) as Hyeq by lra.
           rewrite seg_value_zero, (Rmin_right (y + z)) by lra.
           rewrite Hyeq. replace (y + z - y) with z by lra. done.
      * rewrite (Rmin_right y), (Rmin_right (y + z)) by lra.
        destruct (Rlt_dec (age_start + y) a); [lra|]. cbn [fst snd].
        rewrite seg_value_zero, seg_value_add by (done || lra).
        replace (y - (a - age_start) + z) with (y + z - (a - age_start)) by lra.
        done.
    + destruct (Rlt_dec (age_start + y) a); [lra|]. cbn [fst snd].
      rewrite !seg_value_zero. by apply seg_value_add.
  - rewrite !seg_value_zero. by apply seg_value_add.
Qed.

(** X22 ([apply_decline]): the projection is consistent over time: with
    rates that keep every power real (absolute decline, or base and post
    rate in [[-1, 1]]), declining for [y] years from an age and then for
    [z] more years from the age reached gives the value of declining for
    [y + z] years at once, also across the acceleration age. *)
Theorem apply_decline_additive value age_start y z rate_base rate_post accel_age
    (hib absd : bool) :
  0 <= y → 0 <= z →
  absd = true ∨ (-1 <= rate_base <= 1 ∧ ∀ p, rate_post = Some p → -1 <= p <= 1) →
  (v ← apply_decline value age_start y rate_base rate_post accel_age hib absd ;
   apply_decline v (age_start + y) z rate_base rate_post accel_age hib absd)
  = apply_decline value age_start (y + z) rate_base rate_post accel_age hib absd.
Proof.
  intros Hy Hz Hb. rewrite !apply_decline_value by done. rewrite bind_Ok.
  rewrite apply_decline_value by done. f_equal.
  apply decline_value_add; [done..|].
  destruct Hb as [?|[Hr Hp]]; [by left|right]. split; [done|].
  destruct rate_post as [p|]; cbn; [by apply Hp|done].
Qed.

Lemma apply_decline_additive_witness :
  (v ← apply_decline 40 45 5 0.05 (Some 0.1) (Some 50) true false ;
   apply_decline v (45 + 5) 5 0.05 (Some 0.1) (Some 50) true false)
  = apply_decline 40 45 (5 + 5) 0.05 (Some 0.1) (Some 50) true false.
Proof.
  apply (apply_decline_additive 40 45 5 5 0.05 (Some 0.1) (Some 50) true false).
  - lra.
  - lra.
  - right. split; [lra|]. intros p [= <-]. lra.
Defined.

(** ** The sanity check of the decline run *)

Lemma quiet_decline_direction cfg c imp t b :
  quiet cfg c t → bounded_rates cfg t →
  data c !! t = Some (Some b) →
  practice_applies cfg 5 t = false →
  practice_applies cfg 10 t = false →
  (∀ p, post_rate_per_decade (decline cfg) !! t = Some p → 0 <= p) →
  let q y := quiet_value_or_0 cfg c "decline" imp y t in
  (t ∈ higher_is_better cfg →
   0 <= b ∨ ((t ∉ measurement_lognormal cfg) ∧ t ∈ allow_negative_set cfg) →
   q 5 <= b ∧ q 10 <= b) ∧
  (t ∉ higher_is_better cfg → b <= q 5 ∧ b <= q 10).
Proof.
  intros ((mu & Hmu & _) & _) Hb Hdata Hp5 Hp10 Hpost q. unfold q.
  unfold quiet_value_or_0.
  rewrite (quiet_value_closed cfg c "decline" imp 5 t mu Hmu Hb).
  rewrite (quiet_value_closed cfg c "decline" imp 10 t mu Hmu Hb).
  cbv zeta. rewrite !practice_disabled by done.
  rewrite !decide_False by done.
  unfold baseline_or_0. rewrite Hdata.
  set (mln := set_of (measurement_lognormal cfg)).
  set (allow := allow_negative_set cfg).
  set (hib := bool_decide (t ∈ set_of (higher_is_better cfg))).
  set (absd := bool_decide (t ∈ absolute_decline_set cfg)).
  set (rp := post_rate_per_decade (decline cfg) !! t) in *.
  set (accel := accelerate_from_age (decline cfg) !! t).
  set (start := clamped t mln allow b).
  assert (0 <= Rmax 0 mu) as Hr by apply Rmax_l.
  assert (0 <= default (Rmax 0 mu) rp) as Hrp.
  { destruct rp as [p|] eqn:E; simpl; [by apply Hpost|done]. }
  assert (absd = true ∨ (Rmax 0 mu <= 1 ∧ default (Rmax 0 mu) rp <= 1)) as Hbound.
  { destruct (bounded_rates_decline cfg t mu Hmu Hb) as [?|[Hb1 Hb2]]; [by left|].
    right. split; [lra|]. fold rp in Hb2. destruct rp as [p|] eqn:E; simpl; [|lra].
    by apply Hb2. }
  pose proof (decline_value_mono start (age_or_0 (age c)) 5 10 (Rmax 0 mu) rp accel
                hib absd Hr Hrp Hbound ltac:(lra) ltac:(lra)) as Hmono.
  cbv zeta in Hmono.
  set (d5 := decline_value start (age_or_0 (age c)) 5 (Rmax 0 mu) rp accel hib absd)
    in *.
  set (d10 := decline_value start (age_or_0 (age c)) 10 (Rmax 0 mu) rp accel hib absd)
    in *.
  pose proof (clamped_idemp t mln allow b) as Hidem. fold start in Hidem.
  split.
  - intros Hin Hcase. assert (hib = true) as Hhib.
    { apply bool_decide_eq_true_2. unfold set_of. by apply elem_of_list_to_set. }
    rewrite Hhib in Hmono. destruct Hmono as [H105 H5v].
    assert (start = b) as Hstart.
    { unfold start. destruct Hcase as [Hb0|[Hadd Hallow]].
      - by apply clamped_nonneg.
      - apply clamped_allowed; [|done]. unfold mln, set_of.
        by rewrite elem_of_list_to_set. }
    pose proof (clamped_mono t mln allow d5 start H5v) as H5.
    pose proof (clamped_mono t mln allow d10 d5 H105) as H10.
    rewrite Hidem in H5. lra.
  - intros Hnin. assert (hib = false) as Hhib.
    { apply bool_decide_eq_false_2. unfold set_of. by rewrite elem_of_list_to_set. }
    rewrite Hhib in Hmono. destruct Hmono as [Hv5 H510].
    pose proof (clamped_mono t mln allow start d5 Hv5) as H5.
    pose proof (clamped_mono t mln allow d5 d10 H510) as H10.
    rewrite Hidem in H5. pose proof (clamped_ge t mln allow b) as Hge.
    fold start in Hge. lra.
Qed.

Lemma is_bad_not_above s delta baseline :
  0 <= tolerance_abs s ∨ 0 <= tolerance_rel s →
  delta <= 0 → is_bad s delta baseline true = false.
Proof.
  intros Htol Hd. unfold is_bad.
  assert (0 <= Rmax (tolerance_abs s) (tolerance_rel s * Rabs baseline)) as H.
  { destruct Htol as [Ha|Hr].
    - eapply Rle_trans; [exact Ha|apply Rmax_l].
    - eapply Rle_trans; [|apply Rmax_r].
      apply Rmult_le_pos; [done|apply Rabs_pos]. }
  destruct (Rlt_dec _ delta); [lra|done].
Qed.

Lemma is_bad_not_below s delta baseline :
  0 <= tolerance_abs s ∨ 0 <= tolerance_rel s →
  0 <= delta → is_bad s delta baseline false = false.
Proof.
  intros Htol Hd. unfold is_bad.
  assert (0 <= Rmax (tolerance_abs s) (tolerance_rel s * Rabs baseline)) as H.
  { destruct Htol as [Ha|Hr].
    - eapply Rle_trans; [exact Ha|apply Rmax_l].
    - eapply Rle_trans; [|apply Rmax_r].
      apply Rmult_le_pos; [done|apply Rabs_pos]. }
  destruct (Rlt_dec delta _); [lra|done].
Qed.

Lemma fold_sanity_nil s cfg c mean5 mean10 tests :
  (∀ t, t ∈ tests → sanity_step s cfg c mean5 mean10 [] t = []) →
  fold_left (sanity_step s cfg c mean5 mean10) tests [] = [].
Proof.
  induction tests as [|t tests IH]; intros H; [done|].
  cbn [fold_left]. rewrite H by left. apply IH. intros t' Ht'. apply H. by right.
Qed.

(** X23 ([run_decline_sanity_checks] after [simulate_client]): a decline
    run of one draw without measurement noise and rate uncertainty passes
    the sanity check: when no test is touched by the practice effect, every
    post rate lies in [[0, 1)], every higher-is-better test has a baseline
    that is not clamped, and one of the two tolerances is not negative, the
    run succeeds and the check prints nothing.  With one draw a mean is the
    value of the draw itself; a mean of several equal draws is their sum
    divided by their number, which is the draw over the reals only. *)
Theorem quiet_decline_passes_sanity_check (s : sanity_cfg) (cfg : config)
    (c : client) (corr_tests : list string) (corr_L : list (list R)) (g : rng) :
  NoDup (tests_order cfg) →
  (∀ t, t ∈ tests_order cfg → quiet cfg c t ∧ bounded_rates cfg t) →
  square (length corr_tests) corr_L →
  n_sim cfg = 1%Z →
  (∀ t, t ∈ tests_order cfg →
     practice_applies cfg 5 t = false ∧ practice_applies cfg 10 t = false ∧
     (∀ p, post_rate_per_decade (decline cfg) !! t = Some p → 0 <= p < 1)) →
  (∀ t b, t ∈ higher_is_better cfg → data c !! t = Some (Some b) →
     0 <= b ∨ ((t ∉ measurement_lognormal cfg) ∧ t ∈ allow_negative_set cfg)) →
  0 <= tolerance_abs s ∨ 0 <= tolerance_rel s →
  ∃ mean5 mean10 g',
    simulate_client c cfg corr_tests corr_L "decline" g = Ok (mean5, mean10, g') ∧
    run_decline_sanity_checks s c mean5 mean10 cfg = [].
Proof.
  intros Hnd Hall Hsq Hn Htests Hbase Htol.
  destruct (simulate_client_quiet cfg c "decline" (λ _, 0) Hnd) with
    (corr_tests := corr_tests) (corr_L := corr_L) (g := g)
    as (mean5 & mean10 & g' & Hrun & Hmeans & _); try done.
  { intros t Ht. by apply Hall. }
  { by apply quiet_values_defined. }
  { by rewrite Hn. }
  exists mean5, mean10, g'. split; [done|].
  unfold run_decline_sanity_checks. destruct (sanity_enabled s); [|done].
  apply fold_sanity_nil. intros t Ht. unfold sanity_step.
  destruct (data c !! t) as [[b|]|] eqn:Hdata; [|done..].
  destruct (Hmeans t Ht) as [H5 H10].
  destruct (Hall t Ht) as [Hq Hb]. destruct (Htests t Ht) as (Hp5 & Hp10 & Hpost).
  assert (∀ p, post_rate_per_decade (decline cfg) !! t = Some p → 0 <= p)
    as Hpost' by (intros p Hp; by destruct (Hpost p Hp)).
  destruct (quiet_decline_direction cfg c (λ _, 0) t b Hq Hb Hdata Hp5 Hp10 Hpost')
    as [Hhigh Hlow].
  unfold check_mean. rewrite H5, H10.
  destruct (decide (t ∈ set_of (higher_is_better cfg))) as [Hin|Hnin].
  - unfold set_of in Hin. apply elem_of_list_to_set in Hin.
    destruct (Hhigh Hin (Hbase t b Hin Hdata)) as [Hv5 Hv10].
    rewrite !is_bad_not_above by (done || lra). done.
  - unfold set_of in Hnin. rewrite elem_of_list_to_set in Hnin.
    destruct (Hlow Hnin) as [Hv5 Hv10].
    destruct (decide (t ∈ set_of (lower_is_better cfg))); [|done].
    rewrite !is_bad_not_below by (done || lra). done.
Qed.

Lemma quiet_decline_passes_sanity_check_witness :
  ∃ mean5 mean10 g',
    simulate_client vo2_client vo2_cfg [] [] "decline" example_rng
    = Ok (mean5, mean10, g') ∧
    run_decline_sanity_checks default_sanity vo2_client mean5 mean10 vo2_cfg = [].
Proof.
  apply (quiet_decline_passes_sanity_check default_sanity vo2_cfg vo2_client [] []
           example_rng).
  - apply NoDup_singleton.
  - apply vo2_well_configured.
  - apply square_nil.
  - reflexivity.
  - intros t ->%list_elem_of_singleton. split_and!; [done..|].
    intros p H. cbn in H. by rewrite lookup_empty in H.
  - intros t b ->%list_elem_of_singleton. cbn. rewrite lookup_singleton_eq.
    intros [= <-]. left. lra.
  - left. cbn. lra.
Defined.

(** ** The shape of the results *)

Lemma means_keys_only tests sums n m t :
  means tests sums n = Ok m → is_Some (m !! t) → t ∈ tests.
Proof.
  intros Hm. unfold means in Hm.
  apply (for_each_Ok_inv
           (λ pre (m : gmap string R), is_Some (m !! t) → t ∈ pre) _ _ _ _ Hm).
  - rewrite lookup_empty. by intros [? ?].
  - intros pre x post m0 m1 _ Hpre Hstep.
    apply bind_Ok_inv in Hstep as (s & _ & Hstep).
    apply bind_Ok_inv in Hstep as (q & _ & [= <-]).
    intros Hsome. apply elem_of_app.
    destruct (decide (t = x)) as [->|Hne]; [right; left|left].
    rewrite lookup_insert_ne in Hsome by done. by apply Hpre.
Qed.

(** X24 ([simulate_client], [build_sheet_rows]): a run that returns reports
    exactly the tests of [tests_order], no other key, at both horizons, and
    its sheet is the header followed by one row per test, in that order,
    whose two mean cells are numbers, never blank. *)
Theorem result_sheet_shape c cfg corr_tests corr_L scenario g mean5 mean10 g' :
  simulate_client c cfg corr_tests corr_L scenario g = Ok (mean5, mean10, g') →
  (∀ t, is_Some (mean5 !! t) ↔ t ∈ tests_order cfg) ∧
  (∀ t, is_Some (mean10 !! t) ↔ t ∈ tests_order cfg) ∧
  ∃ v5 v10 : string → R,
    build_sheet_rows c mean5 mean10 (tests_order cfg)
    = [CText "Test"; CText "Baseline"; CText "Year 5 Mean"; CText "Year 10 Mean"]
      :: map (λ t, [CText t; baseline_cell (data c) t;
                    CNumber (v5 t); CNumber (v10 t)]) (tests_order cfg).
Proof.
  intros Hrun. pose proof Hrun as H. unfold simulate_client in H.
  apply bind_Ok_inv in H as ([[s5 s10] g1] & _ & H).
  apply bind_Ok_inv in H as (m5 & H5 & H).
  apply bind_Ok_inv in H as (m10 & H10 & [= <- <- <-]).
  split_and!.
  - intros t. split; [by apply (means_keys_only _ _ _ _ _ H5)|].
    by apply (means_keys _ _ _ _ _ H5).
  - intros t. split; [by apply (means_keys_only _ _ _ _ _ H10)|].
    by apply (means_keys _ _ _ _ _ H10).
  - exists (λ t, default 0 (m5 !! t)), (λ t, default 0 (m10 !! t)).
    unfold build_sheet_rows. f_equal. apply map_ext_in. intros t Ht.
    apply list_elem_of_In in Ht.
    destruct (means_keys _ _ _ _ t H5 Ht) as [v5 E5].
    destruct (means_keys _ _ _ _ t H10 Ht) as [v10 E10].
    unfold get_or_blank. by rewrite E5, E10.
Qed.

Lemma result_sheet_shape_witness :
  ∃ mean5 mean10 g',
    simulate_client vo2_client vo2_cfg [] [] "decline" example_rng
    = Ok (mean5, mean10, g') ∧
    (∀ t, is_Some (mean5 !! t) ↔ t ∈ tests_order vo2_cfg) ∧
    (∀ t, is_Some (mean10 !! t) ↔ t ∈ tests_order vo2_cfg) ∧
    ∃ v5 v10 : string → R,
      build_sheet_rows vo2_client mean5 mean10 (tests_order vo2_cfg)
      = [CText "Test"; CText "Baseline"; CText "Year 5 Mean"; CText "Year 10 Mean"]
        :: map (λ t, [CText t; baseline_cell (data vo2_client) t;
                      CNumber (v5 t); CNumber (v10 t)]) (tests_order vo2_cfg).
Proof.
  destruct vo2_decline_run as (mean5 & mean10 & g' & Hrun).
  exists mean5, mean10, g'. split; [done|].
  apply (result_sheet_shape vo2_client vo2_cfg [] [] "decline" example_rng
           mean5 mean10 g').
  exact Hrun.
Defined.

(** ** Direction of the projection *)

(** X25 ([apply_decline]): with rates between [0] and [1], or any
    non-negative rates under absolute decline, the projection never fails
    and never improves a value: for a higher-is-better test the value after
    [years'] years is at most the value after [years <= years'] years, which
    is at most the starting value; for the other tests the inequalities are
    reversed. *)
Theorem apply_decline_never_improves value age_start years years' rate_base
    rate_post accel_age (hib absd : bool) :
  0 <= rate_base → (∀ p, rate_post = Some p → 0 <= p) →
  absd = true ∨ (rate_base <= 1 ∧ ∀ p, rate_post = Some p → p <= 1) →
  0 <= years → years <= years' →
  ∃ v v',
    apply_decline value age_start years rate_base rate_post accel_age hib absd
    = Ok v ∧
    apply_decline value age_start years' rate_base rate_post accel_age hib absd
    = Ok v' ∧
    if hib then v' <= v ∧ v <= value else value <= v ∧ v <= v'.
Proof.
  intros Hr Hp Hb Hy Hyy.
  assert (absd = true ∨
          (-1 <= rate_base <= 1 ∧ ∀ p, rate_post = Some p → -1 <= p <= 1)) as Hb'.
  { destruct Hb as [?|[Hr1 Hp1]]; [by left|right]. split; [lra|].
    intros p E. specialize (Hp p E). specialize (Hp1 p E). lra. }
  eexists _, _. split; [by apply apply_decline_value|].
  split; [by apply apply_decline_value|].
  apply (decline_value_mono value age_start years years' rate_base rate_post
           accel_age hib absd); try done.
  - destruct rate_post as [p|]; cbn; [by apply Hp|done].
  - destruct Hb as [?|[Hr1 Hp1]]; [by left|right]. split; [done|].
    destruct rate_post as [p|]; cbn; [by apply Hp1|done].
Qed.

Lemma apply_decline_never_improves_witness :
  ∃ v v',
    apply_decline 40 45 5 0.05 (Some 0.1) (Some 50) true false = Ok v ∧
    apply_decline 40 45 10 0.05 (Some 0.1) (Some 50) true false = Ok v' ∧
    if true then v' <= v ∧ v <= 40 else 40 <= v ∧ v <= v'.
Proof.
  apply (apply_decline_never_improves 40 45 5 10 0.05 (Some 0.1) (Some 50)
           true false).
  - lra.
  - intros p [= <-]. lra.
  - right. split; [lra|]. intros p [= <-]. lra.
  - lra.
  - lra.
Defined.

(** ** References of cells *)

Lemma str_app_inj_l (a s1 s2 : string) : a +:+ s1 = a +:+ s2 → s1 = s2.
Proof.
  induction a as [|x a IH]; str_simpl; [done|]. intros [= H]. by apply IH.
Qed.

Lemma str_of_nat_inj n n' : str_of_nat n = str_of_nat n' → n = n'.
Proof.
  unfold str_of_nat. intros H. apply DecimalNat.Unsigned.to_uint_inj.
  pose proof (DecimalString.NilEmpty.usu (Nat.to_uint n)) as Hn.
  rewrite H, DecimalString.NilEmpty.usu in Hn. by injection Hn.
Qed.

(** X26 ([write_sheet_xml], [col_name]): two cells of a sheet have the same
    reference only if they are the same cell: the reference made of
    [col_name c_idx] and the row number determines both the column and the
    row. *)
Theorem cell_ref_injective c_idx r_idx c_idx' r_idx' :
  cell_ref c_idx r_idx = cell_ref c_idx' r_idx' ↔ c_idx = c_idx' ∧ r_idx = r_idx'.
Proof.
  split; [|by intros [-> ->]].
  intros H. assert (c_idx = c_idx') as <-.
  { pose proof (f_equal col_val (f_equal (str_filter isalpha) H)) as Hc.
    unfold cell_ref, str_of_nat in Hc.
    rewrite !str_filter_app, !digits_not_alpha, !str_app_nil_r in Hc.
    rewrite !str_filter_all in Hc
      by (eapply Forall_impl;
          [apply col_name_loop_upper; constructor|apply is_upper_isalpha]).
    rewrite !col_val_col_name in Hc. lia. }
  split; [done|]. unfold cell_ref in H.
  by apply str_app_inj_l, str_of_nat_inj in H.
Qed.

(** ** A baseline cell that is not a number *)

Lemma for_each_Ok_steps {A S : Type} (l : list A) (body : A → S → result S) s0 s1 x :
  for_each l body s0 = Ok s1 → x ∈ l → ∃ s s', body x s = Ok s'.
Proof.
  intros Hrun. revert x.
  apply (for_each_Ok_inv (λ pre _, ∀ x, x ∈ pre → ∃ s s', body x s = Ok s')
           _ _ _ _ Hrun).
  - intros x Hx. by apply elem_of_nil in Hx.
  - intros pre y post s s' _ Hpre Hstep x Hx.
    apply elem_of_app in Hx as [Hx|Hx%list_elem_of_singleton]; [by apply Hpre|].
    subst y. by exists s, s'.
Qed.

Lemma true0_step_non_numeric cfg c t st :
  data c !! t = Some None → ∃ e, true0_step cfg c t st = Err e.
Proof.
  intros Hdata. unfold true0_step. destruct st as [true0 g].
  rewrite Hdata. cbn [default]. unfold infer_true_from_observed.
  destruct (dict_get (measurement_cv cfg) t) as [cv|e]; [|by exists e].
  rewrite bind_Ok. by exists TypeError.
Qed.

(** X27 ([simulate_client], [infer_true_from_observed]): a baseline cell
    that is not a number is not skipped and not read as zero: when the data
    of a client holds [None] for a test of [tests_order] and at least one
    draw is made, the run raises and returns no means. *)
Theorem non_numeric_baseline_stops_run c cfg corr_tests corr_L scenario g t :
  t ∈ tests_order cfg → data c !! t = Some None → (0 < n_sim cfg)%Z →
  ∃ e, simulate_client c cfg corr_tests corr_L scenario g = Err e.
Proof.
  intros Ht Hdata Hn.
  destruct (simulate_client c cfg corr_tests corr_L scenario g)
    as [[[m5 m10] g']|e] eqn:Hrun; [exfalso|by exists e].
  unfold simulate_client in Hrun.
  apply bind_Ok_inv in Hrun as ([[s5 s10] g1] & Hloop & _).
  destruct (for_each_Ok_steps _ _ _ _ 0%nat Hloop) as ([[a5 a10] g2] & st' & Hdraw).
  { unfold range. apply elem_of_seq. lia. }
  unfold simulate_draw in Hdraw.
  apply bind_Ok_inv in Hdraw as ([z g3] & _ & Hdraw).
  apply bind_Ok_inv in Hdraw as (zm & _ & Hdraw).
  apply bind_Ok_inv in Hdraw as ([[rate rp] g4] & _ & Hdraw).
  apply bind_Ok_inv in Hdraw as ([true0 g5] & Htrue0 & _).
  destruct (for_each_Ok_steps _ _ _ _ t Htrue0 Ht) as (st1 & st2 & Hstep).
  destruct (true0_step_non_numeric cfg c t st1 Hdata) as [e He].
  by rewrite He in Hstep.
Qed.

Lemma non_numeric_baseline_stops_run_witness :
  ∃ e, simulate_client (with_baseline_cell vo2_client "VO2 max" None) vo2_cfg
         [] [] "decline" example_rng = Err e.
Proof.
  apply (non_numeric_baseline_stops_run
           (with_baseline_cell vo2_client "VO2 max" None) vo2_cfg [] []
           "decline" example_rng "VO2 max").
  - left.
  - apply lookup_insert_eq.
  - reflexivity.
Defined.

(** ** The log-normal shape parameter *)

(** X28 ([lognormal_sigma_from_cv]): the shape parameter is defined for
    every coefficient of variation, negative ones included: neither the
    logarithm nor the square root can raise; it is never negative, it is
    the same for [cv] and [- cv], and it is zero when the coefficient is. *)
Theorem lognormal_sigma_defined (cv : R) :
  ∃ sigma, lognormal_sigma_from_cv cv = Ok sigma ∧ 0 <= sigma ∧
           lognormal_sigma_from_cv (- cv) = Ok sigma ∧
           (cv = 0 → sigma = 0).
Proof.
  exists (sqrt (ln (1 + cv * cv))). split; [apply lognormal_sigma_ok|].
  split; [apply sqrt_pos|]. split.
  - rewrite lognormal_sigma_ok. do 3 f_equal. lra.
  - intros ->. replace (1 + 0 * 0) with 1 by lra. by rewrite ln_1, sqrt_0.
Qed.

(** ** Outcomes of the factorisation *)

Lemma for_range_Err_inv {S : Type} (I : nat → S → Prop)
    (n : nat) (body : nat → S → result S) (s0 : S) (e : exn) :
  for_each (range n) body s0 = Err e →
  I O s0 →
  (∀ k s s', (k < n)%nat → I k s → body k s = Ok s' → I (Datatypes.S k) s') →
  ∃ k s, (k < n)%nat ∧ I k s ∧ body k s = Err e.
Proof.
  induction n as [|n IH]; intros Hrun H0 Hstep; [done|].
  unfold range in Hrun. rewrite seq_S, for_each_app in Hrun. cbn [Nat.add] in Hrun.
  destruct (for_each (seq 0 n) body s0) as [s|e'] eqn:E.
  - rewrite bind_Ok in Hrun. cbn [for_each] in Hrun.
    destruct (body n s) as [s'|e''] eqn:Eb; [done|].
    rewrite bind_Err in Hrun. injection Hrun as ->.
    exists n, s. split_and!; [lia| |done].
    apply (for_range_Ok_inv I n body s0 s E H0).
    intros k s1 s2 Hk. apply Hstep. lia.
  - rewrite bind_Err in Hrun. injection Hrun as ->.
    destruct (IH E H0) as (k & s & Hk & Hs & Hb).
    { intros k s1 s2 Hk. apply Hstep. lia. }
    exists k, s. split_and!; [lia|done..].
Qed.

Lemma chol_inv_factor m n L :
  square n m → chol_inv m n n 0 L → cholesky_factor_of n L m.
Proof.
  intros Hm (Hsq & Hzero & Heq & Hpos). split_and!; try done.
  - intros a b Hab. apply Hzero. unfold computed. lia.
  - intros b Hb. apply Hpos. unfold computed. lia.
  - intros a b Hba Ha. unfold mul_transpose.
    rewrite (dotsum_zero_tail _ (S b)); [|lia|].
    + symmetry. apply Heq. unfold computed. lia.
    + intros k Hk. rewrite (Hzero b k); [lra|]. unfold computed. lia.
Qed.

Lemma cholesky_Ok_iff m n L :
  square n m → cholesky m = Ok L ↔ cholesky_factor_of n L m.
Proof.
  intros Hm. split.
  - intros HL. apply chol_inv_factor; [done|].
    pose proof (cholesky_inv m n Hm) as H. by rewrite HL in H.
  - apply cholesky_of_product.
Qed.

Lemma factor_cells_unique m (L1 L2 : matrix) i :
  (∀ a b, computed i i a b →
     dotsum (λ k, entry L1 a k * entry L1 b k) (S b) = entry m a b) →
  (∀ b, (b < i)%nat → 0 < entry L1 b b) →
  (∀ a b, computed i i a b →
     dotsum (λ k, entry L2 a k * entry L2 b k) (S b) = entry m a b) →
  (∀ b, (b < i)%nat → 0 < entry L2 b b) →
  ∀ a b, computed i i a b → entry L1 a b = entry L2 a b.
Proof.
  intros He1 Hp1 He2 Hp2 a. induction a as [a IHa] using lt_wf_ind.
  intros b. induction b as [b IHb] using lt_wf_ind. intros Hc.
  assert (b ≤ a ∧ b < i)%nat as [Hba Hbi] by (unfold computed in Hc; lia).
  pose proof (He1 a b Hc) as E1. pose proof (He2 a b Hc) as E2.
  rewrite dotsum_S in E1, E2.
  assert (dotsum (λ k, entry L1 a k * entry L1 b k) b
          = dotsum (λ k, entry L2 a k * entry L2 b k) b) as Hs.
  { apply dotsum_ext. intros k Hk.
    rewrite (IHb k Hk) by (unfold computed in *; lia).
    destruct (decide (b = a)) as [->|Hne].
    - rewrite (IHb k Hk) by (unfold computed in *; lia). done.
    - rewrite (IHa b ltac:(lia) k) by (unfold computed; lia). done. }
  rewrite Hs in E1.
  destruct (decide (b = a)) as [->|Hne].
  - pose proof (Hp1 a Hbi). pose proof (Hp2 a Hbi). nra.
  - assert (entry L1 b b = entry L2 b b) as Hd
      by (apply IHa; [lia|unfold computed; lia]).
    pose proof (Hp2 b Hbi) as Hpos. rewrite Hd in E1.
    apply (Rmult_eq_reg_r (entry L2 b b)); lra.
Qed.

Lemma cholesky_Err_iff m n e :
  square n m → cholesky m = Err e ↔ e = ValueError ∧ nonpositive_pivot n m.
Proof.
  intros Hm. split.
  - intros Herr. pose proof (cholesky_inv m n Hm) as Hv. rewrite Herr in Hv.
    split; [done|]. unfold cholesky in Herr. pose proof Hm as [Hlen _].
    rewrite Hlen in Herr.
    destruct (for_range_Err_inv (λ i L, chol_inv m n i 0 L) n (cholesky_row m)
                (zeros n) e Herr) as (i & L0 & Hi & HL0 & Hrow).
    { split; [apply zeros_square|]. split; [|split].
      - intros. apply entry_zeros.
      - unfold computed. lia.
      - unfold computed. lia. }
    { intros k s s' Hk Hs Hok. pose proof (cholesky_row_inv m n k s Hm Hk Hs) as H.
      by rewrite Hok in H. }
    unfold cholesky_row in Hrow.
    destruct (for_range_Err_inv (λ j L, chol_inv m n i j L) (i + 1)
                (cholesky_cell m i) L0 e Hrow HL0) as (j & L1 & Hj & HL1 & Hcell).
    { intros k s s' Hk Hs Hok.
      pose proof (cholesky_cell_inv m n i k s Hm ltac:(lia) Hi Hs) as H.
      by rewrite Hok in H. }
    destruct (proj1 (cholesky_cell_fails m n i j L1 Hm ltac:(lia) Hi HL1))
      as [-> Hpivot]; [by eexists|].
    by exists j, L1.
  - intros [-> (i & L' & Hi & (Hsq' & Hzero' & Heq' & Hpos') & Hpivot)].
    destruct (cholesky m) as [L|e'] eqn:E.
    + exfalso. pose proof (cholesky_inv m n Hm) as H. rewrite E in H.
      destruct H as (Hsq & Hzero & Heq & Hpos).
      assert (∀ k, (k < i)%nat → entry L i k = entry L' i k) as Hrow.
      { intros k Hk. apply (factor_cells_unique m L L' i).
        - intros a b Hc. apply Heq. unfold computed in *. lia.
        - intros b Hb. apply Hpos. unfold computed. lia.
        - done.
        - intros b Hb. apply Hpos'. unfold computed. lia.
        - unfold computed. lia. }
      pose proof (Heq i i ltac:(unfold computed; lia)) as Hii.
      rewrite dotsum_S in Hii.
      rewrite (dotsum_ext _ (λ k, entry L' i k * entry L' i k)) in Hii
        by (intros k Hk; by rewrite (Hrow k Hk)).
      pose proof (Hpos i ltac:(unfold computed; lia)). nra.
    + f_equal. pose proof (cholesky_inv m n Hm) as H. by rewrite E in H.
Qed.

(** ** The retry loop: claim *)

(** C4.  [build_correlation] factorises the raw matrix first and then the
    matrix inflated by 1e-8, 1e-6, 1e-5, 1e-4, 1e-3 and 1e-2, in that
    order; the matrix of a pass differs from the raw one on the diagonal
    only, by the pass's epsilon; a pass succeeds exactly when its matrix has
    a lower-triangular factor with a positive diagonal, which it returns,
    and fails, with [ValueError], exactly when the factorisation meets a
    diagonal pivot that is not positive; the result is the factor of the
    first pass that succeeds, and [RuntimeError] is raised if and only if
    the raw pass and every inflated pass fail. *)
Theorem build_correlation_retries (c : correlations_cfg) :
  let n := length (corr_tests c) in
  epsilons = [0; 1e-8; 1e-6; 1e-5; 1e-4; 1e-3; 1e-2] ∧
  (∀ corr, correlation_matrix c = Ok corr →
     (∀ eps, eps ∈ epsilons →
        ∃ ce, try_cholesky corr n eps = cholesky ce ∧ square n ce ∧
              (∀ a b, (a < n)%nat → (b < n)%nat →
                 entry ce a b = if decide (a = b) then entry corr a b + eps
                                else entry corr a b) ∧
              (∀ L, cholesky ce = Ok L ↔ cholesky_factor_of n L ce) ∧
              (∀ e, cholesky ce = Err e ↔
                    e = ValueError ∧ nonpositive_pivot n ce)) ∧
     (∀ e, build_correlation c = Err e ↔
           e = RuntimeError ∧
           ∀ eps, eps ∈ epsilons → try_cholesky corr n eps = Err ValueError) ∧
     (∀ r, build_correlation c = Ok r ↔
           ∃ k eps L, r = (corr_tests c, L) ∧ epsilons !! k = Some eps ∧
                      try_cholesky corr n eps = Ok L ∧
                      ∀ k' eps', (k' < k)%nat → epsilons !! k' = Some eps' →
                                 try_cholesky corr n eps' = Err ValueError)) ∧
  (build_correlation c = Err RuntimeError ↔
   ∃ corr, correlation_matrix c = Ok corr ∧
           ∀ eps, eps ∈ epsilons → try_cholesky corr n eps = Err ValueError).
Proof.
  intros n.
  assert (∀ corr, correlation_matrix c = Ok corr →
            ∀ e, build_correlation c = Err e ↔
                 e = RuntimeError ∧
                 ∀ eps, eps ∈ epsilons → try_cholesky corr n eps = Err ValueError)
    as Hfatal.
  { intros corr Hcorr e.
    destruct (correlation_matrix_Ok c corr Hcorr) as (Hsq & Hsym & _).
    fold n in Hsq.
    unfold build_correlation. rewrite Hcorr, bind_Ok. fold n.
    destruct (first_factor corr n epsilons) as [L|] eqn:E.
    - split; [done|]. intros [_ Hall].
      apply first_factor_Some in E as (k & eps & Hk & HL & _).
      rewrite Hall in HL; [done|]. by eapply list_elem_of_lookup_2.
    - split.
      + intros [= <-]. split; [done|]. intros eps Hin.
        destruct (proj1 (first_factor_None corr n epsilons) E eps Hin) as [e He].
        rewrite He. f_equal.
        apply (try_cholesky_error n corr eps); auto using epsilons_nonneg.
      + by intros [-> _]. }
  split; [done|]. split.
  - intros corr Hcorr.
    destruct (correlation_matrix_Ok c corr Hcorr) as (Hsq & Hsym & _).
    fold n in Hsq.
    assert (∀ eps e, eps ∈ epsilons → try_cholesky corr n eps = Err e →
                     e = ValueError) as Herr.
    { intros eps e Hin. apply (try_cholesky_error n); auto using epsilons_nonneg. }
    split; [|split].
    + intros eps Hin.
      destruct (try_cholesky_matrix n corr eps Hsq Hsym (epsilons_nonneg _ Hin))
        as (ce & E & Hsq' & _ & Hent).
      exists ce. split_and!; try done.
      * intros a b Ha Hb. rewrite Hent by done. case_decide; lra.
      * intros L. by apply cholesky_Ok_iff.
      * intros e. by apply cholesky_Err_iff.
    + by apply Hfatal.
    + intros r. unfold build_correlation. rewrite Hcorr, bind_Ok. fold n.
      destruct (first_factor corr n epsilons) as [L|] eqn:E.
      * split.
        -- intros [= <-].
           apply first_factor_Some in E as (k & eps & Hk & HL & Hbefore).
           exists k, eps, L. split_and!; try done. intros k' eps' Hlt Hk'.
           destruct (Hbefore k' eps' Hlt Hk') as [e He].
           rewrite He. f_equal. eapply Herr; [|done].
           by eapply list_elem_of_lookup_2.
        -- intros (k & eps & L' & -> & Hk & HL & Hbefore). do 2 f_equal.
           assert (first_factor corr n epsilons = Some L') as E'; [|congruence].
           apply first_factor_Some. exists k, eps. split_and!; try done.
           intros k' eps' Hlt Hk'. rewrite (Hbefore k' eps' Hlt Hk'). by eexists.
      * split; [done|]. intros (k & eps & L & _ & Hk & HL & _).
        destruct (proj1 (first_factor_None corr n epsilons) E eps) as [e He];
          [by eapply list_elem_of_lookup_2|congruence].
  - split.
    + intros Hbuild. destruct (correlation_matrix c) as [corr|e0] eqn:Hcorr.
      * exists corr. split; [done|].
        by destruct (proj1 (Hfatal corr eq_refl RuntimeError) Hbuild).
      * unfold build_correlation in Hbuild. rewrite Hcorr, bind_Err in Hbuild.
        injection Hbuild as ->.
        pose proof (correlation_matrix_outcome c) as H. rewrite Hcorr in H.
        by destruct H.
    + intros (corr & Hcorr & Hall). by apply (Hfatal corr Hcorr).
Qed.
(** Two tests: the passes of the retry loop. *)

Lemma pair_matrix rho :
  correlation_matrix (pair_cfg rho) = Ok [[1; rho]; [rho; 1]].
Proof.
  assert (index_map (corr_tests (pair_cfg rho)) !! "VO2 max" = Some 0%nat) as H0
    by reflexivity.
  assert (index_map (corr_tests (pair_cfg rho)) !! "Grip Strength" = Some 1%nat)
    as H1 by reflexivity.
  assert (unit_diagonal 2 (zeros 2) = Ok [[1; 0]; [0; 1]]) as Hdiag
    by (unfold unit_diagonal; by run).
  unfold correlation_matrix. cbv zeta.
  change (length (corr_tests (pair_cfg rho))) with 2%nat. rewrite Hdiag, bind_Ok.
  change (corr_pairs (pair_cfg rho)) with [("VO2 max", "Grip Strength", rho)].
  unfold for_each, set_pair, dict_get. rewrite H0, H1. by run.
Qed.

Lemma square_2 (x y z w : R) : square 2 [[x; y]; [z; w]].
Proof.
  split; [done|]. intros [|[|i]] row H; simpl in H; by simplify_eq.
Qed.

Lemma epsilons_small eps : eps ∈ epsilons → eps <= 1e-2.
Proof.
  unfold epsilons. rewrite !elem_of_cons, elem_of_nil.
  intros H. repeat (destruct H as [->|H]; [lra|]). done.
Qed.

Lemma pair_pass_fails rho d (ce : matrix) :
  square 2 ce →
  entry ce 0 0 = d → entry ce 1 0 = rho → entry ce 1 1 = d →
  0 < d → d * d <= rho * rho →
  nonpositive_pivot 2 ce.
Proof.
  intros Hsq H00 H10 H11 Hd Hrho.
  assert (sqrt d * sqrt d = d) as Hs by (apply sqrt_sqrt; lra).
  assert (0 < sqrt d) as Hpos by (by apply sqrt_lt_R0).
  assert (rho / sqrt d * (rho / sqrt d) = rho * rho / d) as Hq.
  { rewrite <- Hs at 3. field. lra. }
  exists 1%nat, (pair_partial rho d). split; [lia|]. split.
  - split; [apply square_2|]. split; [|split].
    + intros [|[|a]] [|[|b]] Hnc; try reflexivity;
        exfalso; apply Hnc; unfold computed; lia.
    + intros [|[|a]] [|[|b]] Hc; try (unfold computed in Hc; lia);
        rewrite ?H00, ?H10; unfold dotsum, entry, pair_partial; cbn.
      * lra.
      * field. lra.
    + intros [|[|b]] Hc; try (unfold computed in Hc; lia).
      unfold entry, pair_partial. cbn. done.
  - rewrite H11. unfold dotsum, entry, pair_partial. cbn.
    rewrite Rplus_0_l, Hq.
    assert (0 <= (rho * rho - d * d) * / d) as Hnn.
    { apply Rmult_le_pos; [lra|]. apply Rlt_le, Rinv_0_lt_compat. lra. }
    replace (d - rho * rho / d) with (- ((rho * rho - d * d) * / d))
      by (field; lra).
    lra.
Qed.

Lemma pair_pass_factor rho d (ce : matrix) :
  square 2 ce →
  entry ce 0 0 = d → entry ce 1 0 = rho → entry ce 1 1 = d →
  0 < d → rho * rho < d * d →
  cholesky_factor_of 2 (pair_factor rho d) ce.
Proof.
  intros Hsq H00 H10 H11 Hd Hrho.
  assert (sqrt d * sqrt d = d) as Hs by (apply sqrt_sqrt; lra).
  assert (0 < sqrt d) as Hpos by (by apply sqrt_lt_R0).
  assert (rho / sqrt d * (rho / sqrt d) = rho * rho / d) as Hq.
  { rewrite <- Hs at 3. field. lra. }
  assert (0 < d - rho * rho / d) as Hpiv.
  { replace (d - rho * rho / d) with ((d * d - rho * rho) * / d) by (field; lra).
    apply Rmult_lt_0_compat; [lra|]. apply Rinv_0_lt_compat. lra. }
  assert (sqrt (d - rho * rho / d) * sqrt (d - rho * rho / d) = d - rho * rho / d)
    as Ht by (apply sqrt_sqrt; lra).
  split_and!.
  - apply square_2.
  - intros [|[|a]] [|[|b]] Hab; try lia; reflexivity.
  - intros [|[|b]] Hb; try lia; unfold entry, pair_factor; cbn; [done|].
    by apply sqrt_lt_R0.
  - done.
  - intros [|[|a]] [|[|b]] Hba Ha; try lia;
      rewrite ?H00, ?H10, ?H11;
      unfold mul_transpose, dotsum, entry, pair_factor; cbn.
    + lra.
    + field. lra.
    + rewrite Hq, Ht. lra.
Qed.

Lemma build_correlation_retries_witness :
  try_cholesky [[1; 1]; [1; 1]] 2 0 = Err ValueError ∧
  build_correlation (pair_cfg 1)
  = Ok (["VO2 max"; "Grip Strength"], pair_factor 1 (1 + 1e-8)) ∧
  build_correlation (pair_cfg 2) = Err RuntimeError.
Proof.
  destruct (build_correlation_retries (pair_cfg 1)) as (_ & Hretry & _).
  destruct (Hretry _ (pair_matrix 1)) as (Hpass & _ & Hok).
  destruct (build_correlation_retries (pair_cfg 2)) as (_ & Hpass2 & Hfatal).
  change (length (corr_tests (pair_cfg 1))) with 2%nat in Hpass, Hok.
  change (length (corr_tests (pair_cfg 2))) with 2%nat in Hpass2, Hfatal.
  assert (try_cholesky [[1; 1]; [1; 1]] 2 0 = Err ValueError) as Hraw.
  { destruct (Hpass 0) as (ce & -> & Hsq & Hent & _ & Herr); [left|].
    apply Herr. split; [done|].
    apply (pair_pass_fails 1 1); try done; try lra;
      rewrite Hent by (cbn; lia); case_decide; try lia; cbn; lra. }
  split; [done|]. split.
  - apply Hok. exists 1%nat, 1e-8, (pair_factor 1 (1 + 1e-8)).
    split_and!; [done|done| |].
    + destruct (Hpass 1e-8) as (ce & -> & Hsq & Hent & Hfac & _); [right; left|].
      apply Hfac.
      apply (pair_pass_factor 1 (1 + 1e-8)); try done; try lra;
        rewrite Hent by (cbn; lia); case_decide; try lia; cbn; lra.
    + intros [|k'] eps' Hlt Hk'; [|lia]. injection Hk' as <-. exact Hraw.
  - apply Hfatal. exists [[1; 2]; [2; 1]]. split; [apply pair_matrix|].
    intros eps Hin. pose proof (epsilons_nonneg eps Hin) as H0.
    pose proof (epsilons_small eps Hin) as H1.
    destruct (Hpass2 _ (pair_matrix 2)) as (Hp & _).
    destruct (Hp eps Hin) as (ce & -> & Hsq & Hent & _ & Herr).
    apply Herr. split; [done|].
    apply (pair_pass_fails 2 (1 + eps)); try done; try nra;
      rewrite Hent by (cbn; lia); case_decide; try lia; cbn; lra.
Defined.

(** ** The improvement scenario: claim *)

Lemma bool_decide_set_of (t : string) (l : list string) :
  bool_decide (t ∈ set_of l) = bool_decide (t ∈ l).
Proof. apply bool_decide_ext. unfold set_of. apply elem_of_list_to_set. Qed.

Lemma improve_jump cfg t val imp :
  improve cfg t val imp
  = jump (bool_decide (t ∈ lower_is_better cfg))
      (bool_decide (t ∈ default [] (absolute_decline_tests cfg))) val imp.
Proof.
  unfold improve, jump, absolute_decline_set.
  rewrite <- !bool_decide_set_of.
  destruct (decide (t ∈ set_of (default [] (absolute_decline_tests cfg))));
    destruct (decide (t ∈ set_of (lower_is_better cfg)));
    repeat case_bool_decide; done.
Qed.

Lemma decline_value_aging value age_start years rate_base rate_post accel_age
    hib absd :
  decline_value value age_start years rate_base rate_post accel_age hib absd
  = aging hib absd value age_start years rate_base rate_post accel_age.
Proof.
  unfold decline_value, aging, split_years, years_before.
  destruct (Rle_dec years 0); [done|]. cbv zeta.
  destruct accel_age as [a|]; cbn [fst snd].
  - destruct (Rlt_dec age_start a); cbn [fst snd]; [done|].
    by rewrite Rminus_0_r.
  - by rewrite Rminus_diag.
Qed.

(** C3.  Under "improvement" the value of a test is, at every draw and
    whatever the noise is, the jump by the sampled fraction followed by
    age-segmented decline over [years - 1] years from the client's age plus
    1 (first conjunct, on the scenario branch of the loop); and end to end,
    for tests without noise whose improvement fraction is fixed, the run
    succeeds and the mean at horizon H (5 and 10) is what the practice
    effect and the clamping leave of the jump of the de-noised baseline
    followed by that decline over H − 1 years from age plus 1. *)
Theorem improvement_ages_remaining_years (cfg : config) (c : client) :
  (∀ years t val rate rate_post g r rp imp g',
     sample_improvement_fraction t (age c) (improvement cfg) g = Ok (imp, g') →
     rate !! t = Some r → rate_post !! t = Some rp →
     t ∈ default [] (absolute_decline_tests cfg) ∨
       (-1 <= r <= 1 ∧ ∀ p, rp = Some p → -1 <= p <= 1) →
     scenario_value cfg c "improvement" years t val rate rate_post g
     = Ok (aging (bool_decide (t ∈ higher_is_better cfg))
             (bool_decide (t ∈ default [] (absolute_decline_tests cfg)))
             (jump (bool_decide (t ∈ lower_is_better cfg))
                (bool_decide (t ∈ default [] (absolute_decline_tests cfg)))
                val imp)
             (default 0 (age c) + 1) (years - 1) r rp
             (accelerate_from_age (decline cfg) !! t), g')) ∧
  (∀ (imp : string → R) corr_tests (corr_L : list (list R)) g,
     NoDup (tests_order cfg) →
     (∀ t, t ∈ tests_order cfg → quiet cfg c t ∧ bounded_rates cfg t) →
     fixed_improvement cfg c imp →
     square (length corr_tests) corr_L →
     (0 < n_sim cfg)%Z →
     ∃ mean5 mean10 g',
       simulate_client c cfg corr_tests corr_L "improvement" g
       = Ok (mean5, mean10, g') ∧
       ∀ t, t ∈ tests_order cfg →
         let mln := set_of (measurement_lognormal cfg) in
         let allow := allow_negative_set cfg in
         let after_jump :=
           jump (bool_decide (t ∈ lower_is_better cfg))
             (bool_decide (t ∈ default [] (absolute_decline_tests cfg)))
             (clamped t mln allow (baseline_or_0 c t)) (imp t) in
         let aged years mu :=
           aging (bool_decide (t ∈ higher_is_better cfg))
             (bool_decide (t ∈ default [] (absolute_decline_tests cfg)))
             after_jump (default 0 (age c) + 1) (years - 1) (Rmax 0 mu)
             (post_rate_per_decade (decline cfg) !! t)
             (accelerate_from_age (decline cfg) !! t) in
         ∃ mu,
           base_rate_per_decade (decline cfg) !! t = Some mu ∧
           mean5 !! t = Some (clamped t mln allow (practice cfg 5 t (aged 5 mu))) ∧
           mean10 !! t
           = Some (clamped t mln allow (practice cfg 10 t (aged 10 mu)))).
Proof.
  split.
  - intros years t val rate rate_post g r rp imp g' Hs Hr Hrp Hb.
    rewrite scenario_value_improvement, Hs, bind_Ok.
    unfold dict_get. rewrite Hr, Hrp, !bind_Ok.
    rewrite apply_decline_value.
    + rewrite bind_Ok, decline_value_aging, improve_jump.
      unfold absolute_decline_set. rewrite !bool_decide_set_of. done.
    + destruct Hb as [Habs|Hb]; [left|by right].
      apply bool_decide_eq_true_2. unfold absolute_decline_set, set_of.
      by apply elem_of_list_to_set.
  - intros imp corr_tests corr_L g Hnd Hall Hfixed Hsq Hn.
    destruct (simulate_client_quiet cfg c "improvement" imp Hnd) with
      (corr_tests := corr_tests) (corr_L := corr_L) (g := g)
      as (mean5 & mean10 & g' & Hrun & Hmeans & _); try done.
    { intros t Ht. by apply Hall. }
    { by apply quiet_values_defined. }
    exists mean5, mean10, g'. split; [done|]. intros t Ht. cbv zeta.
    destruct (Hmeans t Ht) as [H5 H10].
    destruct (Hall t Ht) as [((mu & Hmu & _) & _) Hb].
    unfold quiet_value_or_0 in H5, H10.
    rewrite (quiet_value_closed cfg c "improvement" imp 5 t mu Hmu Hb) in H5.
    rewrite (quiet_value_closed cfg c "improvement" imp 10 t mu Hmu Hb) in H10.
    cbv zeta in H5, H10. rewrite decide_True in H5, H10 by done.
    rewrite decline_value_aging, improve_jump in H5, H10.
    unfold absolute_decline_set in H5, H10.
    rewrite !bool_decide_set_of in H5, H10.
    by exists mu.
Qed.

(** The scenario on the example with an acceleration age. *)

Lemma seg_value_relative_higher val rate y :
  0 <= val → 0 < y → rate < 1 →
  seg_value true false val rate y = val * Rpower (1 - rate) (y / 10).
Proof.
  intros Hv Hy Hr. unfold seg_value.
  destruct (Rle_dec y 0); [lra|]. destruct (Rle_dec 0 val); [|lra].
  destruct (Rlt_dec 0 (1 - rate)); [done|lra].
Qed.

Lemma aging_before_acceleration val s y r p a :
  0 <= val → 0 < y → y <= a - s → r < 1 →
  aging true false val s y r (Some p) (Some a) = val * Rpower (1 - r) (y / 10).
Proof.
  intros Hv Hy Hya Hr. unfold aging, years_before.
  destruct (Rle_dec y 0); [lra|]. cbv zeta.
  destruct (Rlt_dec s a); [|lra]. rewrite Rmin_left by done.
  rewrite Rminus_diag, seg_value_zero. by apply seg_value_relative_higher.
Qed.

Lemma aging_across_acceleration val s y r p a :
  0 <= val → s < a → a - s < y → r < 1 → p < 1 →
  aging true false val s y r (Some p) (Some a)
  = val * Rpower (1 - r) ((a - s) / 10) * Rpower (1 - p) ((y - (a - s)) / 10).
Proof.
  intros Hv Hs Hy Hr Hp. unfold aging, years_before.
  destruct (Rle_dec y 0); [lra|]. cbv zeta.
  destruct (Rlt_dec s a); [|lra]. rewrite Rmin_right by lra. cbn [default].
  rewrite (seg_value_relative_higher val) by lra.
  apply seg_value_relative_higher; [|lra..].
  pose proof (Rpower_pos (1 - r) ((a - s) / 10)). nra.
Qed.

Lemma shifted_aging_is_less :
  44 * Rpower 0.95 0.4 * Rpower 0.9 0.5
  < aging true false 44 45 9 0.05 (Some 0.1) (Some 50).
Proof.
  rewrite aging_across_acceleration by lra.
  replace (1 - 0.05) with 0.95 by lra. replace (1 - 0.1) with 0.9 by lra.
  replace ((50 - 45) / 10) with (0.4 + 0.1) by lra.
  replace ((9 - (50 - 45)) / 10) with 0.4 by lra.
  replace 0.5 with (0.4 + 0.1) by lra. rewrite !Rpower_plus.
  pose proof (Rpower_pos 0.95 0.4) as HA. pose proof (Rpower_pos 0.9 0.4) as HB.
  assert (Rpower 0.9 0.1 < Rpower 0.95 0.1) as Hlt
    by (apply Rlt_Rpower_l; lra).
  assert (0 < Rpower 0.95 0.4 * Rpower 0.9 0.4) as HAB
    by (by apply Rmult_lt_0_compat).
  nra.
Qed.

Lemma accel_well_configured t :
  t ∈ tests_order accel_cfg → quiet accel_cfg vo2_client t ∧ bounded_rates accel_cfg t.
Proof.
  intros ->%list_elem_of_singleton. split; [split_and!|].
  - exists 0.05. split; [apply lookup_singleton_eq|]. by intros ?%elem_of_nil.
  - apply lookup_singleton_eq.
  - apply lookup_singleton_eq.
  - simpl. by rewrite lookup_singleton_eq.
  - right. simpl. split.
    + intros mu. rewrite lookup_singleton_eq. intros [= <-]. lra.
    + intros p. rewrite lookup_singleton_eq. intros [= <-]. lra.
Qed.

Lemma accel_improvement_fixed :
  fixed_improvement accel_cfg vo2_client (λ _, 0.1).
Proof.
  intros t g ->%list_elem_of_singleton.
  unfold sample_improvement_fraction. rewrite decide_True by done. simpl.
  destruct (Rlt_dec 45 50); [|lra].
  eexists. unfold uniform. simpl. do 2 f_equal. lra.
Qed.

Lemma noisy_fraction :
  sample_improvement_fraction "VO2 max" (age vo2_client) (improvement noisy_cfg)
    example_rng
  = Ok (0.1, (next_random example_rng).2).
Proof.
  unfold sample_improvement_fraction. rewrite decide_True by done. simpl.
  destruct (Rlt_dec 45 50); [|lra].
  unfold uniform. simpl. do 2 f_equal. lra.
Qed.

Lemma improvement_ages_remaining_years_witness :
  (∃ mean5 mean10 g',
     simulate_client vo2_client accel_cfg [] [] "improvement" example_rng
     = Ok (mean5, mean10, g') ∧
     mean5 !! "VO2 max" = Some (44 * Rpower 0.95 0.4) ∧
     mean10 !! "VO2 max" = Some (44 * Rpower 0.95 0.4 * Rpower 0.9 0.5)) ∧
  44 * Rpower 0.95 0.4 * Rpower 0.9 0.5
  < aging true false 44 45 9 0.05 (Some 0.1) (Some 50) ∧
  scenario_value noisy_cfg vo2_client "improvement" 10 "VO2 max" 40
    {["VO2 max" := 0.06]} {["VO2 max" := Some 0.12]} example_rng
  = Ok (44 * Rpower 0.94 0.4 * Rpower 0.88 0.5, (next_random example_rng).2).
Proof.
  split; [|split; [apply shifted_aging_is_less|]].
  - destruct (proj2 (improvement_ages_remaining_years accel_cfg vo2_client)
                (λ _, 0.1) [] [] example_rng)
      as (mean5 & mean10 & g' & Hrun & Hmeans).
    + apply NoDup_singleton.
    + apply accel_well_configured.
    + apply accel_improvement_fixed.
    + apply square_nil.
    + reflexivity.
    + exists mean5, mean10, g'. split; [done|].
      destruct (Hmeans "VO2 max") as (mu & Hmu & H5 & H10); [left|].
      cbn in Hmu. rewrite lookup_singleton_eq in Hmu. injection Hmu as <-.
      rewrite H5, H10.
      assert ("VO2 max" ∉ allow_negative_set accel_cfg) as Hna.
      { unfold allow_negative_set, set_of. rewrite elem_of_list_to_set. cbn.
        by rewrite list_elem_of_singleton. }
      rewrite !practice_disabled by done.
      rewrite (bool_decide_eq_true_2 ("VO2 max" ∈ higher_is_better accel_cfg))
        by left.
      rewrite (bool_decide_eq_false_2 ("VO2 max" ∈ lower_is_better accel_cfg))
        by apply not_elem_of_nil.
      rewrite (bool_decide_eq_false_2
                 ("VO2 max" ∈ default [] (absolute_decline_tests accel_cfg)))
        by apply not_elem_of_nil.
      assert (baseline_or_0 vo2_client "VO2 max" = 40) as ->.
      { unfold baseline_or_0. simpl. by rewrite lookup_singleton_eq. }
      rewrite (clamped_nonneg _ _ _ 40) by lra.
      assert (jump false false 40 0.1 = 44) as ->.
      { unfold jump. destruct (Rle_dec 0 40); lra. }
      cbn [decline accel_cfg post_rate_per_decade accelerate_from_age age
           vo2_client from_option].
      rewrite !lookup_singleton_eq. rewrite Rmax_right by lra.
      rewrite (aging_before_acceleration 44 (45 + 1) (5 - 1)) by lra.
      rewrite (aging_across_acceleration 44 (45 + 1) (10 - 1)) by lra.
      replace (1 - 0.05) with 0.95 by lra. replace (1 - 0.1) with 0.9 by lra.
      replace ((5 - 1) / 10) with 0.4 by lra.
      replace ((50 - (45 + 1)) / 10) with 0.4 by lra.
      replace ((10 - 1 - (50 - (45 + 1))) / 10) with 0.5 by lra.
      pose proof (Rpower_pos 0.95 0.4) as HA.
      pose proof (Rpower_pos 0.9 0.5) as HB.
      rewrite !clamped_nonneg by nra. done.
  - rewrite (proj1 (improvement_ages_remaining_years noisy_cfg vo2_client)
               10 "VO2 max" 40 {["VO2 max" := 0.06]} {["VO2 max" := Some 0.12]}
               example_rng 0.06 (Some 0.12) 0.1 (next_random example_rng).2).
    + rewrite (bool_decide_eq_true_2 ("VO2 max" ∈ higher_is_better noisy_cfg))
        by left.
      rewrite (bool_decide_eq_false_2 ("VO2 max" ∈ lower_is_better noisy_cfg))
        by apply not_elem_of_nil.
      rewrite (bool_decide_eq_false_2
                 ("VO2 max" ∈ default [] (absolute_decline_tests noisy_cfg)))
        by apply not_elem_of_nil.
      assert (jump false false 40 0.1 = 44) as ->.
      { unfold jump. destruct (Rle_dec 0 40); lra. }
      cbn [decline noisy_cfg accelerate_from_age age vo2_client from_option].
      rewrite lookup_singleton_eq.
      rewrite (aging_across_acceleration 44 (45 + 1) (10 - 1)) by lra.
      replace (1 - 0.06) with 0.94 by lra. replace (1 - 0.12) with 0.88 by lra.
      replace ((50 - (45 + 1)) / 10) with 0.4 by lra.
      replace ((10 - 1 - (50 - (45 + 1))) / 10) with 0.5 by lra.
      done.
    + apply noisy_fraction.
    + apply lookup_singleton_eq.
    + apply lookup_singleton_eq.
    + right. split; [lra|]. intros p [= <-]. lra.
Defined.
